(** * The Yiffer catalog cache: store, synchronizer and search engine

    A shallow embedding of [src/yiffer/yiffer.py].  The SQLite file is a
    record of three tables, each a list of rows in the order a scan
    returns them.  Python exceptions are the [Raise] results of a small
    error monad.  The remote service is a record of the two responses the
    code asks for.  Text is ASCII text, integers are unbounded, and a
    floating-point number (a rating, a similarity ratio) is the rational
    it stands for. *)

From Stdlib Require Import ZArith QArith List String Ascii Bool Lia.
From Stdlib Require Import Sorting.Sorted Sorting.Permutation.
From Stdlib Require Import Numbers.DecimalString.
From Stdlib Require Numbers.DecimalPos.
Import ListNotations.

Local Open Scope string_scope.
Local Open Scope list_scope.
Local Open Scope Z_scope.

(** ** Exceptions *)

(** The exceptions the module can raise. *)
Inductive exn : Type :=
| TypeError        (* subscripting or iterating [None] *)
| AttributeError   (* attribute access on [None] *)
| ValueError       (* [difflib.get_close_matches] with [n <= 0] *)
| IntegrityError.  (* [UNIQUE constraint failed: comics.id] *)

Inductive result (A : Type) : Type :=
| Ok (a : A)
| Raise (e : exn).
Arguments Ok {A} a.
Arguments Raise {A} e.

Definition bind {A B} (m : result A) (k : A -> result B) : result B :=
  match m with
  | Ok a => k a
  | Raise e => Raise e
  end.

Declare Scope py_scope.
Delimit Scope py_scope with py.
Notation "x <- m ;; k" := (bind m (fun x => k))
  (at level 100, m at next level, right associativity) : py_scope.

(** [[f(x) for x in xs]] where [f] may raise: the first exception wins. *)
Fixpoint for_each {A B} (f : A -> result B) (xs : list A) : result (list B) :=
  match xs with
  | [] => Ok []
  | x :: xs' => (y <- f x ;; ys <- for_each f xs' ;; Ok (y :: ys))%py
  end.

(** ** Python built-ins used by the module *)

Module Py.

(** [len(xs)] as a Python integer. *)
Definition len {A} (xs : list A) : Z := Z.of_nat (List.length xs).

(** [str(n)] for an integer. *)
Definition str (n : Z) : string := NilZero.string_of_int (Z.to_int n).

(** [s.replace(' ', '%20')]. *)
Fixpoint replace_space (s : string) : string :=
  match s with
  | EmptyString => EmptyString
  | String c s' =>
      if Ascii.eqb c " "%char then ("%20" ++ replace_space s')%string
      else String c (replace_space s')
  end.

Fixpoint zeros (n : nat) : string :=
  match n with
  | O => EmptyString
  | S n' => String "0"%char (zeros n')
  end.

(** [format(n, '03d')]: the sign, then the digits padded with zeros on
    the left to a total width of three. *)
Definition format_03d (n : Z) : string :=
  if n <? 0 then
    let digits := str (- n) in
    ("-" ++ zeros (2 - String.length digits) ++ digits)%string
  else
    let digits := str n in
    (zeros (3 - String.length digits) ++ digits)%string.

(** [range(1, n + 1)]. *)
Definition range1 (n : Z) : list Z := map Z.of_nat (seq 1 (Z.to_nat n)).

(** [enumerate(xs, 1)]. *)
Definition enumerate1 {A} (xs : list A) : list (Z * A) :=
  combine (map Z.of_nat (seq 1 (List.length xs))) xs.

(** [xs[:n]]: a negative [n] counts from the end. *)
Definition slice_to {A} (xs : list A) (n : Z) : list A :=
  if n <? 0 then firstn (Z.to_nat (len xs + n)) xs
  else firstn (Z.to_nat n) xs.

Definition is_upper (c : ascii) : bool :=
  let n := nat_of_ascii c in (65 <=? n)%nat && (n <=? 90)%nat.
Definition is_lower (c : ascii) : bool :=
  let n := nat_of_ascii c in (97 <=? n)%nat && (n <=? 122)%nat.
Definition is_cased (c : ascii) : bool := is_upper c || is_lower c.
Definition upper (c : ascii) : ascii :=
  if is_lower c then ascii_of_nat (nat_of_ascii c - 32) else c.
Definition lower (c : ascii) : ascii :=
  if is_upper c then ascii_of_nat (nat_of_ascii c + 32) else c.

(** [s.title()] on ASCII text: a cased character is upper-cased when it
    follows an uncased one (or starts the string) and lower-cased when
    it follows a cased one. *)
Fixpoint title_from (previous_is_cased : bool) (s : string) : string :=
  match s with
  | EmptyString => EmptyString
  | String c s' =>
      String (if previous_is_cased then lower c else upper c)
             (title_from (is_cased c) s')
  end.
Definition title (s : string) : string := title_from false s.

(** [round(m / 10)] for an integer [m]: true division, then rounding
    to the nearest integer with ties going to the even one.  The
    quotient [k + d/10] is a tie only for [d = 5], where [k + 0.5] is
    itself a double, so below [2^50] the floating-point steps do not
    change the outcome. *)
Definition round_div10 (m : Z) : Z :=
  let k := m / 10 in
  let d := m mod 10 in
  if d <? 5 then k
  else if 5 <? d then k + 1
  else if Z.even k then k else k + 1.

End Py.

(** ** URL templates *)

Definition BASE_URL : string := "https://yiffer.xyz".
Definition STATIC_URL : string := "https://static.yiffer.xyz".
Definition API_URL : string := (BASE_URL ++ "/api")%string.

(** [THUMBNAIL_URL.format(comic_name=...)]. *)
Definition THUMBNAIL_URL (comic_name : string) : string :=
  (STATIC_URL ++ "/comics/" ++ comic_name ++ "/thumbnail.webp")%string.

(** [COMICS_URL.format(comic_name=..., page_number=...)]. *)
Definition COMICS_URL (comic_name : string) (page_number : Z) : string :=
  (STATIC_URL ++ "/comics/" ++ comic_name ++ "/"
     ++ Py.format_03d page_number ++ ".jpg")%string.

Definition get_comic_thumbnail_by_name (name : string) : string :=
  THUMBNAIL_URL (Py.replace_space name).

Definition get_comic_page_by_name_and_page (name : string) (page : Z) : string :=
  COMICS_URL (Py.replace_space name) page.

Definition get_comic_pages_by_name_and_pages (name : string) (pages : Z)
  : list string :=
  map (fun i => COMICS_URL (Py.replace_space name) i) (Py.range1 pages).

(** ** Records of the remote service *)

(** Timestamps travel as the strings the JSON carries.  A rating is a
    rational (every finite double is one) or absent. *)
Definition timestamp : Type := string.
Definition rating : Type := option Q.

Module BasicComicData.
Record t : Type := mk {
  id : Z;
  name : string;
  category : string;
  tag : string;
  artist : string;
  updated : timestamp;
  state : string;
  created : timestamp;
  numberOfPages : Z
}.
End BasicComicData.

Module DetailedComicData.
Record t : Type := mk {
  name : string;
  numberOfPages : Z;
  artist : string;
  id : Z;
  category : string;
  tag : string;
  created : timestamp;
  updated : timestamp;
  rating : rating;
  keywords : list string
}.
End DetailedComicData.

(** The two requests of the Remote Catalog Client: [None] stands for a
    response whose status is not 200. *)
Record Remote : Type := {
  get_all_comics : option (list BasicComicData.t);
  get_comic_data_by_name : string -> option DetailedComicData.t
}.

(** ** The SQLite store *)

(** A value bound to a [?] placeholder. *)
Inductive sqlvalue : Type :=
| SqlInt (n : Z)
| SqlText (s : string).

(** Comparing a TEXT column with a bound value applies TEXT affinity to
    the value: an integer is compared through its decimal text. *)
Definition text_affinity (v : sqlvalue) : string :=
  match v with
  | SqlInt n => Py.str n
  | SqlText s => s
  end.

Module Comics.
Record row : Type := mk {
  id : Z;
  name : string;
  thumbnail : string;
  category : string;
  tag : string;
  artist : string;
  state : string;
  created : timestamp;
  updated : timestamp;
  userRating : rating
}.
End Comics.

Module Pages.
Record row : Type := mk {
  comic_name : string;
  page_number : Z;
  page_url : string
}.
End Pages.

Module Keywords.
Record row : Type := mk {
  comic_id : Z;
  keyword : string
}.
End Keywords.

(** The database file.  [comics] has [id INTEGER UNIQUE PRIMARY KEY], so
    its rows are kept, and scanned, in ascending [id]; the two other
    tables are scanned in insertion order.  Foreign keys are declared but
    not enforced (SQLite's default). *)
Record Database : Type := {
  comics_table : list Comics.row;
  pages_table : list Pages.row;
  keywords_table : list Keywords.row
}.

(** [create_database]: three empty tables. *)
Definition create_database : Database :=
  {| comics_table := []; pages_table := []; keywords_table := [] |}.

Module Sql.

(** Stable sorting: [ORDER BY] over the rows of a scan.  [before x y]
    says that [x] may stand before [y]. *)
Fixpoint insert_by {A} (before : A -> A -> bool) (x : A) (l : list A) : list A :=
  match l with
  | [] => [x]
  | y :: l' => if before x y then x :: l else y :: insert_by before x l'
  end.

Definition order_by {A} (before : A -> A -> bool) (l : list A) : list A :=
  fold_right (insert_by before) [] l.

(** [LIMIT ? OFFSET ?]: a negative offset is no offset, a negative
    limit is no limit. *)
Definition limit_offset {A} (limit offset : Z) (l : list A) : list A :=
  let rest := skipn (Z.to_nat offset) l in
  if limit <? 0 then rest else firstn (Z.to_nat limit) rest.

(** [SELECT DISTINCT]: each value once, at its first occurrence. *)
Fixpoint distinct (l : list Z) : list Z :=
  match l with
  | [] => []
  | x :: l' => x :: filter (fun y => negb (y =? x)) (distinct l')
  end.

(** [userRating DESC]: NULL sorts below every number. *)
Definition rating_geb (r1 r2 : rating) : bool :=
  match r1, r2 with
  | _, None => true
  | None, Some _ => false
  | Some a, Some b => Qle_bool b a
  end.

(** [INSERT INTO comics]: refused when the id is taken, else the row
    goes to its place in ascending [id]. *)
Definition insert_comic (r : Comics.row) (table : list Comics.row)
  : result (list Comics.row) :=
  if existsb (fun r' => Comics.id r' =? Comics.id r) table
  then Raise IntegrityError
  else Ok (insert_by (fun x y => Comics.id x <? Comics.id y) r table).

(** [SELECT * FROM comics WHERE name=?] then [fetchone()]. *)
Definition comic_by_name (db : Database) (comic_name : sqlvalue)
  : option Comics.row :=
  find (fun r => String.eqb (Comics.name r) (text_affinity comic_name))
       (comics_table db).

(** [SELECT * FROM pages WHERE comic_name=?]. *)
Definition pages_by_name (db : Database) (comic_name : sqlvalue)
  : list Pages.row :=
  filter (fun p => String.eqb (Pages.comic_name p) (text_affinity comic_name))
         (pages_table db).

(** [SELECT page_url FROM pages WHERE comic_name=? ORDER BY page_number]. *)
Definition page_urls_by_name (db : Database) (comic_name : sqlvalue)
  : list string :=
  map Pages.page_url
      (order_by (fun p q => Pages.page_number p <=? Pages.page_number q)
                (pages_by_name db comic_name)).

(** [SELECT keyword FROM keywords WHERE comic_id=?]. *)
Definition keywords_by_id (db : Database) (comic_id : Z) : list string :=
  map Keywords.keyword
      (filter (fun k => Keywords.comic_id k =? comic_id) (keywords_table db)).

(** [SELECT DISTINCT comic_id FROM keywords WHERE keyword IN (...)]. *)
Definition ids_by_keywords (db : Database) (wanted : list string) : list Z :=
  distinct
    (map Keywords.comic_id
         (filter (fun k => existsb (String.eqb (Keywords.keyword k)) wanted)
                 (keywords_table db))).

(** [SELECT name FROM comics ORDER BY userRating DESC LIMIT ? OFFSET ?]. *)
Definition by_rating (db : Database) : list Comics.row :=
  order_by (fun r1 r2 => rating_geb (Comics.userRating r1) (Comics.userRating r2))
           (comics_table db).

Definition names_by_rating (db : Database) (limit offset : Z) : list string :=
  map Comics.name (limit_offset limit offset (by_rating db)).

End Sql.

(** ** [difflib]: the similarity ratio and [get_close_matches] *)

Module difflib.

Definition sequence : Type := list ascii.

Definition item (s : sequence) (i : nat) : ascii := nth i s zero.

(** The ascending indices at which [elt] occurs in [b]. *)
Definition indices (b : sequence) (elt : ascii) : list nat :=
  filter (fun j => Ascii.eqb (item b j) elt) (seq 0 (List.length b)).

(** [__chain_b]: with [autojunk] on and [len(b) >= 200], an element
    occurring more than [len(b) // 100 + 1] times is popular and has no
    entry in [b2j].  No [isjunk] is given, so [bjunk] is empty. *)
Definition popular (b : sequence) (elt : ascii) : bool :=
  let n := List.length b in
  (200 <=? n)%nat && (n / 100 + 1 <? List.length (indices b elt))%nat.

Definition b2j (b : sequence) (elt : ascii) : list nat :=
  if popular b elt then [] else indices b elt.

(** [j2len.get(j, 0)]. *)
Fixpoint j2lenget (j2len : list (nat * nat)) (j : nat) : nat :=
  match j2len with
  | [] => 0%nat
  | (j', k) :: rest => if (j' =? j)%nat then k else j2lenget rest j
  end.

Definition Match : Type := (nat * nat * nat)%type.

(** The loop over [b2j.get(a[i], nothing)] for one [i]. *)
Fixpoint scan_js (js : list nat) (blo bhi i : nat) (j2len : list (nat * nat))
         (newj2len : list (nat * nat)) (best : Match)
  : list (nat * nat) * Match :=
  match js with
  | [] => (newj2len, best)
  | j :: js' =>
      if (j <? blo)%nat then scan_js js' blo bhi i j2len newj2len best
      else if (bhi <=? j)%nat then (newj2len, best)
      else
        let k := (match j with
                  | O => 0
                  | S j' => j2lenget j2len j'
                  end + 1)%nat in
        let '(_, _, bestsize) := best in
        scan_js js' blo bhi i j2len ((j, k) :: newj2len)
                (if (bestsize <? k)%nat
                 then ((i + 1 - k)%nat, (j + 1 - k)%nat, k)
                 else best)
  end.

(** The loop [for i in range(alo, ahi)]. *)
Fixpoint scan_is (a b : sequence) (range : list nat) (blo bhi : nat)
         (j2len : list (nat * nat)) (best : Match) : Match :=
  match range with
  | [] => best
  | i :: range' =>
      let '(newj2len, best') :=
        scan_js (b2j b (item a i)) blo bhi i j2len [] best in
      scan_is a b range' blo bhi newj2len best'
  end.

(** [while besti > alo and bestj > blo and a[besti-1] == b[bestj-1]]. *)
Fixpoint extend_left (a b : sequence) (alo blo besti bestj bestsize : nat)
  : Match :=
  match besti, bestj with
  | S i', S j' =>
      if (alo <? besti)%nat && (blo <? bestj)%nat
         && Ascii.eqb (item a i') (item b j')
      then extend_left a b alo blo i' j' (S bestsize)
      else (besti, bestj, bestsize)
  | _, _ => (besti, bestj, bestsize)
  end.

(** [while besti+bestsize < ahi and bestj+bestsize < bhi and
    a[besti+bestsize] == b[bestj+bestsize]]; [room] is
    [ahi - (besti + bestsize)]. *)
Fixpoint extend_right (a b : sequence) (room bhi besti bestj bestsize : nat)
  : Match :=
  match room with
  | O => (besti, bestj, bestsize)
  | S room' =>
      if (bestj + bestsize <? bhi)%nat
         && Ascii.eqb (item a (besti + bestsize)) (item b (bestj + bestsize))
      then extend_right a b room' bhi besti bestj (S bestsize)
      else (besti, bestj, bestsize)
  end.

(** [find_longest_match(alo, ahi, blo, bhi)].  The two loops that add
    junk on both sides never run, [bjunk] being empty. *)
Definition find_longest_match (a b : sequence) (alo ahi blo bhi : nat) : Match :=
  let '(besti, bestj, bestsize) :=
    scan_is a b (seq alo (ahi - alo)) blo bhi [] (alo, blo, 0%nat) in
  let '(besti, bestj, bestsize) :=
    extend_left a b alo blo besti bestj bestsize in
  extend_right a b (ahi - (besti + bestsize)) bhi besti bestj bestsize.

Definition region : Type := (nat * nat * nat * nat)%type.

(** The [while queue:] loop of [get_matching_blocks]; the head of the
    list is the end of the Python list, where [pop] and [append] work.
    [None] when the fuel runs out before the queue is empty. *)
Fixpoint matching_loop (fuel : nat) (a b : sequence) (queue : list region)
         (matching_blocks : list Match) : option (list Match) :=
  match queue with
  | [] => Some matching_blocks
  | (alo, ahi, blo, bhi) :: queue' =>
      match fuel with
      | O => None
      | S fuel' =>
          let '(i, j, k) := find_longest_match a b alo ahi blo bhi in
          if (k =? 0)%nat then matching_loop fuel' a b queue' matching_blocks
          else
            let queue1 :=
              if (alo <? i)%nat && (blo <? j)%nat
              then (alo, i, blo, j) :: queue' else queue' in
            let queue2 :=
              if (i + k <? ahi)%nat && (j + k <? bhi)%nat
              then ((i + k)%nat, ahi, (j + k)%nat, bhi) :: queue1 else queue1 in
            matching_loop fuel' a b queue2 (matching_blocks ++ [(i, j, k)])
      end
  end.

(** The blocks found by [get_matching_blocks], before they are sorted
    and adjacent ones merged (neither changes the sum of their sizes).
    Every turn of the loop that finds a match uses up an element of
    [a], so [2 * len(a) + 1] turns are enough. *)
Definition get_matching_blocks (a b : sequence) : option (list Match) :=
  matching_loop (2 * List.length a + 1) a b
                [(0%nat, List.length a, 0%nat, List.length b)] [].

(** [_calculate_ratio(matches, length)]. *)
Definition _calculate_ratio (matches length : nat) : Q :=
  if (length =? 0)%nat then 1%Q
  else (2 * inject_Z (Z.of_nat matches) / inject_Z (Z.of_nat length))%Q.

Definition sum_sizes (blocks : list Match) : nat :=
  fold_right (fun '(_, _, k) total => (k + total)%nat) 0%nat blocks.

(** [SequenceMatcher(None, a, b).ratio()].  The double [2.0 * matches /
    length] is the correctly rounded quotient; for sequences shorter
    than [2^26] elements two such doubles, or one and the cutoff,
    compare as the exact quotients do. *)
Definition ratio (a b : sequence) : Q :=
  let matches :=
    match get_matching_blocks a b with
    | Some blocks => sum_sizes blocks
    | None => 0%nat
    end in
  _calculate_ratio matches (List.length a + List.length b).

(** [avail.get(elt)], with [fullbcount.get(elt, 0)] when absent. *)
Fixpoint availget (avail : list (ascii * Z)) (elt : ascii) : option Z :=
  match avail with
  | [] => None
  | (e, n) :: rest => if Ascii.eqb e elt then Some n else availget rest elt
  end.

Definition fullbcount (b : sequence) (elt : ascii) : Z :=
  Py.len (filter (Ascii.eqb elt) b).

Fixpoint quick_matches (a b : sequence) (avail : list (ascii * Z))
         (matches : nat) : nat :=
  match a with
  | [] => matches
  | elt :: a' =>
      let numb := match availget avail elt with
                  | Some n => n
                  | None => fullbcount b elt
                  end in
      quick_matches a' b ((elt, numb - 1) :: avail)
                    (if 0 <? numb then S matches else matches)
  end.

(** [quick_ratio()] and [real_quick_ratio()], the two upper bounds
    tried before [ratio()]. *)
Definition quick_ratio (a b : sequence) : Q :=
  _calculate_ratio (quick_matches a b [] 0%nat) (List.length a + List.length b).

Definition real_quick_ratio (a b : sequence) : Q :=
  let la := List.length a in
  let lb := List.length b in
  _calculate_ratio (Nat.min la lb) (la + lb).

(** The similarity of a candidate [x] to [word]: [x] is the first
    sequence, [word] the second. *)
Definition similarity (word x : string) : Q :=
  ratio (list_ascii_of_string x) (list_ascii_of_string word).

Definition close_enough (cutoff : Q) (word x : string) : bool :=
  let a := list_ascii_of_string x in
  let b := list_ascii_of_string word in
  Qle_bool cutoff (real_quick_ratio a b)
  && Qle_bool cutoff (quick_ratio a b)
  && Qle_bool cutoff (ratio a b).

(** Tuples [(score, x)] in the order [nlargest] lists them. *)
Definition scored_geb (p q : Q * string) : bool :=
  if Qeq_bool (fst p) (fst q) then String.leb (snd q) (snd p)
  else Qle_bool (fst q) (fst p).

(** [heapq.nlargest(n, result)]: the [n] first of the tuples in
    descending order. *)
Definition nlargest (n : Z) (result : list (Q * string)) : list (Q * string) :=
  firstn (Z.to_nat n) (Sql.order_by scored_geb result).

(** [get_close_matches(word, possibilities, n, cutoff)]. *)
Definition get_close_matches (word : string) (possibilities : list string)
           (n : Z) (cutoff : Q) : result (list string) :=
  if negb (0 <? n) then Raise ValueError
  else if negb (Qle_bool 0 cutoff && Qle_bool cutoff 1) then Raise ValueError
  else
    let result :=
      map (fun x => (similarity word x, x))
          (filter (close_enough cutoff word) possibilities) in
    Ok (map snd (nlargest n result)).

End difflib.

(** ** [ComicData] and its methods *)

Module ComicData.

Record t : Type := mk {
  id : Z;
  name : string;
  thumbnail : string;
  numberOfPages : Z;
  artist : string;
  category : string;
  tag : string;
  created : timestamp;
  updated : timestamp;
  state : string;
  userRating : rating;
  keywords : list string;
  pages : list string
}.

(** [save_to_db].  The insert into [comics] comes first and is the only
    statement that can fail; nothing has been written at that point, so
    a [Raise] leaves the database as it was.  The timestamps are stored
    as the texts given; the columns [created] and [updated], declared
    [TIMESTAMP], do so for the texts that are [kept_as_text] (below),
    and the statements about what is read back assume it. *)
Definition save_to_db (self : t) (db : Database) : result Database :=
  (comics' <- Sql.insert_comic
                (Comics.mk (id self) (name self) (thumbnail self)
                           (category self) (tag self) (artist self)
                           (state self) (created self) (updated self)
                           (userRating self))
                (comics_table db) ;;
   let pages' :=
     pages_table db ++ map (fun '(i, page_url) => Pages.mk (name self) i page_url)
                     (Py.enumerate1 (pages self)) in
   let keywords' :=
     keywords_table db
       ++ map (fun keyword => Keywords.mk (id self) keyword) (keywords self) in
   Ok {| comics_table := comics'; pages_table := pages';
         keywords_table := keywords' |})%py.

(** [from_basic_and_detailed]: [detailed.rating] is the first use of
    the detailed record, and raises when the record is [None]. *)
Definition from_basic_and_detailed (basic : BasicComicData.t)
           (detailed : option DetailedComicData.t) : result t :=
  match detailed with
  | None => Raise AttributeError
  | Some detailed =>
      Ok {| id := BasicComicData.id basic;
            name := BasicComicData.name basic;
            thumbnail := get_comic_thumbnail_by_name (BasicComicData.name basic);
            numberOfPages := BasicComicData.numberOfPages basic;
            artist := BasicComicData.artist basic;
            category := BasicComicData.category basic;
            tag := BasicComicData.tag basic;
            created := BasicComicData.created basic;
            updated := BasicComicData.updated basic;
            state := BasicComicData.state basic;
            userRating := DetailedComicData.rating detailed;
            keywords := DetailedComicData.keywords detailed;
            pages := get_comic_pages_by_name_and_pages
                       (BasicComicData.name basic)
                       (BasicComicData.numberOfPages basic) |}
  end.

(** The record [load_from_db] builds from a row of [comics]: the pages
    are those filed under the value it was asked for. *)
Definition hydrate (db : Database) (comic_name : sqlvalue)
           (comic_data : Comics.row) : t :=
  let pages := Sql.page_urls_by_name db comic_name in
  let keywords := Sql.keywords_by_id db (Comics.id comic_data) in
  {| id := Comics.id comic_data;
     name := Comics.name comic_data;
     thumbnail := Comics.thumbnail comic_data;
     category := Comics.category comic_data;
     numberOfPages := Py.len pages;
     tag := Comics.tag comic_data;
     artist := Comics.artist comic_data;
     state := Comics.state comic_data;
     created := Comics.created comic_data;
     updated := Comics.updated comic_data;
     userRating := Comics.userRating comic_data;
     keywords := keywords;
     pages := pages |}.

(** [load_from_db(comic_name)].  [fetchone()] gives [None] when no row
    matches, and [comic_data[0]] then raises. *)
Definition load_from_db (db : Database) (comic_name : sqlvalue) : result t :=
  match Sql.comic_by_name db comic_name with
  | None => Raise TypeError
  | Some comic_data => Ok (hydrate db comic_name comic_data)
  end.

(** [search_by_keywords(keywords, limit)]. *)
Definition search_by_keywords (db : Database) (keywords : list string)
           (limit : Z) : result (list t) :=
  let matching_comic_ids := Py.slice_to (Sql.ids_by_keywords db keywords) limit in
  for_each (fun comic_id => load_from_db db (SqlInt comic_id)) matching_comic_ids.

(** [search_comics_by_name(query, limit)]. *)
Definition search_comics_by_name (db : Database) (query : string) (limit : Z)
  : result (list t) :=
  let all_comics := map Comics.name (comics_table db) in
  (closest_matches <-
     difflib.get_close_matches (Py.title query) all_comics limit (3 # 10) ;;
   match closest_matches with
   | [] => Ok []
   | _ => for_each (fun comic_name => load_from_db db (SqlText comic_name))
                   closest_matches
   end)%py.

(** [next((comic[0] for comic in all_comics if comic[1] == value), None)]. *)
Definition first_id (all_comics : list (Z * string)) (value : string) : option Z :=
  option_map fst (find (fun comic => String.eqb (snd comic) value) all_comics).

(** The ids the loop over [closest_matches] hands to [load_from_db]:
    [if comic_id:] drops [None] and [0]. *)
Definition resolved_ids (all_comics : list (Z * string))
           (closest_matches : list string) : list Z :=
  flat_map (fun value =>
              match first_id all_comics value with
              | Some comic_id => if comic_id =? 0 then [] else [comic_id]
              | None => []
              end)
           closest_matches.

(** The common body of the searches by artist, category and tag, over
    the column each one selects; the cutoff is [difflib]'s default. *)
Definition search_comics_by_column (column : Comics.row -> string)
           (db : Database) (query : string) (limit : Z) : result (list t) :=
  let all_comics := map (fun r => (Comics.id r, column r)) (comics_table db) in
  (closest_matches <-
     difflib.get_close_matches query (map snd all_comics) limit (6 # 10) ;;
   for_each (fun comic_id => load_from_db db (SqlInt comic_id))
            (resolved_ids all_comics closest_matches))%py.

Definition search_comics_by_artist := search_comics_by_column Comics.artist.
Definition search_comics_by_category := search_comics_by_column Comics.category.
Definition search_comics_by_tag := search_comics_by_column Comics.tag.

(** [search_comics_by_page(page, limit)].  The limit and the offset are
    bound to the statement as integers, which [sqlite3] takes within 64
    bits ([sqlite_integer], below); the statements about this search
    at any page and limit assume it. *)
Definition search_comics_by_page (db : Database) (page limit : Z)
  : result (list t) :=
  let offset := (page - 1) * limit in
  let comic_names := Sql.names_by_rating db limit offset in
  for_each (fun name => load_from_db db (SqlText name)) comic_names.

(** [get_max_page_number()]: [round((number_of_comics - 1) / 10)]. *)
Definition get_max_page_number (db : Database) : Z :=
  let number_of_comics := Py.len (comics_table db) in
  Py.round_div10 (number_of_comics - 1).

End ComicData.

(** ** The Synchronizer *)

(** An entry of [comics_new_pages]: the name, the number of pages on
    file before, and the number reported. *)
Definition new_pages_entry : Type := (string * Z * Z)%type.

(** One turn of the loop of [update_db] over [basic_comic_data]. *)
Definition update_comic (remote : Remote) (basic_comic_data : BasicComicData.t)
           (db : Database) (comics_new_pages : list new_pages_entry)
  : result (Database * list new_pages_entry) :=
  let name := BasicComicData.name basic_comic_data in
  let existing_pages := Sql.pages_by_name db (SqlText name) in
  if Py.len existing_pages <? BasicComicData.numberOfPages basic_comic_data then
    let detailed_comic_data := get_comic_data_by_name remote name in
    (comic_data <- ComicData.from_basic_and_detailed
                     basic_comic_data detailed_comic_data ;;
     db' <- ComicData.save_to_db comic_data db ;;
     Ok (db', comics_new_pages
                ++ [(name, Py.len existing_pages,
                     ComicData.numberOfPages comic_data)]))%py
  else Ok (db, comics_new_pages).

(** The loop of [update_db].  An exception ends the cycle; what earlier
    turns saved stays in the database, which is returned either way. *)
Fixpoint update_loop (remote : Remote) (comics : list BasicComicData.t)
         (db : Database) (comics_new_pages : list new_pages_entry)
  : Database * result (list new_pages_entry) :=
  match comics with
  | [] => (db, Ok comics_new_pages)
  | basic_comic_data :: rest =>
      match update_comic remote basic_comic_data db comics_new_pages with
      | Raise e => (db, Raise e)
      | Ok (db', comics_new_pages') => update_loop remote rest db' comics_new_pages'
      end
  end.

(** [update_db()]: iterating over a failed listing ([None]) raises. *)
Definition update_db (remote : Remote) (db : Database)
  : Database * result (list new_pages_entry) :=
  match get_all_comics remote with
  | None => (db, Raise TypeError)
  | Some comics => update_loop remote comics db []
  end.

(** The database after a sequence of synchronization cycles, one remote
    snapshot per cycle, whether or not a cycle ended in an exception. *)
Definition run_cycles (remotes : list Remote) (db : Database) : Database :=
  fold_left (fun db remote => fst (update_db remote db)) remotes db.

(** ** Sample data *)

Module Sample.

Definition basic (id : Z) (name artist : string) (numberOfPages : Z)
  : BasicComicData.t :=
  BasicComicData.mk id name "Furry" "M/F" artist "2023-02-01" "wip"
                    "2023-01-01" numberOfPages.

Definition detailed (name : string) : DetailedComicData.t :=
  DetailedComicData.mk name 0 "" 0 "Furry" "M/F" "2023-01-01" "2023-02-01"
                       (Some (9 # 2)%Q) ["feral"].

(** A remote whose detail endpoint answers for every name. *)
Definition remote (listing : list BasicComicData.t) : Remote :=
  {| get_all_comics := Some listing;
     get_comic_data_by_name := fun name => Some (detailed name) |}.

(** A remote whose detail endpoint fails for one name. *)
Definition remote_without (missing : string) (listing : list BasicComicData.t)
  : Remote :=
  {| get_all_comics := Some listing;
     get_comic_data_by_name :=
       fun name => if String.eqb name missing then None
                   else Some (detailed name) |}.

(** The store after one cycle that found "Fox Tales" with two pages. *)
Definition fox_tales : Database :=
  fst (update_db (remote [basic 1 "Fox Tales" "Bob" 2]) create_database).

(** [n] comics of one page each: "Comic 1", "Comic 2", ... *)
Definition listing (n : nat) : list BasicComicData.t :=
  map (fun i => basic (Z.of_nat i) ("Comic " ++ Py.str (Z.of_nat i))%string "Bob" 1)
      (seq 1 n).

Definition store (n : nat) : Database :=
  fst (update_db (remote (listing n)) create_database).



(** A store with the single comic "Abc0000000". *)
Definition abc : Database :=
  fst (update_db (remote [basic 1 "Abc0000000" "Bob" 1]) create_database).

(** Two comics by Bob; the second one is named "1". *)
Definition bob_twice : Database :=
  fst (update_db (remote [basic 1 "Fox Tales" "Bob" 1; basic 2 "1" "Bob" 1])
                 create_database).

End Sample.

(** ** The string methods and sequence built-ins of [bot.py] *)

Module Str.

(** [s.split(sep)] for a separator of one character: the pieces between
    the occurrences of [sep], empty ones included. *)
Fixpoint split (sep : ascii) (s : string) : list string :=
  match s with
  | EmptyString => [EmptyString]
  | String c s' =>
      if Ascii.eqb c sep then EmptyString :: split sep s'
      else match split sep s' with
           | word :: words => String c word :: words
           | [] => [String c EmptyString]
           end
  end.

(** [sep.join(words)]. *)
Definition join (sep : string) (words : list string) : string :=
  String.concat sep words.

(** Iterating over a string yields its characters, each a string. *)
Definition chars (s : string) : list string :=
  map (fun c => String c EmptyString) (list_ascii_of_string s).

(** [s.startswith(prefix)]. *)
Definition startswith (s prefix : string) : bool := String.prefix prefix s.

Definition is_digit (c : ascii) : bool :=
  let n := nat_of_ascii c in (48 <=? n)%nat && (n <=? 57)%nat.

(** [s.isdigit()]: not empty, and digits only. *)
Definition isdigit (s : string) : bool :=
  negb (String.eqb s EmptyString) && forallb is_digit (list_ascii_of_string s).

(** [int(s)] for a string that passed [isdigit]. *)
Definition int_of_digits (s : string) : Z :=
  fold_left (fun n c => 10 * n + (Z.of_nat (nat_of_ascii c) - 48))
            (list_ascii_of_string s) 0.

(** [range(0, stop, step)] for a positive step. *)
Definition range_step (stop step : nat) : list nat :=
  map (fun k => (k * step)%nat) (seq 0 ((stop + step - 1) / step)).

(** [xs[i:j]] for indices that are not negative. *)
Definition slice {A} (xs : list A) (i j : nat) : list A :=
  firstn (j - i) (skipn i xs).

End Str.

(** ** [bot.py]: the handlers *)

(** A handler is the list of the calls it makes on the bot, in order;
    what Telegram answers to a call is not part of the model.  The name
    [yiffer] that [bot.py] imports is taken to be the module
    [yiffer/yiffer.py], embedded above, and the database the one the
    handler finds when it runs. *)
Module Bot.

Definition newline : string := String (ascii_of_nat 10) EmptyString.

Record InputMediaPhoto : Type := {
  media : string;
  caption : option string
}.

Record InlineKeyboardButton : Type := {
  text : string;
  callback_data : string
}.

Inductive call : Type :=
| send_message (chat_id : Z) (text : string)
               (reply_markup : option (list InlineKeyboardButton))
| send_media_group (chat_id : Z) (media : list InputMediaPhoto).

(** The caption both senders build for a comic; [', '.join(comic.tag)]
    runs over the characters of the tag. *)
Definition describe (comic : ComicData.t) : string :=
  (ComicData.name comic ++ " - " ++ ComicData.artist comic ++ newline
   ++ "Pages: " ++ Py.str (ComicData.numberOfPages comic) ++ newline
   ++ "State: " ++ ComicData.state comic ++ newline
   ++ "Tag: " ++ Str.join ", " (Str.chars (ComicData.tag comic)))%string.

(** The button of a comic. *)
Definition button (comic : ComicData.t) : InlineKeyboardButton :=
  {| text := ComicData.name comic;
     callback_data := ("comic:" ++ ComicData.name comic)%string |}.

(** [send_comic_query_to_chat(chat_id, comics)]. *)
Definition send_comic_query_to_chat (chat_id : Z) (comics : list ComicData.t)
  : list call :=
  let media :=
    map (fun comic => {| media := ComicData.thumbnail comic;
                         caption := Some (describe comic) |}) comics in
  let keyboard := map button comics in
  [send_media_group chat_id media;
   send_message chat_id "Select a comic to view:" (Some keyboard)].

(** [[image_urls[i:i + page_size] for i in range(0, len(image_urls),
    page_size)]] with [page_size = 10]. *)
Definition media_groups (image_urls : list string) : list (list string) :=
  let page_size := 10%nat in
  map (fun i => Str.slice image_urls i (i + page_size))
      (Str.range_step (List.length image_urls) page_size).

(** [send_comic_to_chat(chat_id, comic_name)].  [load_from_db] returns a
    record or raises, so the test [comic is None] is never true. *)
Definition send_comic_to_chat (db : Database) (chat_id : Z) (comic_name : string)
  : result (list call) :=
  (comic <- ComicData.load_from_db db (SqlText comic_name) ;;
   let image_urls := ComicData.pages comic in
   Ok (send_message chat_id ("Loading comic: " ++ describe comic)%string None
       :: flat_map (fun media_group =>
                      let media := map (fun url => {| media := url; caption := None |})
                                       media_group in
                      match media with
                      | [] => []
                      | _ => [send_media_group chat_id media]
                      end)
                   (media_groups image_urls)))%py.

(** [callback_query(call)], run for the calls whose data start with
    ["comic:"]; the name is [call.data.split(":")[1]]. *)
Definition callback_name (data : string) : string :=
  nth 1 (Str.split ":"%char data) EmptyString.

Definition callback_query (db : Database) (chat_id : Z) (data : string)
  : result (list call) :=
  if Str.startswith data "comic:" then
    let comic_name := callback_name data in
    (comic <- ComicData.load_from_db db (SqlText comic_name) ;;
     send_comic_to_chat db chat_id comic_name)%py
  else Ok [].

(** [message.text.split(" ")[1:]]. *)
Definition arguments (message_text : string) : list string :=
  tl (Str.split " "%char message_text).

(** [cmd_comics(message)]. *)
Definition cmd_comics (db : Database) (chat_id : Z) (message_text : string)
  : result (list call) :=
  match arguments message_text with
  | [] =>
      Ok [send_message chat_id
            ("Please specify a page number. Pages: 1-"
               ++ Py.str (ComicData.get_max_page_number db) ++ ".")%string None]
  | page_number :: _ =>
      if negb (Str.isdigit page_number) then
        Ok [send_message chat_id "Please specify a valid page number." None]
      else
        (comics <- ComicData.search_comics_by_page
                     db (Str.int_of_digits page_number) 10 ;;
         match comics with
         | [] => Ok [send_message chat_id "No comics found." None]
         | _ =>
             Ok (send_message chat_id
                   ("Page " ++ page_number ++ " of "
                      ++ Py.str (ComicData.get_max_page_number db) ++ ":")%string
                   None
                 :: send_comic_query_to_chat chat_id comics)
         end)%py
  end.

(** [cmd_search(message)]. *)
Definition cmd_search (db : Database) (chat_id : Z) (message_text : string)
  : result (list call) :=
  match arguments message_text with
  | [] => Ok [send_message chat_id "Please specify a comic name." None]
  | args =>
      let query := Str.join " " args in
      (comics <- ComicData.search_comics_by_name db query 10 ;;
       match comics with
       | [] => Ok [send_message chat_id "No comics found." None]
       | _ =>
           Ok (send_message chat_id
                 ("Search results for '" ++ query ++ "':")%string None
               :: send_comic_query_to_chat chat_id comics)
       end)%py
  end.

(** [cmd_keywords(message)]: [ComicData] has no [get_keywords_by_count]. *)
Definition cmd_keywords (db : Database) (chat_id : Z) (message_text : string)
  : result (list call) :=
  Raise AttributeError.

End Bot.
(** ** The JSON of the remote service *)

(** The functions that read the service, over the responses they get.
    A response is its status code and the value [json.loads] gives for
    its text; the dataclasses keep the values as they come, whatever
    their type.  An object is the list of its items, and no two items of
    a parsed object have the same key. *)
Module Api.

#[warnings="-register-all"]
Inductive json : Type :=
| JNull
| JBool (b : bool)
| JInt (n : Z)
| JFloat (x : Q)
| JStr (s : string)
| JList (items : list json)
| JDict (entries : list (string * json)).

Inductive error : Type :=
| KeyError (key : string)   (* [data[key]] on an object without the key *)
| TypeError                 (* subscripting or iterating what cannot be, a bad keyword *)
| AttributeError.           (* attribute access on [None], [replace] on a non-string *)

Inductive outcome (A : Type) : Type :=
| Return (a : A)
| Throw (e : error).
Arguments Return {A} a.
Arguments Throw {A} e.

Definition and_then {A B} (m : outcome A) (k : A -> outcome B) : outcome B :=
  match m with
  | Return a => k a
  | Throw e => Throw e
  end.

Declare Scope api_scope.
Delimit Scope api_scope with api.
Notation "x <- m ;; k" := (and_then m (fun x => k))
  (at level 100, m at next level, right associativity) : api_scope.

(** A loop or comprehension whose body may raise. *)
Fixpoint each {A B} (f : A -> outcome B) (xs : list A) : outcome (list B) :=
  match xs with
  | [] => Return []
  | x :: xs' => (y <- f x ;; ys <- each f xs' ;; Return (y :: ys))%api
  end.

(** [data[key]] for a string [key]. *)
Definition getitem (data : json) (key : string) : outcome json :=
  match data with
  | JDict entries =>
      match find (fun entry => String.eqb (fst entry) key) entries with
      | Some entry => Return (snd entry)
      | None => Throw (KeyError key)
      end
  | _ => Throw TypeError
  end.

(** [for data in value]: a list gives its items, an object its keys, a
    string its characters. *)
Definition iterate (value : json) : outcome (list json) :=
  match value with
  | JList items => Return items
  | JDict entries => Return (map (fun entry => JStr (fst entry)) entries)
  | JStr s => Return (map (fun c => JStr (String c EmptyString)) (list_ascii_of_string s))
  | _ => Throw TypeError
  end.

(** A [requests.Response]: [body] is [json.loads(response.text)]. *)
Record Response : Type := {
  status_code : Z;
  body : json
}.

Module BasicComicData.
Record t : Type := mk {
  id : json;
  name : json;
  category : json;
  tag : json;
  artist : json;
  updated : json;
  state : json;
  created : json;
  numberOfPages : json
}.
End BasicComicData.

Module DetailedComicData.
Record t : Type := mk {
  name : json;
  numberOfPages : json;
  artist : json;
  id : json;
  category : json;
  tag : json;
  created : json;
  updated : json;
  rating : json;
  keywords : json
}.
End DetailedComicData.

Module ComicData.
Record t : Type := mk {
  id : json;
  name : json;
  thumbnail : string;
  numberOfPages : json;
  artist : json;
  category : json;
  tag : json;
  created : json;
  updated : json;
  state : json;
  userRating : json;
  keywords : json;
  pages : list string
}.
End ComicData.

(** The body of the loop of [get_all_comics]: the nine lookups, in the
    order of the dict display; the nine values make the record. *)
Definition basic_of_item (data : json) : outcome BasicComicData.t :=
  (id <- getitem data "id" ;;
   name <- getitem data "name" ;;
   category <- getitem data "cat" ;;
   tag <- getitem data "tag" ;;
   artist <- getitem data "artist" ;;
   updated <- getitem data "updated" ;;
   state <- getitem data "state" ;;
   created <- getitem data "created" ;;
   numberOfPages <- getitem data "numberOfPages" ;;
   Return (BasicComicData.mk id name category tag artist updated state created
                             numberOfPages))%api.

(** [get_all_comics()], given the response to the request. *)
Definition get_all_comics (response : Response)
  : outcome (option (list BasicComicData.t)) :=
  if status_code response =? 200 then
    (all_comic_data <- iterate (body response) ;;
     comics <- each basic_of_item all_comic_data ;;
     Return (Some comics))%api
  else Return None.

(** [get_comic_data_by_name(name)], given the response to the request. *)
Definition get_comic_data_by_name (response : Response)
  : outcome (option DetailedComicData.t) :=
  if status_code response =? 200 then
    let data := body response in
    (name <- getitem data "name" ;;
     numberOfPages <- getitem data "numberOfPages" ;;
     artist <- getitem data "artist" ;;
     id <- getitem data "id" ;;
     category <- getitem data "cat" ;;
     tag <- getitem data "tag" ;;
     created <- getitem data "created" ;;
     updated <- getitem data "updated" ;;
     rating <- getitem data "userRating" ;;
     keywords <- getitem data "keywords" ;;
     Return (Some (DetailedComicData.mk name numberOfPages artist id category tag
                                        created updated rating keywords)))%api
  else Return None.

(** The fields of [BasicComicData], none of which has a default. *)
Definition basic_fields : list string :=
  ["id"; "name"; "category"; "tag"; "artist"; "updated"; "state"; "created";
   "numberOfPages"].

Definition value_of (entries : list (string * json)) (key : string) : json :=
  match find (fun entry => String.eqb (fst entry) key) entries with
  | Some entry => snd entry
  | None => JNull
  end.

(** [BasicComicData] called with the items of [comic] as its keyword
    arguments: [comic] has to be an object; a key that is no field is an
    unexpected keyword, a field that is no key a missing argument. *)
Definition basic_of_keywords (comic : json) : outcome BasicComicData.t :=
  match comic with
  | JDict entries =>
      if forallb (fun entry => existsb (String.eqb (fst entry)) basic_fields) entries
         && forallb (fun field =>
                       existsb (fun entry => String.eqb (fst entry) field) entries)
                    basic_fields
      then Return (BasicComicData.mk
                     (value_of entries "id") (value_of entries "name")
                     (value_of entries "category") (value_of entries "tag")
                     (value_of entries "artist") (value_of entries "updated")
                     (value_of entries "state") (value_of entries "created")
                     (value_of entries "numberOfPages"))
      else Throw TypeError
  | _ => Throw TypeError
  end.

(** [ComicData.from_basic_and_detailed(basic, detailed)] over values of
    any type: the thumbnail needs a name with [replace], [detailed.rating]
    a record, and [range(1, pages + 1)] an integer (or a boolean). *)
Definition from_basic_and_detailed (basic : BasicComicData.t)
           (detailed : option DetailedComicData.t) : outcome ComicData.t :=
  match BasicComicData.name basic with
  | JStr name =>
      let thumbnail := get_comic_thumbnail_by_name name in
      match detailed with
      | None => Throw AttributeError
      | Some detailed =>
          let build pages :=
            ComicData.mk (BasicComicData.id basic) (BasicComicData.name basic)
                         thumbnail (BasicComicData.numberOfPages basic)
                         (BasicComicData.artist basic) (BasicComicData.category basic)
                         (BasicComicData.tag basic) (BasicComicData.created basic)
                         (BasicComicData.updated basic) (BasicComicData.state basic)
                         (DetailedComicData.rating detailed)
                         (DetailedComicData.keywords detailed)
                         (get_comic_pages_by_name_and_pages name pages) in
          match BasicComicData.numberOfPages basic with
          | JInt n => Return (build n)
          | JBool b => Return (build (if b then 1 else 0))
          | _ => Throw TypeError
          end
      end
  | _ => Throw AttributeError
  end.

(** [get_all_comics_full()], given the response to the request for the
    listing and the response to the request for each name. *)
Definition get_all_comics_full (response : Response) (detail : json -> Response)
  : outcome (option (list ComicData.t)) :=
  if status_code response =? 200 then
    (all_comic_data <- iterate (body response) ;;
     comics <- each (fun comic =>
                       basic <- basic_of_keywords comic ;;
                       name <- getitem comic "name" ;;
                       detailed <- get_comic_data_by_name (detail name) ;;
                       from_basic_and_detailed basic detailed)
                    all_comic_data ;;
     Return (Some comics))%api
  else Return None.

End Api.

(** ** More sample data *)

Module Fixture.

(** A record that is not in [Sample.fox_tales]. *)
Definition wolf_tales : ComicData.t :=
  {| ComicData.id := 2;
     ComicData.name := "Wolf Tales";
     ComicData.thumbnail := get_comic_thumbnail_by_name "Wolf Tales";
     ComicData.numberOfPages := 7;
     ComicData.artist := "Ann";
     ComicData.category := "Furry";
     ComicData.tag := "F/F";
     ComicData.created := "2023-03-01";
     ComicData.updated := "2023-03-02";
     ComicData.state := "finished";
     ComicData.userRating := None;
     ComicData.keywords := ["wolf"; "feral"];
     ComicData.pages := get_comic_pages_by_name_and_pages "Wolf Tales" 3 |}.

(** [Sample.fox_tales] after [wolf_tales.save_to_db()]. *)
Definition with_wolf_tales : Database :=
  match ComicData.save_to_db wolf_tales Sample.fox_tales with
  | Ok db => db
  | Raise _ => Sample.fox_tales
  end.

(** The record of "Fox Tales" in [Sample.fox_tales]. *)
Definition fox_tales_record : ComicData.t :=
  ComicData.hydrate Sample.fox_tales (SqlText "Fox Tales")
    (Comics.mk 1 "Fox Tales"
       "https://static.yiffer.xyz/comics/Fox%20Tales/thumbnail.webp"
       "Furry" "M/F" "Bob" "wip" "2023-01-01" "2023-02-01" (Some (9 # 2)%Q)).

(** The record of "Comic 3" in [Sample.store 25]. *)
Definition comic_3 : ComicData.t :=
  match ComicData.load_from_db (Sample.store 25) (SqlText "Comic 3") with
  | Ok comic => comic
  | Raise _ => wolf_tales
  end.

(** A listing as [get_all_comics] reads it, with the key [cat]. *)
Definition listing_with_cat : Api.Response :=
  {| Api.status_code := 200;
     Api.body :=
       Api.JList
         [Api.JDict [("id", Api.JInt 1); ("name", Api.JStr "Fox Tales");
                     ("cat", Api.JStr "Furry"); ("tag", Api.JStr "M/F");
                     ("artist", Api.JStr "Bob"); ("updated", Api.JStr "2023-02-01");
                     ("state", Api.JStr "wip"); ("created", Api.JStr "2023-01-01");
                     ("numberOfPages", Api.JInt 2)]] |}.

(** The same listing with the key [category], as the fields of
    [BasicComicData] are named. *)
Definition listing_with_category : Api.Response :=
  {| Api.status_code := 200;
     Api.body :=
       Api.JList
         [Api.JDict [("id", Api.JInt 1); ("name", Api.JStr "Fox Tales");
                     ("category", Api.JStr "Furry"); ("tag", Api.JStr "M/F");
                     ("artist", Api.JStr "Bob"); ("updated", Api.JStr "2023-02-01");
                     ("state", Api.JStr "wip"); ("created", Api.JStr "2023-01-01");
                     ("numberOfPages", Api.JInt 2)]] |}.

(** The details of a comic, whatever the name. *)
Definition detail (name : Api.json) : Api.Response :=
  {| Api.status_code := 200;
     Api.body :=
       Api.JDict [("name", name); ("numberOfPages", Api.JInt 2);
                  ("artist", Api.JStr "Bob"); ("id", Api.JInt 1);
                  ("cat", Api.JStr "Furry"); ("tag", Api.JStr "M/F");
                  ("created", Api.JStr "2023-01-01");
                  ("updated", Api.JStr "2023-02-01");
                  ("userRating", Api.JFloat (9 # 2)%Q);
                  ("keywords", Api.JList [Api.JStr "feral"])] |}.

End Fixture.

(** ** The vocabulary of the properties *)

(** *** The store *)

(** The number of page rows filed under a name. *)
Definition page_count (db : Database) (name : string) : Z :=
  Py.len (Sql.pages_by_name db (SqlText name)).

(** The page numbers filed under a name, in the order of the table. *)
Definition page_numbers (db : Database) (name : string) : list Z :=
  map Pages.page_number (Sql.pages_by_name db (SqlText name)).

(** The page rows [save_to_db] writes for a comic. *)
Definition new_page_rows (self : ComicData.t) : list Pages.row :=
  map (fun '(i, page_url) => Pages.mk (ComicData.name self) i page_url)
      (Py.enumerate1 (ComicData.pages self)).

(** The numbers of rows in the three tables. *)
Definition row_counts (db : Database) : Z * Z * Z :=
  (Py.len (comics_table db), Py.len (pages_table db), Py.len (keywords_table db)).

(** The record of a row: the row with the pages filed under its name
    and the keywords filed under its id. *)
Definition record_of (db : Database) (r : Comics.row) : ComicData.t :=
  ComicData.hydrate db (SqlText (Comics.name r)) r.

(** [row] is the first row of [comics] with its value in [column]. *)
Definition first_row (column : Comics.row -> string) (db : Database)
           (row : Comics.row) : Prop :=
  find (fun r => String.eqb (column r) (column row)) (comics_table db) = Some row.

(** *** Synchronization *)

(** C3, the claim as stated: for every stored comic the page numbers are
    [1..numberOfPages] without gap or duplicate, [numberOfPages] being
    the number of its page rows, as [load_from_db] reports it. *)
Definition contiguous_pages (db : Database) : Prop :=
  forall r, In r (comics_table db) ->
    let numbers := page_numbers db (Comics.name r) in
    NoDup numbers
    /\ (forall k, In k numbers <-> 1 <= k <= Py.len numbers)
    /\ exists comic,
        ComicData.load_from_db db (SqlText (Comics.name r)) = Ok comic
        /\ ComicData.numberOfPages comic = Py.len numbers.

(** Every entry of every listing the cycles see. *)
Definition listed (remotes : list Remote) : list BasicComicData.t :=
  flat_map (fun remote => match get_all_comics remote with
                          | Some comics => comics
                          | None => []
                          end) remotes.

(** A name is always listed under one id. *)
Definition name_keyed (entries : list BasicComicData.t) : Prop :=
  forall b1 b2, In b1 entries -> In b2 entries ->
    BasicComicData.name b1 = BasicComicData.name b2 ->
    BasicComicData.id b1 = BasicComicData.id b2.

(** The invariant of the Synchronizer over the entries [entries]: under
    every name the page numbers are [1..N] in table order, and every
    page row belongs to a listed comic whose id is in [comics]. *)
Definition sync_invariant (entries : list BasicComicData.t) (db : Database) : Prop :=
  (forall name, page_numbers db name = Py.range1 (page_count db name))
  /\ (forall p, In p (pages_table db) ->
        exists b, In b entries
                  /\ BasicComicData.name b = Pages.comic_name p
                  /\ In (BasicComicData.id b) (map Comics.id (comics_table db))).

(** Every row of [comics] has a fresh id and comes from a listed entry. *)
Definition rows_listed (entries : list BasicComicData.t) (db : Database) : Prop :=
  NoDup (map Comics.id (comics_table db))
  /\ (forall r, In r (comics_table db) ->
        exists b, In b entries
                  /\ BasicComicData.name b = Comics.name r
                  /\ BasicComicData.id b = Comics.id r).

(** *** Browsing by page *)

(** C7, the claim as stated: the highest page number is
    [floor((totalComics - 1) / 10)]. *)
Definition max_page_is_floor (db : Database) : Prop :=
  ComicData.get_max_page_number db = (Py.len (comics_table db) - 1) / 10.




(** *** Searching *)

(** The similarity of a stored name to the title-cased query. *)
Definition name_similarity (query name : string) : Q :=
  difflib.similarity (Py.title query) name.

Definition similarity_descending (query : string) : list ComicData.t -> Prop :=
  StronglySorted (fun c1 c2 =>
    (name_similarity query (ComicData.name c2)
     <= name_similarity query (ComicData.name c1))%Q).

(** C9, the claim as stated: the search returns at most [limit] comics,
    each more similar to the title-cased query than the cutoff 0.3, in
    descending order of similarity. *)
Definition name_search_exceeds_cutoff (db : Database) (query : string)
           (limit : Z) : Prop :=
  exists results,
    ComicData.search_comics_by_name db query limit = Ok results
    /\ Py.len results <= limit
    /\ (forall c, In c results ->
          (3 # 10 < name_similarity query (ComicData.name c))%Q)
    /\ similarity_descending query results.

(** C10, the claim as stated, for the search by artist: a comic that is
    returned is the first row of [comics] with its artist. *)
Definition artist_search_first_rows (db : Database) (query : string)
           (limit : Z) : Prop :=
  forall results,
    ComicData.search_comics_by_artist db query limit = Ok results ->
    forall c, In c results ->
      exists row, first_row Comics.artist db row
                  /\ Comics.id row = ComicData.id c.

(** *** The matching blocks of [difflib] *)

(** The elements [s[lo:hi]]. *)
Definition segment (s : difflib.sequence) (lo hi : nat) : difflib.sequence :=
  firstn (hi - lo) (skipn lo s).

(** The block [m] is a common block of [a[alo:ahi]] and [b[blo:bhi]]. *)
Definition block_in (a b : difflib.sequence) (alo ahi blo bhi : nat)
           (m : difflib.Match) : Prop :=
  let '(i, j, k) := m in
  (alo <= i /\ i + k <= ahi /\ blo <= j /\ j + k <= bhi)%nat
  /\ forall t, (t < k)%nat -> difflib.item a (i + t) = difflib.item b (j + t).

(** An entry [(j, k)] of [j2len] when the elements of [a] before
    position [hi] have been scanned: a common block of length [k] ends
    at [a[hi - 1]] and [b[j]]. *)
Definition ends_at (a b : difflib.sequence) (alo blo bhi hi : nat)
           (jk : nat * nat) : Prop :=
  let '(j, k) := jk in
  (1 <= k /\ k <= hi - alo /\ k <= j + 1 - blo /\ j < bhi)%nat
  /\ forall t, (t < k)%nat ->
       difflib.item a (hi - k + t) = difflib.item b (j + 1 - k + t).

(** A region of the queue lies inside the two sequences. *)
Definition inside (a b : difflib.sequence) (r : difflib.region) : Prop :=
  let '(alo, ahi, blo, bhi) := r in
  (alo <= ahi /\ ahi <= List.length a /\ blo <= bhi /\ bhi <= List.length b)%nat.

(** The turns of the loop a queue can still take. *)
Definition turns (queue : list difflib.region) : nat :=
  fold_right (fun '(alo, ahi, _, _) total => (2 * (ahi - alo) + 1 + total)%nat)
             0%nat queue.

(** The 256 characters. *)
Definition alphabet : list ascii := map ascii_of_nat (seq 0 256).

Definition over_alphabet (f : ascii -> nat) : nat := list_sum (map f alphabet).

Definition occurrences (c : ascii) (s : difflib.sequence) : nat :=
  List.length (filter (Ascii.eqb c) s).

(** The number of elements two sequences have in common, as multisets. *)
Definition common (s1 s2 : difflib.sequence) : nat :=
  over_alphabet (fun c => Nat.min (occurrences c s1) (occurrences c s2)).

(** What is left of an element of [b] according to [avail]. *)
Definition remaining (avail : list (ascii * Z)) (b : difflib.sequence)
           (c : ascii) : Z :=
  match difflib.availget avail c with
  | Some n => n
  | None => difflib.fullbcount b c
  end.

(** What the two sequences have in common inside a region, and inside
    the regions of a queue. *)
Definition region_common (a b : difflib.sequence) (r : difflib.region) : nat :=
  let '(alo, ahi, blo, bhi) := r in
  common (segment a alo ahi) (segment b blo bhi).

Definition queue_common (a b : difflib.sequence) (queue : list difflib.region)
  : nat :=
  list_sum (map (region_common a b) queue).

(** The matches [ratio] counts. *)
Definition ratio_matches (a b : difflib.sequence) : nat :=
  match difflib.get_matching_blocks a b with
  | Some blocks => difflib.sum_sizes blocks
  | None => 0%nat
  end.

(** *** URLs *)

(** The character [c] occurs in [s]. *)
Definition occurs (c : ascii) (s : string) : bool :=
  existsb (Ascii.eqb c) (list_ascii_of_string s).

(** The value of a string of decimal digits read after the digits that
    gave [acc]. *)
Definition digits_value (acc : Z) (s : string) : Z :=
  fold_left (fun n c => 10 * n + (Z.of_nat (nat_of_ascii c) - 48))
            (list_ascii_of_string s) acc.

(** The value of a decimal number read after the digits that gave [acc]. *)
Fixpoint uint_value (acc : Z) (d : Decimal.uint) : Z :=
  match d with
  | Decimal.Nil => acc
  | Decimal.D0 d' => uint_value (10 * acc) d'
  | Decimal.D1 d' => uint_value (10 * acc + 1) d'
  | Decimal.D2 d' => uint_value (10 * acc + 2) d'
  | Decimal.D3 d' => uint_value (10 * acc + 3) d'
  | Decimal.D4 d' => uint_value (10 * acc + 4) d'
  | Decimal.D5 d' => uint_value (10 * acc + 5) d'
  | Decimal.D6 d' => uint_value (10 * acc + 6) d'
  | Decimal.D7 d' => uint_value (10 * acc + 7) d'
  | Decimal.D8 d' => uint_value (10 * acc + 8) d'
  | Decimal.D9 d' => uint_value (10 * acc + 9) d'
  end.

(** *** Saving and loading *)

(** The row of [comics] that [save_to_db] writes for a record. *)
Definition comics_row (self : ComicData.t) : Comics.row :=
  Comics.mk (ComicData.id self) (ComicData.name self) (ComicData.thumbnail self)
            (ComicData.category self) (ComicData.tag self) (ComicData.artist self)
            (ComicData.state self) (ComicData.created self) (ComicData.updated self)
            (ComicData.userRating self).

(** A record as the store keeps it: the number of pages is the number
    of its page URLs. *)
Definition as_stored (self : ComicData.t) : ComicData.t :=
  {| ComicData.id := ComicData.id self;
     ComicData.name := ComicData.name self;
     ComicData.thumbnail := ComicData.thumbnail self;
     ComicData.numberOfPages := Py.len (ComicData.pages self);
     ComicData.artist := ComicData.artist self;
     ComicData.category := ComicData.category self;
     ComicData.tag := ComicData.tag self;
     ComicData.created := ComicData.created self;
     ComicData.updated := ComicData.updated self;
     ComicData.state := ComicData.state self;
     ComicData.userRating := ComicData.userRating self;
     ComicData.keywords := ComicData.keywords self;
     ComicData.pages := ComicData.pages self |}.

(** Every page row is filed under the name of a stored comic, and every
    keyword row under the id of one. *)
Definition references_resolve (db : Database) : Prop :=
  (forall p, In p (pages_table db) ->
     In (Pages.comic_name p) (map Comics.name (comics_table db)))
  /\ (forall k, In k (keywords_table db) ->
        In (Keywords.comic_id k) (map Comics.id (comics_table db))).

(** Page rows in ascending page number. *)
Definition pages_ascending : list Pages.row -> Prop :=
  StronglySorted (fun p q => Pages.page_number p <= Pages.page_number q).

(** *** What a cycle adds *)

(** [db'] holds every row of [db]: the rows of [comics], and the rows
    of the two other tables in their place at the front. *)
Definition extends (db db' : Database) : Prop :=
  incl (comics_table db) (comics_table db')
  /\ (exists added, pages_table db' = pages_table db ++ added)
  /\ (exists added, keywords_table db' = keywords_table db ++ added).

(** The pages the entries of a log report. *)
Definition reported_pages (log : list new_pages_entry) : Z :=
  fold_right (fun entry total => snd entry + total) 0 log.


(** *** Pages of the ranking *)

(** An integer that SQLite takes as a parameter.  Beyond this range
    [sqlite3] raises [OverflowError] when the statement is run, which
    the model, with its unbounded integers, leaves out. *)
Definition sqlite_integer (n : Z) : Prop := - 2 ^ 63 <= n < 2 ^ 63.

(** The records of the first [count] comics of the ranking. *)
Definition top_of_ranking (db : Database) (count : nat) : list ComicData.t :=
  map (record_of db) (firstn count (Sql.by_rating db)).

(** *** The replies of the bot *)

(** The handler sent one message, or a header and then the comics. *)
Definition answers (chat_id : Z) (calls : list Bot.call) : Prop :=
  (exists text, calls = [Bot.send_message chat_id text None])
  \/ (exists header comics,
        1 <= Py.len comics <= 10
        /\ calls = Bot.send_message chat_id header None
                   :: Bot.send_comic_query_to_chat chat_id comics).

(** The reply of [cmd_search] to the query [query]. *)
Definition search_reply (db : Database) (chat_id : Z) (query : string)
  : result (list Bot.call) :=
  (comics <- ComicData.search_comics_by_name db query 10 ;;
   match comics with
   | [] => Ok [Bot.send_message chat_id "No comics found." None]
   | _ => Ok (Bot.send_message chat_id
                ("Search results for '" ++ query ++ "':")%string None
              :: Bot.send_comic_query_to_chat chat_id comics)
   end)%py.

(** *** Letter case *)

(** A string with its upper-case letters lowered. *)
Fixpoint lowercase (s : string) : string :=
  match s with
  | EmptyString => EmptyString
  | String c s' => String (Py.lower c) (lowercase s')
  end.

(** *** What the store keeps of the service *)

(** [comic] is what the store keeps of a comic that one of the remotes
    lists with pages, together with the details that remote gave. *)
Definition merged_from (remotes : list Remote) (comic : ComicData.t) : Prop :=
  exists remote listing basic detailed merged,
    In remote remotes
    /\ get_all_comics remote = Some listing
    /\ In basic listing
    /\ 1 <= BasicComicData.numberOfPages basic
    /\ get_comic_data_by_name remote (BasicComicData.name basic) = Some detailed
    /\ ComicData.from_basic_and_detailed basic (Some detailed) = Ok merged
    /\ comic = as_stored merged.

(** Every stored comic loads, by its name, as such a record. *)
Definition stored_as_merged (remotes : list Remote) (db : Database) : Prop :=
  forall r, In r (comics_table db) ->
    exists comic,
      ComicData.load_from_db db (SqlText (Comics.name r)) = Ok comic
      /\ merged_from remotes comic
      /\ ComicData.id comic = Comics.id r.

(** *** What SQLite keeps as text *)

(** The characters of which a number is written, and the blanks that may
    stand around it. *)
Definition numeric_char (c : ascii) : bool :=
  let n := nat_of_ascii c in
  ((48 <=? n)%nat && (n <=? 57)%nat)
  || (n =? 43)%nat || (n =? 45)%nat || (n =? 46)%nat
  || (n =? 101)%nat || (n =? 69)%nat
  || (n =? 32)%nat || ((9 <=? n)%nat && (n <=? 13)%nat).

(** A sign stands right after a digit. *)
Fixpoint sign_after_digit (s : string) : bool :=
  match s with
  | EmptyString => false
  | String a rest =>
      match rest with
      | EmptyString => false
      | String b _ =>
          (Str.is_digit a
           && ((nat_of_ascii b =? 43)%nat || (nat_of_ascii b =? 45)%nat))
          || sign_after_digit rest
      end
  end.

(** A text that the columns [created] and [updated] keep as it is.  They
    are declared [TIMESTAMP], which gives them NUMERIC affinity: a text
    that reads as a number is stored as that number, and [load_from_db]
    then returns an integer or a float where the model returns the
    text.  A text with a character that no number has, or with a sign
    right after a digit (as in a date), does not read as a number. *)
Definition kept_as_text (s : string) : bool :=
  existsb (fun c => negb (numeric_char c)) (list_ascii_of_string s)
  || sign_after_digit s.

(** *** The ids of the first rows *)

(** For each matched value, the id of the first row of [comics] with
    that value in [column], the id 0 left out. *)
Definition first_row_ids (column : Comics.row -> string) (db : Database)
           (matches : list string) : list Z :=
  flat_map (fun value =>
              match find (fun r => String.eqb (column r) value) (comics_table db) with
              | Some row => if Comics.id row =? 0 then [] else [Comics.id row]
              | None => []
              end)
           matches.

(** * Properties *)

(** ** Lists, sorting and the error monad *)

Lemma for_each_ok {A B} (f : A -> result B) (g : A -> B) (xs : list A) :
  (forall x, In x xs -> f x = Ok (g x)) ->
  for_each f xs = Ok (map g xs).
Proof.
  induction xs as [|x xs IH]; intros Hf; simpl; [reflexivity|].
  rewrite (Hf x (or_introl eq_refl)). simpl.
  rewrite IH by (intros y Hy; apply Hf; right; exact Hy).
  reflexivity.
Qed.

Lemma for_each_raise {A B} (f : A -> result B) (x : A) (xs : list A) (e : exn) :
  f x = Raise e -> for_each f (x :: xs) = Raise e.
Proof. intros H. simpl. rewrite H. reflexivity. Qed.

Section OrderBy.

Context {A : Type} (before : A -> A -> bool).

Lemma insert_by_perm (x : A) (l : list A) :
  Permutation (Sql.insert_by before x l) (x :: l).
Proof.
  induction l as [|y l IH]; simpl; [apply Permutation_refl|].
  destruct (before x y); [apply Permutation_refl|].
  eapply perm_trans; [apply perm_skip, IH | apply perm_swap].
Qed.

Lemma order_by_perm (l : list A) : Permutation (Sql.order_by before l) l.
Proof.
  induction l as [|x l IH]; simpl; [constructor|].
  eapply perm_trans; [apply insert_by_perm | apply perm_skip, IH].
Qed.

Lemma order_by_length (l : list A) :
  List.length (Sql.order_by before l) = List.length l.
Proof. apply Permutation_length, order_by_perm. Qed.

Lemma order_by_In (x : A) (l : list A) : In x (Sql.order_by before l) <-> In x l.
Proof.
  split; apply Permutation_in;
    [apply order_by_perm | apply Permutation_sym, order_by_perm].
Qed.

Hypothesis before_total : forall x y, before x y = false -> before y x = true.
Hypothesis before_trans :
  forall x y z, before x y = true -> before y z = true -> before x z = true.

Let R (x y : A) : Prop := before x y = true.

Lemma insert_by_sorted (x : A) (l : list A) :
  StronglySorted R l -> StronglySorted R (Sql.insert_by before x l).
Proof.
  induction 1 as [|y l Hl IH Hy]; simpl.
  - repeat constructor.
  - destruct (before x y) eqn:Hxy.
    + constructor; [constructor; assumption|].
      constructor; [exact Hxy|].
      eapply Forall_impl; [|exact Hy].
      intros z Hz. exact (before_trans _ _ _ Hxy Hz).
    + constructor; [exact IH|].
      apply (Permutation_Forall (Permutation_sym (insert_by_perm x l))).
      constructor; [apply before_total; exact Hxy | exact Hy].
Qed.

Lemma order_by_sorted (l : list A) : StronglySorted R (Sql.order_by before l).
Proof.
  induction l as [|x l IH]; simpl; [constructor | apply insert_by_sorted, IH].
Qed.

End OrderBy.


Lemma StronglySorted_firstn {A} (R : A -> A -> Prop) (n : nat) (l : list A) :
  StronglySorted R l -> StronglySorted R (firstn n l).
Proof.
  revert l; induction n as [|n IH]; intros l H; [constructor|].
  destruct l as [|x l]; [constructor|].
  simpl. inversion H as [|? ? Hl Hx]; subst.
  constructor; [apply IH; exact Hl|].
  rewrite Forall_forall in *. intros y Hy. apply Hx.
  rewrite <- (firstn_skipn n l). apply in_or_app. left. exact Hy.
Qed.

Lemma StronglySorted_map {A B} (f : A -> B) (R : B -> B -> Prop) (l : list A) :
  StronglySorted (fun x y => R (f x) (f y)) l -> StronglySorted R (map f l).
Proof.
  induction 1 as [|x l Hl IH Hx]; simpl; constructor; [exact IH|].
  rewrite Forall_forall in *. intros y Hy.
  apply in_map_iff in Hy. destruct Hy as [z [<- Hz]]. apply Hx, Hz.
Qed.

(** In a sorted list, whatever is cut off after the first [n] elements
    ranks no higher than any of them. *)
Lemma StronglySorted_firstn_skipn {A} (R : A -> A -> Prop) (n : nat) (l : list A) :
  StronglySorted R l ->
  forall x y, In x (firstn n l) -> In y (skipn n l) -> R x y.
Proof.
  revert l; induction n as [|n IH]; intros l H x y Hx Hy; [destruct Hx|].
  destruct l as [|z l]; [destruct Hx|].
  simpl in Hx, Hy. inversion H as [|? ? Hl Hz]; subst.
  destruct Hx as [<-|Hx].
  - rewrite Forall_forall in Hz. apply Hz.
    rewrite <- (firstn_skipn n l). apply in_or_app. right. exact Hy.
  - apply (IH l); assumption.
Qed.

(** ** [difflib]: counting common elements *)

Lemma alphabet_In (c : ascii) : In c alphabet.
Proof.
  unfold alphabet. apply in_map_iff. exists (nat_of_ascii c).
  split; [apply ascii_nat_embedding | apply in_seq; pose proof (nat_ascii_bounded c); lia].
Qed.

Lemma alphabet_NoDup : NoDup alphabet.
Proof.
  unfold alphabet.
  assert (forall n start, (start + n <= 256)%nat ->
                          NoDup (map ascii_of_nat (seq start n))) as H.
  { induction n as [|n IH]; intros start Hle; simpl; constructor.
    - rewrite in_map_iff. intros [m [Hm Hin]]. apply in_seq in Hin.
      apply (f_equal nat_of_ascii) in Hm.
      rewrite !nat_ascii_embedding in Hm by lia. lia.
    - apply IH. lia. }
  apply H. lia.
Qed.

Lemma list_sum_le {A} (f g : A -> nat) (l : list A) :
  (forall x, f x <= g x)%nat -> (list_sum (map f l) <= list_sum (map g l))%nat.
Proof.
  intros H. induction l as [|x l IH]; simpl; [lia|]. specialize (H x). lia.
Qed.

Lemma list_sum_add {A} (f g : A -> nat) (l : list A) :
  list_sum (map (fun x => f x + g x)%nat l) = (list_sum (map f l) + list_sum (map g l))%nat.
Proof. induction l as [|x l IH]; simpl; lia. Qed.

Lemma list_sum_indicator (c : ascii) (l : list ascii) :
  NoDup l -> In c l ->
  list_sum (map (fun x => if Ascii.eqb x c then 1 else 0)%nat l) = 1%nat.
Proof.
  induction l as [|y l IH]; intros Hnodup Hin; [destruct Hin|].
  inversion Hnodup as [|? ? Hfresh Hrest]; subst. simpl.
  destruct (Ascii.eqb_spec y c) as [->|Hne].
  - f_equal. clear IH Hin Hnodup Hrest. induction l as [|z l IH]; simpl; [reflexivity|].
    destruct (Ascii.eqb_spec z c) as [->|_]; [elim Hfresh; left; reflexivity|].
    apply IH. intros H. apply Hfresh. right. exact H.
  - destruct Hin as [Heq|Hin]; [contradiction|]. apply IH; assumption.
Qed.

Lemma occurrences_cons (c x : ascii) (s : list ascii) :
  occurrences c (x :: s) = ((if Ascii.eqb c x then 1 else 0) + occurrences c s)%nat.
Proof. unfold occurrences. simpl. destruct (Ascii.eqb c x); reflexivity. Qed.

Lemma occurrences_app (c : ascii) (s1 s2 : list ascii) :
  occurrences c (s1 ++ s2) = (occurrences c s1 + occurrences c s2)%nat.
Proof. unfold occurrences. rewrite filter_app, length_app. reflexivity. Qed.

Lemma occurrences_total (s : list ascii) :
  over_alphabet (fun c => occurrences c s) = List.length s.
Proof.
  unfold over_alphabet. induction s as [|x s IH].
  - simpl. induction alphabet; simpl; [reflexivity | assumption].
  - rewrite (map_ext (fun c => occurrences c (x :: s))
                     (fun c => (if Ascii.eqb c x then 1 else 0) + occurrences c s)%nat)
      by (intros c; apply occurrences_cons).
    rewrite list_sum_add, IH, list_sum_indicator;
      [reflexivity | apply alphabet_NoDup | apply alphabet_In].
Qed.

Lemma common_le_left (s1 s2 : list ascii) : (common s1 s2 <= List.length s1)%nat.
Proof.
  rewrite <- (occurrences_total s1). apply list_sum_le. intros c. lia.
Qed.

Lemma common_le_right (s1 s2 : list ascii) : (common s1 s2 <= List.length s2)%nat.
Proof.
  rewrite <- (occurrences_total s2). apply list_sum_le. intros c. lia.
Qed.

(** Cutting both sequences around a common block. *)
Lemma common_split (x1 x2 y1 y2 m : list ascii) :
  (common x1 y1 + List.length m + common x2 y2
   <= common (x1 ++ m ++ x2) (y1 ++ m ++ y2))%nat.
Proof.
  rewrite <- (occurrences_total m). unfold common, over_alphabet.
  rewrite <- !list_sum_add. apply list_sum_le. intros c.
  rewrite !occurrences_app. lia.
Qed.

Lemma list_sum_single (c : ascii) (k : nat) (l : list ascii) :
  NoDup l -> In c l ->
  list_sum (map (fun x => if Ascii.eqb x c then k else 0)%nat l) = k.
Proof.
  induction l as [|y l IH]; intros Hnodup Hin; [destruct Hin|].
  inversion Hnodup as [|? ? Hfresh Hrest]; subst. simpl.
  destruct (Ascii.eqb_spec y c) as [->|Hne].
  - rewrite <- (Nat.add_0_r k) at 2. f_equal.
    clear IH Hin Hnodup Hrest. induction l as [|z l IH]; simpl; [reflexivity|].
    destruct (Ascii.eqb_spec z c) as [->|_]; [elim Hfresh; left; reflexivity|].
    apply IH. intros H. apply Hfresh. right. exact H.
  - destruct Hin as [Heq|Hin]; [contradiction|]. apply IH; assumption.
Qed.

Lemma quick_matches_sum (b : list ascii) :
  forall (a : list ascii) (avail : list (ascii * Z)) (matches : nat),
    difflib.quick_matches a b avail matches
    = (matches
       + over_alphabet (fun c => Nat.min (occurrences c a)
                                         (Z.to_nat (remaining avail b c))))%nat.
Proof.
  induction a as [|elt a IH]; intros avail matches.
  - cbn [difflib.quick_matches]. unfold over_alphabet.
    assert (list_sum (map (fun c => Nat.min (occurrences c [])
                                            (Z.to_nat (remaining avail b c)))
                          alphabet) = 0%nat) as ->; [|lia].
    induction alphabet; simpl; [reflexivity | assumption].
  - cbn [difflib.quick_matches]. fold (remaining avail b elt). rewrite IH.
    set (numb := remaining avail b elt).
    unfold over_alphabet.
    rewrite (map_ext
               (fun c => Nat.min (occurrences c (elt :: a)) (Z.to_nat (remaining avail b c)))
               (fun c => (if Ascii.eqb c elt then (if (0 <? numb)%Z then 1 else 0) else 0)
                         + Nat.min (occurrences c a)
                                   (Z.to_nat (remaining ((elt, (numb - 1)%Z) :: avail) b c)))%nat).
    + rewrite list_sum_add, list_sum_single by (apply alphabet_NoDup || apply alphabet_In).
      destruct (0 <? numb)%Z; lia.
    + intros c. rewrite occurrences_cons. unfold remaining at 2. simpl.
      rewrite (Ascii.eqb_sym elt c).
      destruct (Ascii.eqb_spec c elt) as [->|Hne].
      * fold numb. destruct (Z.ltb_spec 0 numb); lia.
      * fold (remaining avail b c). lia.
Qed.

Lemma quick_matches_common (a b : list ascii) :
  difflib.quick_matches a b [] 0%nat = common a b.
Proof.
  rewrite quick_matches_sum. simpl. unfold common, over_alphabet. f_equal.
  apply map_ext. intros c. unfold remaining. simpl.
  unfold difflib.fullbcount, Py.len, occurrences. rewrite Nat2Z.id. reflexivity.
Qed.

(** ** [difflib]: the longest match of a region *)

Section Blocks.

Variables a b : difflib.sequence.

Lemma j2lenget_In (j2len : list (nat * nat)) (j : nat) :
  difflib.j2lenget j2len j <> 0%nat ->
  In (j, difflib.j2lenget j2len j) j2len.
Proof.
  induction j2len as [|[j' k] rest IH]; simpl; [congruence|].
  destruct (Nat.eqb_spec j' j) as [->|_]; [left; reflexivity | right; apply IH; assumption].
Qed.

Lemma b2j_item (elt : ascii) (j : nat) :
  In j (difflib.b2j b elt) -> difflib.item b j = elt.
Proof.
  unfold difflib.b2j. destruct (difflib.popular b elt); [intros []|].
  unfold difflib.indices. intros H. apply filter_In in H.
  destruct H as [_ H]. apply Ascii.eqb_eq in H. exact H.
Qed.

Lemma scan_js_block (alo blo bhi i : nat) (j2len : list (nat * nat)) :
  (alo <= i)%nat ->
  Forall (ends_at a b alo blo bhi i) j2len ->
  forall js newj2len best,
    Forall (fun j => difflib.item b j = difflib.item a i) js ->
    Forall (ends_at a b alo blo bhi (S i)) newj2len ->
    block_in a b alo (S i) blo bhi best ->
    let '(newj2len', best') :=
      difflib.scan_js js blo bhi i j2len newj2len best in
    Forall (ends_at a b alo blo bhi (S i)) newj2len'
    /\ block_in a b alo (S i) blo bhi best'.
Proof.
  intros Hi Hj2len. induction js as [|j js IH]; intros newj2len best Hjs Hnew Hbest;
    cbn [difflib.scan_js]; [split; assumption|].
  inversion Hjs as [|? ? Hj Hjs']; subst.
  destruct (Nat.ltb_spec j blo) as [_|Hblo]; [apply IH; assumption|].
  destruct (Nat.leb_spec bhi j) as [_|Hbhi]; [split; assumption|].
  destruct best as [[besti bestj] bestsize].
  set (before := match j with O => 0%nat | S j' => difflib.j2lenget j2len j' end).
  assert (ends_at a b alo blo bhi (S i) (j, before + 1)%nat) as Hentry.
  { destruct (Nat.eq_dec before 0) as [Hzero|Hpos].
    - rewrite Hzero. split; [lia|]. intros t Ht.
      replace (S i - (0 + 1) + t)%nat with i by lia.
      replace (j + 1 - (0 + 1) + t)%nat with j by lia. symmetry. exact Hj.
    - destruct j as [|j']; [elim Hpos; reflexivity|]. subst before.
      pose proof (j2lenget_In j2len j' Hpos) as Hin.
      rewrite Forall_forall in Hj2len. specialize (Hj2len _ Hin).
      set (k := difflib.j2lenget j2len j') in *.
      destruct Hj2len as [Hbounds Hchars]. split; [lia|].
      intros t Ht. destruct (Nat.eq_dec t k) as [->|Hne].
      + replace (S i - (k + 1) + k)%nat with i by lia.
        replace (S j' + 1 - (k + 1) + k)%nat with (S j') by lia. symmetry. exact Hj.
      + replace (S i - (k + 1) + t)%nat with (i - k + t)%nat by lia.
        replace (S j' + 1 - (k + 1) + t)%nat with (j' + 1 - k + t)%nat by lia.
        apply Hchars. lia. }
  apply IH; [exact Hjs' | constructor; assumption |].
  destruct (bestsize <? before + 1)%nat; [|exact Hbest].
  destruct Hentry as [Hbounds Hchars]. split; [lia|].
  intros t Ht. replace (i + 1 - (before + 1) + t)%nat with (S i - (before + 1) + t)%nat by lia.
  apply Hchars. exact Ht.
Qed.

Lemma block_in_wider (alo ahi ahi' blo bhi : nat) (m : difflib.Match) :
  (ahi <= ahi')%nat -> block_in a b alo ahi blo bhi m -> block_in a b alo ahi' blo bhi m.
Proof. destruct m as [[i j] k]. intros Hle [Hb Hc]. split; [lia | exact Hc]. Qed.

Lemma scan_is_block (alo blo bhi : nat) :
  forall n i j2len best,
    (alo <= i)%nat ->
    Forall (ends_at a b alo blo bhi i) j2len ->
    block_in a b alo i blo bhi best ->
    block_in a b alo (i + n) blo bhi (difflib.scan_is a b (seq i n) blo bhi j2len best).
Proof.
  induction n as [|n IH]; intros i j2len best Hi Hj2len Hbest; cbn [seq difflib.scan_is].
  - rewrite Nat.add_0_r. exact Hbest.
  - pose proof (scan_js_block alo blo bhi i j2len Hi Hj2len
                  (difflib.b2j b (difflib.item a i)) [] best) as Hjs.
    destruct (difflib.scan_js _ blo bhi i j2len [] best) as [newj2len best'].
    destruct Hjs as [Hnew Hbest'].
    + apply Forall_forall. intros j Hj. apply b2j_item. exact Hj.
    + constructor.
    + apply (block_in_wider alo i); [lia | exact Hbest].
    + replace (i + S n)%nat with (S i + n)%nat by lia.
      apply IH; [lia | exact Hnew | exact Hbest'].
Qed.

Lemma extend_left_block (alo ahi blo bhi : nat) :
  forall besti bestj bestsize,
    block_in a b alo ahi blo bhi (besti, bestj, bestsize) ->
    block_in a b alo ahi blo bhi (difflib.extend_left a b alo blo besti bestj bestsize).
Proof.
  induction besti as [|i' IH]; intros bestj bestsize H; cbn [difflib.extend_left];
    [exact H|].
  destruct bestj as [|j']; [exact H|].
  destruct ((alo <? S i')%nat && (blo <? S j')%nat
            && Ascii.eqb (difflib.item a i') (difflib.item b j')) eqn:Hcond;
    [|exact H].
  apply andb_prop in Hcond. destruct Hcond as [Hcond Heq].
  apply andb_prop in Hcond. destruct Hcond as [Halo Hblo].
  apply Nat.ltb_lt in Halo, Hblo. apply Ascii.eqb_eq in Heq.
  apply IH. destruct H as [Hbounds Hchars]. split; [lia|].
  intros t Ht. destruct t as [|t].
  - rewrite !Nat.add_0_r. exact Heq.
  - replace (i' + S t)%nat with (S i' + t)%nat by lia.
    replace (j' + S t)%nat with (S j' + t)%nat by lia.
    apply Hchars. lia.
Qed.

Lemma extend_right_block (alo blo bhi : nat) :
  forall room besti bestj bestsize,
    block_in a b alo (besti + bestsize) blo bhi (besti, bestj, bestsize) ->
    block_in a b alo (besti + bestsize + room) blo bhi
             (difflib.extend_right a b room bhi besti bestj bestsize).
Proof.
  induction room as [|room IH]; intros besti bestj bestsize H;
    cbn [difflib.extend_right].
  - rewrite Nat.add_0_r. exact H.
  - destruct ((bestj + bestsize <? bhi)%nat
              && Ascii.eqb (difflib.item a (besti + bestsize))
                           (difflib.item b (bestj + bestsize))) eqn:Hcond.
    + apply andb_prop in Hcond. destruct Hcond as [Hbhi Heq].
      apply Nat.ltb_lt in Hbhi. apply Ascii.eqb_eq in Heq.
      replace (besti + bestsize + S room)%nat with (besti + S bestsize + room)%nat by lia.
      apply IH. destruct H as [Hbounds Hchars]. split; [lia|].
      intros t Ht. destruct (Nat.eq_dec t bestsize) as [->|Hne];
        [exact Heq | apply Hchars; lia].
    + apply (block_in_wider alo (besti + bestsize)); [lia | exact H].
Qed.

(** The longest match found in a region is a common block of the
    region. *)
Lemma find_longest_match_block (alo ahi blo bhi : nat) :
  (alo <= ahi)%nat -> (blo <= bhi)%nat ->
  block_in a b alo ahi blo bhi (difflib.find_longest_match a b alo ahi blo bhi).
Proof.
  intros Ha Hb. unfold difflib.find_longest_match.
  pose proof (scan_is_block alo blo bhi (ahi - alo) alo [] (alo, blo, 0%nat)
                (Nat.le_refl _) (Forall_nil _)) as Hscan.
  destruct (difflib.scan_is a b (seq alo (ahi - alo)) blo bhi [] (alo, blo, 0%nat))
    as [[besti bestj] bestsize].
  replace (alo + (ahi - alo))%nat with ahi in Hscan by lia.
  assert (block_in a b alo ahi blo bhi (besti, bestj, bestsize)) as Hbest.
  { apply Hscan. split; [lia | intros t Ht; lia]. }
  pose proof (extend_left_block alo ahi blo bhi besti bestj bestsize Hbest) as Hleft.
  destruct (difflib.extend_left a b alo blo besti bestj bestsize)
    as [[besti' bestj'] bestsize'].
  pose proof (extend_right_block alo blo bhi (ahi - (besti' + bestsize'))
                besti' bestj' bestsize') as Hright.
  destruct Hleft as [Hbounds Hchars].
  replace (besti' + bestsize' + (ahi - (besti' + bestsize')))%nat with ahi
    in Hright by lia.
  apply Hright. split; [lia | exact Hchars].
Qed.

End Blocks.

(** ** [difflib]: the loop of [get_matching_blocks] *)

Lemma matching_loop_ends (a b : difflib.sequence) :
  forall fuel queue matching_blocks,
    Forall (inside a b) queue ->
    (turns queue <= fuel)%nat ->
    exists blocks, difflib.matching_loop fuel a b queue matching_blocks = Some blocks.
Proof.
  induction fuel as [|fuel IH]; intros queue acc Hq Hfuel.
  - destruct queue as [|[[[alo ahi] blo] bhi] queue]; simpl in *;
      [eexists; reflexivity | lia].
  - destruct queue as [|[[[alo ahi] blo] bhi] queue]; cbn [difflib.matching_loop];
      [eexists; reflexivity|].
    inversion Hq as [|? ? Hr Hrest]; subst. cbn [turns fold_right] in Hfuel.
    fold (turns queue) in Hfuel.
    pose proof Hr as (Ha & Hla & Hb & Hlb).
    pose proof (find_longest_match_block a b alo ahi blo bhi Ha Hb) as Hblock.
    destruct (difflib.find_longest_match a b alo ahi blo bhi) as [[i j] k].
    destruct Hblock as [Hbounds _].
    destruct (Nat.eqb_spec k 0) as [Hzero|Hnonzero]; [apply IH; [exact Hrest | lia]|].
    apply IH.
    + destruct ((i + k <? ahi)%nat && (j + k <? bhi)%nat);
        destruct ((alo <? i)%nat && (blo <? j)%nat);
        repeat constructor; try exact Hrest; simpl; lia.
    + destruct ((i + k <? ahi)%nat && (j + k <? bhi)%nat);
        destruct ((alo <? i)%nat && (blo <? j)%nat);
        cbn [turns fold_right]; fold (turns queue); lia.
Qed.

(** [get_matching_blocks] always returns its list of blocks. *)
Lemma get_matching_blocks_returns (a b : difflib.sequence) :
  exists blocks, difflib.get_matching_blocks a b = Some blocks.
Proof.
  unfold difflib.get_matching_blocks. apply matching_loop_ends.
  - repeat constructor; lia.
  - simpl. lia.
Qed.

Lemma segment_split (s : list ascii) (lo mid hi : nat) :
  (lo <= mid)%nat -> (mid <= hi)%nat ->
  segment s lo hi = segment s lo mid ++ segment s mid hi.
Proof.
  intros H1 H2. unfold segment.
  replace (hi - lo)%nat with ((mid - lo) + (hi - mid))%nat by lia.
  rewrite <- (firstn_skipn (mid - lo) (firstn (mid - lo + (hi - mid)) (skipn lo s))).
  rewrite firstn_firstn, Nat.min_l by lia. f_equal.
  rewrite skipn_firstn_comm, skipn_skipn.
  replace (mid - lo + (hi - mid) - (mid - lo))%nat with (hi - mid)%nat by lia.
  replace (mid - lo + lo)%nat with mid by lia. reflexivity.
Qed.

Lemma segment_length (s : list ascii) (lo hi : nat) :
  (hi <= List.length s)%nat -> List.length (segment s lo hi) = (hi - lo)%nat.
Proof. intros H. unfold segment. rewrite length_firstn, length_skipn. lia. Qed.

Lemma segment_item (s : list ascii) (lo hi t : nat) :
  (t < hi - lo)%nat -> nth t (segment s lo hi) zero = difflib.item s (lo + t).
Proof.
  intros H. unfold segment, difflib.item.
  rewrite nth_firstn. destruct (Nat.ltb_spec t (hi - lo)); [|lia].
  apply nth_skipn.
Qed.

Lemma segment_all (s : list ascii) : segment s 0 (List.length s) = s.
Proof. unfold segment. rewrite Nat.sub_0_r. simpl. apply firstn_all. Qed.

Section Sum.

Variables a b : difflib.sequence.

Lemma sum_sizes_app (blocks : list difflib.Match) (m : difflib.Match) :
  difflib.sum_sizes (blocks ++ [m])
  = (difflib.sum_sizes blocks + snd m)%nat.
Proof.
  induction blocks as [|[[i j] k] blocks IH]; simpl.
  - destruct m as [[i j] k]. simpl. lia.
  - rewrite IH. lia.
Qed.

(** A common block splits the region into three parts, and what the
    outer parts have in common adds to the block. *)
Lemma region_common_split (alo ahi blo bhi i j k : nat) :
  inside a b (alo, ahi, blo, bhi) ->
  block_in a b alo ahi blo bhi (i, j, k) ->
  (region_common a b (alo, i, blo, j) + k + region_common a b ((i + k)%nat, ahi, (j + k)%nat, bhi)
   <= region_common a b (alo, ahi, blo, bhi))%nat.
Proof.
  intros (Ha & Hla & Hb & Hlb) [Hbounds Hchars]. unfold region_common.
  rewrite (segment_split a alo i ahi), (segment_split a i (i + k) ahi) by lia.
  rewrite (segment_split b blo j bhi), (segment_split b j (j + k) bhi) by lia.
  assert (segment a i (i + k) = segment b j (j + k)) as Hsame.
  { apply (nth_ext _ _ zero zero).
    - rewrite !segment_length by lia. lia.
    - intros t Ht. rewrite segment_length in Ht by lia.
      rewrite !segment_item by lia. apply Hchars. lia. }
  rewrite Hsame.
  pose proof (common_split (segment a alo i) (segment a (i + k) ahi)
                           (segment b blo j) (segment b (j + k) bhi)
                           (segment b j (j + k))) as Hsplit.
  rewrite segment_length in Hsplit by lia.
  replace (j + k - j)%nat with k in Hsplit by lia. exact Hsplit.
Qed.

Lemma matching_loop_sum :
  forall fuel queue matching_blocks blocks,
    Forall (inside a b) queue ->
    difflib.matching_loop fuel a b queue matching_blocks = Some blocks ->
    (difflib.sum_sizes blocks
     <= difflib.sum_sizes matching_blocks + queue_common a b queue)%nat.
Proof.
  induction fuel as [|fuel IH]; intros queue acc blocks Hq Hrun.
  - destruct queue as [|[[[alo ahi] blo] bhi] queue]; simpl in Hrun; [|discriminate].
    injection Hrun as <-. lia.
  - destruct queue as [|[[[alo ahi] blo] bhi] queue]; cbn [difflib.matching_loop] in Hrun.
    { injection Hrun as <-. lia. }
    inversion Hq as [|? ? Hr Hrest]; subst.
    pose proof Hr as (Ha & Hla & Hb & Hlb).
    pose proof (find_longest_match_block a b alo ahi blo bhi Ha Hb) as Hblock.
    destruct (difflib.find_longest_match a b alo ahi blo bhi) as [[i j] k].
    pose proof (region_common_split _ _ _ _ _ _ _ Hr Hblock) as Hsplit.
    destruct Hblock as [Hbounds _].
    unfold queue_common, list_sum in *. cbn [map fold_right].
    destruct (Nat.eqb_spec k 0) as [Hzero|Hnonzero].
    + apply IH in Hrun; [lia | exact Hrest].
    + apply IH in Hrun.
      * rewrite sum_sizes_app in Hrun. cbn [snd] in Hrun.
        destruct ((i + k <? ahi)%nat && (j + k <? bhi)%nat);
          destruct ((alo <? i)%nat && (blo <? j)%nat);
          cbn [map fold_right] in Hrun; lia.
      * destruct ((i + k <? ahi)%nat && (j + k <? bhi)%nat);
          destruct ((alo <? i)%nat && (blo <? j)%nat);
          repeat constructor; try exact Hrest; simpl; lia.
Qed.

End Sum.

Lemma ratio_matches_common (a b : difflib.sequence) :
  (ratio_matches a b <= common a b)%nat.
Proof.
  unfold ratio_matches, difflib.get_matching_blocks.
  destruct (difflib.matching_loop _ a b _ []) as [blocks|] eqn:Hrun; [|lia].
  apply matching_loop_sum in Hrun.
  - unfold queue_common, region_common in Hrun. cbn [map list_sum fold_right] in Hrun.
    rewrite !segment_all in Hrun. cbn [difflib.sum_sizes fold_right] in Hrun. lia.
  - repeat constructor; lia.
Qed.

Lemma calculate_ratio_mono (m1 m2 length : nat) :
  (m1 <= m2)%nat ->
  (difflib._calculate_ratio m1 length <= difflib._calculate_ratio m2 length)%Q.
Proof.
  intros H. unfold difflib._calculate_ratio.
  destruct (length =? 0)%nat; [apply Qle_refl|].
  unfold Qdiv. apply Qmult_le_compat_r.
  - apply Qmult_le_l; [reflexivity|]. rewrite <- Zle_Qle. lia.
  - apply Qinv_le_0_compat. replace 0%Q with (inject_Z 0) by reflexivity.
    rewrite <- Zle_Qle. lia.
Qed.

(** [quick_ratio] and [real_quick_ratio] are upper bounds of [ratio]. *)
Lemma ratio_le_quick_ratio (a b : difflib.sequence) :
  (difflib.ratio a b <= difflib.quick_ratio a b)%Q.
Proof.
  unfold difflib.ratio, difflib.quick_ratio. fold (ratio_matches a b).
  apply calculate_ratio_mono. rewrite quick_matches_common. apply ratio_matches_common.
Qed.

Lemma ratio_le_real_quick_ratio (a b : difflib.sequence) :
  (difflib.ratio a b <= difflib.real_quick_ratio a b)%Q.
Proof.
  unfold difflib.ratio, difflib.real_quick_ratio. fold (ratio_matches a b).
  apply calculate_ratio_mono.
  pose proof (ratio_matches_common a b). pose proof (common_le_left a b).
  pose proof (common_le_right a b). lia.
Qed.

(** The three tests of [get_close_matches] amount to the last one. *)
Lemma close_enough_ratio (cutoff : Q) (word x : string) :
  difflib.close_enough cutoff word x = true
  <-> (cutoff <= difflib.similarity word x)%Q.
Proof.
  unfold difflib.close_enough, difflib.similarity.
  rewrite !andb_true_iff, !Qle_bool_iff. split; [tauto|].
  intros H. repeat split; try exact H.
  - eapply Qle_trans; [exact H | apply ratio_le_real_quick_ratio].
  - eapply Qle_trans; [exact H | apply ratio_le_quick_ratio].
Qed.

(** ** The store *)

Lemma comic_by_name_absent (db : Database) (comic_name : sqlvalue) :
  (forall r, In r (comics_table db) -> Comics.name r <> text_affinity comic_name) ->
  Sql.comic_by_name db comic_name = None.
Proof.
  intros H. unfold Sql.comic_by_name.
  destruct (find _ (comics_table db)) as [r|] eqn:Hfind; [|reflexivity].
  apply find_some in Hfind. destruct Hfind as [Hin Heq].
  apply String.eqb_eq in Heq. elim (H r Hin Heq).
Qed.

Lemma load_from_db_raises (db : Database) (comic_name : sqlvalue) :
  (forall r, In r (comics_table db) -> Comics.name r <> text_affinity comic_name) ->
  ComicData.load_from_db db comic_name = Raise TypeError.
Proof.
  intros H. unfold ComicData.load_from_db.
  rewrite (comic_by_name_absent db comic_name H). reflexivity.
Qed.

Lemma insert_comic_taken (r : Comics.row) (table : list Comics.row) :
  In (Comics.id r) (map Comics.id table) ->
  Sql.insert_comic r table = Raise IntegrityError.
Proof.
  intros H. unfold Sql.insert_comic.
  replace (existsb _ table) with true; [reflexivity|].
  symmetry. apply existsb_exists.
  apply in_map_iff in H. destruct H as [r' [Hid Hin]].
  exists r'. split; [exact Hin | apply Z.eqb_eq; exact Hid].
Qed.

Lemma insert_comic_ok (r : Comics.row) (table table' : list Comics.row) :
  Sql.insert_comic r table = Ok table' ->
  ~ In (Comics.id r) (map Comics.id table) /\ Permutation table' (r :: table).
Proof.
  unfold Sql.insert_comic.
  destruct (existsb _ table) eqn:Hex; [discriminate|].
  intros [= <-]. split; [|apply insert_by_perm].
  intros Hin. apply in_map_iff in Hin. destruct Hin as [r' [Hid Hin]].
  assert (existsb (fun r' => Comics.id r' =? Comics.id r) table = true) as Habs.
  { apply existsb_exists. exists r'. split; [exact Hin | apply Z.eqb_eq; exact Hid]. }
  congruence.
Qed.

(** ** The Synchronizer: what one turn of the loop does *)

Lemma save_to_db_ok (self : ComicData.t) (db db' : Database) :
  ComicData.save_to_db self db = Ok db' ->
  ~ In (ComicData.id self) (map Comics.id (comics_table db))
  /\ Permutation (map Comics.id (comics_table db'))
                 (ComicData.id self :: map Comics.id (comics_table db))
  /\ pages_table db' = pages_table db ++ new_page_rows self
  /\ keywords_table db'
     = keywords_table db
         ++ map (Keywords.mk (ComicData.id self)) (ComicData.keywords self).
Proof.
  unfold ComicData.save_to_db.
  destruct (Sql.insert_comic _ (comics_table db)) as [comics'|e] eqn:Hins;
    simpl; [|discriminate].
  intros [= <-]. simpl.
  apply insert_comic_ok in Hins. destruct Hins as [Hfresh Hperm]. simpl in Hfresh.
  repeat split; try reflexivity; [exact Hfresh|].
  apply (Permutation_map Comics.id) in Hperm. exact Hperm.
Qed.

Lemma enumerate1_numbers {A} (xs : list A) :
  map fst (Py.enumerate1 xs) = map Z.of_nat (seq 1 (List.length xs)).
Proof.
  unfold Py.enumerate1.
  generalize 1%nat. induction xs as [|x xs IH]; intros start; simpl;
    [reflexivity | rewrite IH; reflexivity].
Qed.

Lemma new_page_rows_numbers (self : ComicData.t) :
  map Pages.page_number (new_page_rows self)
  = map Z.of_nat (seq 1 (List.length (ComicData.pages self))).
Proof.
  rewrite <- enumerate1_numbers. unfold new_page_rows.
  rewrite map_map. apply map_ext. intros [i url]. reflexivity.
Qed.

Lemma new_page_rows_name (self : ComicData.t) (p : Pages.row) :
  In p (new_page_rows self) -> Pages.comic_name p = ComicData.name self.
Proof.
  unfold new_page_rows. intros H. apply in_map_iff in H.
  destruct H as [[i url] [<- _]]. reflexivity.
Qed.

Lemma filter_all {A} (f : A -> bool) (l : list A) :
  (forall x, In x l -> f x = true) -> filter f l = l.
Proof.
  induction l as [|x l IH]; intros H; simpl; [reflexivity|].
  rewrite (H x (or_introl eq_refl)), IH; [reflexivity|].
  intros y Hy. apply H. right. exact Hy.
Qed.

Lemma filter_none {A} (f : A -> bool) (l : list A) :
  (forall x, In x l -> f x = false) -> filter f l = [].
Proof.
  induction l as [|x l IH]; intros H; simpl; [reflexivity|].
  rewrite (H x (or_introl eq_refl)). apply IH.
  intros y Hy. apply H. right. exact Hy.
Qed.

(** The page rows under a name after a successful [save_to_db]. *)
Lemma save_to_db_pages_by_name (self : ComicData.t) (db db' : Database)
      (name : string) :
  ComicData.save_to_db self db = Ok db' ->
  Sql.pages_by_name db' (SqlText name)
  = Sql.pages_by_name db (SqlText name)
      ++ (if String.eqb (ComicData.name self) name then new_page_rows self else []).
Proof.
  intros Hsave. apply save_to_db_ok in Hsave.
  destruct Hsave as (_ & _ & Hpages & _).
  unfold Sql.pages_by_name. rewrite Hpages, filter_app. f_equal. simpl.
  destruct (String.eqb_spec (ComicData.name self) name) as [Heq|Hne].
  - apply filter_all. intros p Hp. rewrite (new_page_rows_name _ _ Hp).
    apply String.eqb_eq. exact Heq.
  - apply filter_none. intros p Hp. rewrite (new_page_rows_name _ _ Hp).
    apply String.eqb_neq. exact Hne.
Qed.

Lemma pages_for_length (name : string) (n : Z) :
  List.length (get_comic_pages_by_name_and_pages name n) = Z.to_nat n.
Proof.
  unfold get_comic_pages_by_name_and_pages, Py.range1.
  rewrite !length_map, length_seq. reflexivity.
Qed.

Lemma new_page_rows_length (self : ComicData.t) :
  List.length (new_page_rows self) = List.length (ComicData.pages self).
Proof.
  rewrite <- (length_map Pages.page_number), new_page_rows_numbers.
  rewrite length_map, length_seq. reflexivity.
Qed.

(** The two ways a turn of the loop can succeed: the comic is skipped,
    or it is fetched and saved. *)
Lemma update_comic_ok (remote : Remote) (basic : BasicComicData.t)
      (db db' : Database) (log log' : list new_pages_entry) :
  update_comic remote basic db log = Ok (db', log') ->
  (BasicComicData.numberOfPages basic <= page_count db (BasicComicData.name basic)
   /\ db' = db /\ log' = log)
  \/ (page_count db (BasicComicData.name basic) < BasicComicData.numberOfPages basic
      /\ exists comic_data,
          ComicData.from_basic_and_detailed
            basic (get_comic_data_by_name remote (BasicComicData.name basic))
          = Ok comic_data
          /\ ComicData.save_to_db comic_data db = Ok db').
Proof.
  unfold update_comic. fold (page_count db (BasicComicData.name basic)).
  destruct (Z.ltb_spec (page_count db (BasicComicData.name basic))
                       (BasicComicData.numberOfPages basic)) as [Hlt|Hge].
  - destruct (ComicData.from_basic_and_detailed _ _) as [comic_data|e];
      simpl; [|discriminate].
    destruct (ComicData.save_to_db comic_data db) as [db1|e] eqn:Hsave;
      simpl; [|discriminate].
    intros [= <- <-]. right. split; [exact Hlt|].
    exists comic_data. split; [reflexivity | exact Hsave].
  - intros [= <- <-]. left. repeat split. exact Hge.
Qed.

Lemma from_basic_and_detailed_ok (basic : BasicComicData.t)
      (detailed : option DetailedComicData.t) (comic_data : ComicData.t) :
  ComicData.from_basic_and_detailed basic detailed = Ok comic_data ->
  ComicData.id comic_data = BasicComicData.id basic
  /\ ComicData.name comic_data = BasicComicData.name basic
  /\ ComicData.pages comic_data
     = get_comic_pages_by_name_and_pages (BasicComicData.name basic)
                                         (BasicComicData.numberOfPages basic).
Proof.
  destruct detailed as [d|]; simpl; [|discriminate].
  intros [= <-]. simpl. repeat split.
Qed.

(** A comic whose stored page count has reached the reported one is
    left alone: nothing is fetched and nothing is written. *)
Lemma update_comic_skip (remote : Remote) (basic : BasicComicData.t)
      (db : Database) (log : list new_pages_entry) :
  BasicComicData.numberOfPages basic <= page_count db (BasicComicData.name basic) ->
  update_comic remote basic db log = Ok (db, log).
Proof.
  intros Hge. unfold update_comic. fold (page_count db (BasicComicData.name basic)).
  destruct (Z.ltb_spec (page_count db (BasicComicData.name basic))
                       (BasicComicData.numberOfPages basic)); [lia | reflexivity].
Qed.

Lemma update_comic_raise (remote : Remote) (basic : BasicComicData.t)
      (db : Database) (log log2 : list new_pages_entry) (e : exn) :
  update_comic remote basic db log = Raise e ->
  update_comic remote basic db log2 = Raise e.
Proof.
  unfold update_comic.
  destruct (_ <? _); [|discriminate].
  destruct (ComicData.from_basic_and_detailed _ _) as [comic_data|e1];
    simpl; [|exact (fun H => H)].
  destruct (ComicData.save_to_db comic_data db) as [db1|e2];
    simpl; [discriminate | exact (fun H => H)].
Qed.

(** Page counts never go down in a turn, and after it the comic of the
    turn has at least the reported number of pages. *)
Lemma update_comic_page_count (remote : Remote) (basic : BasicComicData.t)
      (db db' : Database) (log log' : list new_pages_entry) :
  update_comic remote basic db log = Ok (db', log') ->
  (forall name, page_count db name <= page_count db' name)
  /\ BasicComicData.numberOfPages basic <= page_count db' (BasicComicData.name basic).
Proof.
  intros Hstep. apply update_comic_ok in Hstep.
  destruct Hstep as [(Hge & -> & _) | (Hlt & comic_data & Hfrom & Hsave)].
  - split; [intros; lia | exact Hge].
  - apply from_basic_and_detailed_ok in Hfrom. destruct Hfrom as (_ & Hname & Hpages).
    assert (forall name, page_count db' name
                         = page_count db name
                           + (if String.eqb (ComicData.name comic_data) name
                              then Py.len (new_page_rows comic_data) else 0)) as Hcount.
    { intros name. unfold page_count, Py.len.
      rewrite (save_to_db_pages_by_name _ _ _ name Hsave), length_app.
      destruct (String.eqb _ _); simpl; lia. }
    split.
    + intros name. rewrite Hcount. unfold Py.len.
      destruct (String.eqb _ _); lia.
    + rewrite Hcount, Hname, String.eqb_refl. unfold Py.len.
      rewrite new_page_rows_length, Hpages, pages_for_length.
      unfold page_count, Py.len in *. lia.
Qed.

(** The loop over a listing in two parts. *)
Lemma update_loop_app (remote : Remote) (before rest : list BasicComicData.t) :
  forall (db : Database) (log : list new_pages_entry),
    update_loop remote (before ++ rest) db log
    = match update_loop remote before db log with
      | (db', Ok log') => update_loop remote rest db' log'
      | (db', Raise e) => (db', Raise e)
      end.
Proof.
  induction before as [|basic before IH]; intros db log; simpl; [reflexivity|].
  destruct (update_comic remote basic db log) as [[db1 log1]|e];
    [apply IH | reflexivity].
Qed.

(** ** C1: a comic that grew *)

(** C1.  The claim: saving a comic that is already in the store replaces
    its pages and keywords, so that the stored page count becomes the
    reported one.  The code: [save_to_db] starts with a plain
    [INSERT INTO comics], which the unique [id] refuses; the cycle ends
    with [IntegrityError] and the comic is as before, its stored page
    count below the reported one. *)
Theorem update_db_grown_comic_raises
        (remote : Remote) (before rest : list BasicComicData.t)
        (basic : BasicComicData.t) (detailed : DetailedComicData.t)
        (db db' : Database) (log : list new_pages_entry) :
  get_all_comics remote = Some (before ++ basic :: rest) ->
  update_loop remote before db [] = (db', Ok log) ->
  In (BasicComicData.id basic) (map Comics.id (comics_table db')) ->
  page_count db' (BasicComicData.name basic) < BasicComicData.numberOfPages basic ->
  get_comic_data_by_name remote (BasicComicData.name basic) = Some detailed ->
  update_db remote db = (db', Raise IntegrityError)
  /\ page_count (fst (update_db remote db)) (BasicComicData.name basic)
     < BasicComicData.numberOfPages basic.
Proof.
  intros Hlist Hbefore Hid Hlt Hdetail.
  assert (update_db remote db = (db', Raise IntegrityError)) as Hrun.
  { unfold update_db. rewrite Hlist, update_loop_app, Hbefore. simpl.
    unfold update_comic. fold (page_count db' (BasicComicData.name basic)).
    pose proof Hlt as Hltb. apply Z.ltb_lt in Hltb. rewrite Hltb, Hdetail. simpl.
    unfold ComicData.save_to_db. simpl.
    rewrite insert_comic_taken by exact Hid. reflexivity. }
  split; [exact Hrun | rewrite Hrun; exact Hlt].
Qed.

Lemma update_db_grown_comic_raises_witness :
  update_db (Sample.remote [Sample.basic 1 "Fox Tales" "Bob" 3]) Sample.fox_tales
  = (Sample.fox_tales, Raise IntegrityError)
  /\ page_count (fst (update_db (Sample.remote [Sample.basic 1 "Fox Tales" "Bob" 3])
                                Sample.fox_tales))
                "Fox Tales"
     < 3.
Proof.
  apply (update_db_grown_comic_raises
           _ [] [] (Sample.basic 1 "Fox Tales" "Bob" 3) (Sample.detailed "Fox Tales")
           Sample.fox_tales Sample.fox_tales []);
    [reflexivity | reflexivity | vm_compute; left; reflexivity
     | reflexivity | reflexivity].
Defined.

(** ** Page numbers in the stores the Synchronizer can reach *)

Lemma range1_len {A} (l : list A) :
  Py.range1 (Py.len l) = map Z.of_nat (seq 1 (List.length l)).
Proof. unfold Py.range1, Py.len. rewrite Nat2Z.id. reflexivity. Qed.

Lemma pages_by_name_In (db : Database) (name : string) (p : Pages.row) :
  In p (Sql.pages_by_name db (SqlText name)) <->
  In p (pages_table db) /\ Pages.comic_name p = name.
Proof.
  unfold Sql.pages_by_name. rewrite filter_In. simpl.
  rewrite String.eqb_eq. reflexivity.
Qed.

Section SyncInvariant.

Variable entries : list BasicComicData.t.
Hypothesis entries_keyed : name_keyed entries.

Lemma update_comic_invariant (remote : Remote) (basic : BasicComicData.t)
      (db db' : Database) (log log' : list new_pages_entry) :
  In basic entries ->
  sync_invariant entries db ->
  update_comic remote basic db log = Ok (db', log') ->
  sync_invariant entries db'.
Proof.
  intros Hin [Hnum Hown] Hstep. apply update_comic_ok in Hstep.
  destruct Hstep as [(_ & -> & _) | (Hlt & comic_data & Hfrom & Hsave)];
    [split; assumption|].
  apply from_basic_and_detailed_ok in Hfrom. destruct Hfrom as (Hid & Hname & Hpages).
  destruct (save_to_db_ok _ _ _ Hsave) as (Hfresh & Hids & Hptable & _).
  (* nothing was filed under the name before *)
  assert (Sql.pages_by_name db (SqlText (BasicComicData.name basic)) = []) as Hnone.
  { destruct (Sql.pages_by_name db (SqlText (BasicComicData.name basic)))
      as [|p ps] eqn:Hp; [reflexivity|].
    assert (In p (Sql.pages_by_name db (SqlText (BasicComicData.name basic)))) as Hp'
        by (rewrite Hp; left; reflexivity).
    apply pages_by_name_In in Hp'. destruct Hp' as [Hp' Hpname].
    destruct (Hown p Hp') as (b & Hb & Hbname & Hbid).
    elim Hfresh. rewrite Hid.
    rewrite <- (entries_keyed b basic Hb Hin); [exact Hbid | congruence]. }
  split.
  - intros name. unfold page_numbers, page_count.
    rewrite (save_to_db_pages_by_name _ _ _ name Hsave).
    destruct (String.eqb_spec (ComicData.name comic_data) name) as [Heq|Hne].
    + rewrite <- Heq, Hname, Hnone. simpl.
      rewrite new_page_rows_numbers, range1_len, new_page_rows_length.
      reflexivity.
    + rewrite app_nil_r. apply Hnum.
  - intros p Hp. rewrite Hptable in Hp. apply in_app_or in Hp.
    destruct Hp as [Hp|Hp].
    + destruct (Hown p Hp) as (b & Hb & Hbname & Hbid).
      exists b. repeat split; try assumption.
      apply (Permutation_in _ (Permutation_sym Hids)). right. exact Hbid.
    + exists basic. repeat split; [exact Hin | |].
      * rewrite (new_page_rows_name _ _ Hp). symmetry. exact Hname.
      * apply (Permutation_in _ (Permutation_sym Hids)). left. exact Hid.
Qed.

Lemma update_loop_invariant (remote : Remote) (comics : list BasicComicData.t) :
  forall (db : Database) (log : list new_pages_entry),
    incl comics entries ->
    sync_invariant entries db ->
    sync_invariant entries (fst (update_loop remote comics db log)).
Proof.
  induction comics as [|basic rest IH]; intros db log Hincl Hinv; simpl; [exact Hinv|].
  destruct (update_comic remote basic db log) as [[db1 log1]|e] eqn:Hstep;
    [|exact Hinv].
  apply IH; [intros b Hb; apply Hincl; right; exact Hb|].
  apply (update_comic_invariant remote basic db db1 log log1);
    [apply Hincl; left; reflexivity | exact Hinv | exact Hstep].
Qed.

Lemma run_cycles_invariant (remotes : list Remote) :
  forall db,
    incl (listed remotes) entries ->
    sync_invariant entries db ->
    sync_invariant entries (run_cycles remotes db).
Proof.
  induction remotes as [|remote remotes IH]; intros db Hincl Hinv; [exact Hinv|].
  simpl in Hincl. unfold run_cycles. simpl. apply IH.
  - intros b Hb. apply Hincl, in_or_app. right. exact Hb.
  - unfold update_db.
    destruct (get_all_comics remote) as [comics|] eqn:Hlist; [|exact Hinv].
    apply update_loop_invariant; [|exact Hinv].
    intros b Hb. apply Hincl, in_or_app. left. exact Hb.
Qed.

End SyncInvariant.

Lemma sync_invariant_create (entries : list BasicComicData.t) :
  sync_invariant entries create_database.
Proof. split; [reflexivity | intros p []]. Qed.

Lemma save_to_db_rows (self : ComicData.t) (db db' : Database) :
  ComicData.save_to_db self db = Ok db' ->
  exists row,
    Comics.id row = ComicData.id self
    /\ Comics.name row = ComicData.name self
    /\ Permutation (comics_table db') (row :: comics_table db).
Proof.
  unfold ComicData.save_to_db.
  destruct (Sql.insert_comic _ (comics_table db)) as [comics'|e] eqn:Hins;
    simpl; [|discriminate].
  intros [= <-]. simpl. apply insert_comic_ok in Hins.
  eexists. split; [|split; [|exact (proj2 Hins)]]; reflexivity.
Qed.

Lemma update_comic_rows_listed (entries : list BasicComicData.t) (remote : Remote)
      (basic : BasicComicData.t) (db db' : Database)
      (log log' : list new_pages_entry) :
  In basic entries ->
  rows_listed entries db ->
  update_comic remote basic db log = Ok (db', log') ->
  rows_listed entries db'.
Proof.
  intros Hin [Hnodup Hrows] Hstep. apply update_comic_ok in Hstep.
  destruct Hstep as [(_ & -> & _) | (_ & comic_data & Hfrom & Hsave)];
    [split; assumption|].
  apply from_basic_and_detailed_ok in Hfrom. destruct Hfrom as (Hid & Hname & _).
  destruct (save_to_db_ok _ _ _ Hsave) as (Hfresh & Hids & _).
  destruct (save_to_db_rows _ _ _ Hsave) as (row & Hrid & Hrname & Hperm).
  split.
  - apply (Permutation_NoDup (Permutation_sym Hids)).
    constructor; assumption.
  - intros r Hr. apply (Permutation_in _ Hperm) in Hr. destruct Hr as [<-|Hr].
    + exists basic. repeat split; [exact Hin | congruence | congruence].
    + apply Hrows, Hr.
Qed.

Lemma update_loop_rows_listed (entries : list BasicComicData.t) (remote : Remote)
      (comics : list BasicComicData.t) :
  forall (db : Database) (log : list new_pages_entry),
    incl comics entries ->
    rows_listed entries db ->
    rows_listed entries (fst (update_loop remote comics db log)).
Proof.
  induction comics as [|basic rest IH]; intros db log Hincl Hinv; simpl; [exact Hinv|].
  destruct (update_comic remote basic db log) as [[db1 log1]|e] eqn:Hstep;
    [|exact Hinv].
  apply IH; [intros b Hb; apply Hincl; right; exact Hb|].
  apply (update_comic_rows_listed entries remote basic db db1 log log1);
    [apply Hincl; left; reflexivity | exact Hinv | exact Hstep].
Qed.

Lemma run_cycles_rows_listed (entries : list BasicComicData.t)
      (remotes : list Remote) :
  forall db,
    incl (listed remotes) entries ->
    rows_listed entries db ->
    rows_listed entries (run_cycles remotes db).
Proof.
  induction remotes as [|remote remotes IH]; intros db Hincl Hinv; [exact Hinv|].
  simpl in Hincl. unfold run_cycles. simpl. apply IH.
  - intros b Hb. apply Hincl, in_or_app. right. exact Hb.
  - unfold update_db.
    destruct (get_all_comics remote) as [comics|] eqn:Hlist; [|exact Hinv].
    apply update_loop_rows_listed; [|exact Hinv].
    intros b Hb. apply Hincl, in_or_app. left. exact Hb.
Qed.

Lemma NoDup_map_through {A B C} (f : A -> B) (g : A -> C) (l : list A) :
  (forall x y, In x l -> In y l -> g x = g y -> f x = f y) ->
  NoDup (map f l) -> NoDup (map g l).
Proof.
  induction l as [|x l IH]; intros Hfg Hnodup; simpl; [constructor|].
  simpl in Hnodup. inversion Hnodup as [|? ? Hfresh Hrest]; subst.
  constructor.
  - intros Hin. apply in_map_iff in Hin. destruct Hin as [y [Hy Hyl]].
    apply Hfresh. rewrite <- (Hfg y x); [apply in_map; exact Hyl | | | exact Hy].
    + right; exact Hyl.
    + left; reflexivity.
  - apply IH; [|exact Hrest].
    intros y z Hy Hz. apply Hfg; right; assumption.
Qed.

(** When every listing reports a name under a single id, the stores the
    Synchronizer reaches hold each name once. *)
Lemma reachable_names_distinct (remotes : list Remote) :
  name_keyed (listed remotes) ->
  NoDup (map Comics.name (comics_table (run_cycles remotes create_database))).
Proof.
  intros Hkeyed.
  destruct (run_cycles_rows_listed (listed remotes) remotes create_database
              (incl_refl _)) as [Hnodup Hrows].
  { split; [constructor | intros r []]. }
  apply (NoDup_map_through Comics.id Comics.name); [|exact Hnodup].
  intros r1 r2 H1 H2 Hname.
  destruct (Hrows r1 H1) as (b1 & Hb1 & Hn1 & Hi1).
  destruct (Hrows r2 H2) as (b2 & Hb2 & Hn2 & Hi2).
  rewrite <- Hi1, <- Hi2. apply Hkeyed; [exact Hb1 | exact Hb2 | congruence].
Qed.

Lemma NoDup_range (n : nat) : NoDup (map Z.of_nat (seq 1 n)).
Proof.
  generalize 1%nat. induction n as [|n IH]; intros start; simpl; constructor.
  - rewrite in_map_iff. intros [i [Hi Hin]]. apply in_seq in Hin. lia.
  - apply IH.
Qed.

Lemma In_range (n : nat) (k : Z) :
  In k (map Z.of_nat (seq 1 n)) <-> 1 <= k <= Z.of_nat n.
Proof.
  rewrite in_map_iff. split.
  - intros [i [<- Hi]]. apply in_seq in Hi. lia.
  - intros Hk. exists (Z.to_nat k). split; [lia | apply in_seq; lia].
Qed.

Lemma sync_invariant_contiguous (entries : list BasicComicData.t) (db : Database) :
  sync_invariant entries db -> contiguous_pages db.
Proof.
  intros [Hnum _] r Hr numbers.
  assert (numbers = map Z.of_nat (seq 1 (List.length numbers))) as Hshape.
  { subst numbers. rewrite (Hnum (Comics.name r)) at 1.
    unfold page_count, page_numbers. rewrite range1_len, length_map. reflexivity. }
  split; [rewrite Hshape; apply NoDup_range|].
  split; [intros k; rewrite Hshape at 1; apply In_range|].
  unfold ComicData.load_from_db, Sql.comic_by_name.
  destruct (find _ (comics_table db)) as [row|] eqn:Hfind.
  - eexists. split; [reflexivity|]. simpl.
    unfold Sql.page_urls_by_name, Py.len.
    rewrite length_map, order_by_length.
    subst numbers. unfold page_numbers. rewrite length_map. reflexivity.
  - exfalso. apply (find_none _ _ Hfind) in Hr. simpl in Hr.
    rewrite String.eqb_refl in Hr. discriminate.
Qed.

(** A first cycle finds "Fox Tales" under id 1 with two pages; a second
    one finds the name under id 2 with three pages.
    Two pages are fewer than three, the insert of id 2 goes through, and
    the pages are added to those on file: the numbers under "Fox Tales"
    are 1, 2, 1, 2, 3. *)
Lemma pages_not_contiguous_after_new_id :
  ~ contiguous_pages
      (run_cycles [Sample.remote [Sample.basic 1 "Fox Tales" "Bob" 2];
                   Sample.remote [Sample.basic 2 "Fox Tales" "Bob" 3]]
                  create_database).
Proof.
  intros H.
  match type of H with
  | contiguous_pages ?db =>
      destruct (comics_table db) as [|r rows] eqn:Hrows; [discriminate|];
      specialize (H r); rewrite Hrows in H; specialize (H (or_introl eq_refl));
      injection Hrows as <- _
  end.
  destruct H as [Hnodup _]. vm_compute in Hnodup.
  inversion Hnodup as [|? ? Hnotin _]. apply Hnotin. right. left. reflexivity.
Qed.

(** Where the listings report each comic name under a single id, a comic
    that has grown ends the cycle before anything is written, and the
    page numbers of every stored comic are [1..numberOfPages], without
    gap or duplicate, in every store reached from the empty database. *)
Theorem reachable_pages_contiguous (remotes : list Remote) :
  name_keyed (listed remotes) ->
  contiguous_pages (run_cycles remotes create_database).
Proof.
  intros Hkeyed.
  apply (sync_invariant_contiguous (listed remotes)).
  apply run_cycles_invariant;
    [exact Hkeyed | apply incl_refl | apply sync_invariant_create].
Qed.

Lemma reachable_pages_contiguous_witness :
  contiguous_pages
    (run_cycles [Sample.remote [Sample.basic 1 "Fox Tales" "Bob" 2];
                 Sample.remote [Sample.basic 1 "Fox Tales" "Bob" 2;
                                Sample.basic 2 "Wolf Tales" "Ann" 1]]
                create_database).
Proof.
  apply reachable_pages_contiguous.
  intros b1 b2 H1 H2.
  vm_compute in H1, H2.
  destruct H1 as [<-|[<-|[<-|[]]]], H2 as [<-|[<-|[<-|[]]]];
    vm_compute; intros Hname; (reflexivity || discriminate).
Defined.

(** ** C4: a second cycle against the same remote *)

(** Running the loop again from the store it produced changes nothing:
    the comics it got through are skipped, and the turn that raised, if
    any, raises again. *)
Lemma update_loop_again (remote : Remote) (comics : list BasicComicData.t) :
  forall (db db' : Database) (log : list new_pages_entry)
         (outcome : result (list new_pages_entry)),
    update_loop remote comics db log = (db', outcome) ->
    (forall name, page_count db name <= page_count db' name)
    /\ forall log2,
        update_loop remote comics db' log2
        = (db', match outcome with
                | Ok _ => Ok log2
                | Raise e => Raise e
                end).
Proof.
  induction comics as [|basic rest IH]; intros db db' log outcome Hrun; simpl in Hrun.
  - injection Hrun as <- <-. split; [intros; lia | reflexivity].
  - destruct (update_comic remote basic db log) as [[db1 log1]|e] eqn:Hstep.
    + destruct (update_comic_page_count _ _ _ _ _ _ Hstep) as [Hmono Hreached].
      destruct (IH _ _ _ _ Hrun) as [Hmono' Hagain].
      split.
      * intros name. specialize (Hmono name). specialize (Hmono' name). lia.
      * intros log2. simpl.
        rewrite update_comic_skip; [apply Hagain|].
        specialize (Hmono' (BasicComicData.name basic)). lia.
    + injection Hrun as <- <-. split; [intros; lia|].
      intros log2. simpl.
      rewrite (update_comic_raise _ _ _ _ log2 _ Hstep). reflexivity.
Qed.

(** A cycle that got through its listing leaves every listed comic
    with at least the reported number of pages. *)
Lemma update_loop_settled (remote : Remote) (comics : list BasicComicData.t) :
  forall (db db' : Database) (log log' : list new_pages_entry),
    update_loop remote comics db log = (db', Ok log') ->
    (forall name, page_count db name <= page_count db' name)
    /\ forall basic, In basic comics ->
         BasicComicData.numberOfPages basic
           <= page_count db' (BasicComicData.name basic).
Proof.
  induction comics as [|basic rest IH]; intros db db' log log' Hrun; simpl in Hrun.
  - injection Hrun as <- _. split; [intros; lia | intros basic []].
  - destruct (update_comic remote basic db log) as [[db1 log1]|e] eqn:Hstep;
      [|discriminate].
    destruct (update_comic_page_count _ _ _ _ _ _ Hstep) as [Hmono Hreached].
    destruct (IH _ _ _ _ Hrun) as [Hmono' Hrest].
    split.
    + intros name. specialize (Hmono name). specialize (Hmono' name). lia.
    + intros b [<-|Hb]; [|apply Hrest, Hb].
      specialize (Hmono' (BasicComicData.name basic)). lia.
Qed.

(** A listing whose comics all have their pages is passed over. *)
Lemma update_loop_skip (remote : Remote) (comics : list BasicComicData.t)
      (db : Database) :
  (forall basic, In basic comics ->
     BasicComicData.numberOfPages basic <= page_count db (BasicComicData.name basic)) ->
  forall log, update_loop remote comics db log = (db, Ok log).
Proof.
  induction comics as [|basic rest IH]; intros Hall log; simpl; [reflexivity|].
  rewrite update_comic_skip by (apply Hall; left; reflexivity).
  apply IH. intros b Hb. apply Hall. right. exact Hb.
Qed.

(** C4.  A second synchronization against the same remote leaves the
    store, and so the row counts of its three tables, as the first one
    left it, whether or not the first one ended in an exception.  After
    a first cycle that got through its listing, the same holds for a
    second cycle against any remote with the same listing, whatever its
    detail endpoint answers.  A comic whose stored page count is at
    least the reported one is passed over without a write. *)
Theorem update_db_twice (remote : Remote) (db : Database) :
  let db1 := fst (update_db remote db) in
  let db2 := fst (update_db remote db1) in
  db2 = db1
  /\ row_counts db2 = row_counts db1
  /\ (forall remote' log,
        get_all_comics remote' = get_all_comics remote ->
        snd (update_db remote db) = Ok log ->
        update_db remote' db1 = (db1, Ok [])
        /\ row_counts (fst (update_db remote' db1)) = row_counts db1)
  /\ (forall basic store log,
        BasicComicData.numberOfPages basic
          <= page_count store (BasicComicData.name basic) ->
        update_comic remote basic store log = Ok (store, log)).
Proof.
  intros db1 db2.
  assert (db2 = db1) as Heq.
  { subst db2 db1. unfold update_db.
    destruct (get_all_comics remote) as [comics|]; [|reflexivity].
    destruct (update_loop remote comics db []) as [db' outcome] eqn:Hrun.
    simpl. destruct (update_loop_again _ _ _ _ _ _ Hrun) as [_ Hagain].
    rewrite Hagain. reflexivity. }
  split; [exact Heq|]. split; [rewrite Heq; reflexivity|]. split.
  - intros remote' log Hsame Hok.
    assert (update_db remote' db1 = (db1, Ok [])) as Hagain.
    { subst db1. unfold update_db in *. rewrite Hsame.
      destruct (get_all_comics remote) as [comics|]; [|discriminate].
      destruct (update_loop remote comics db []) as [db' outcome] eqn:Hrun.
      simpl in Hok. subst outcome. simpl.
      apply update_loop_skip.
      apply (update_loop_settled _ _ _ _ _ _ Hrun). }
    split; [exact Hagain | rewrite Hagain; reflexivity].
  - intros basic store log. apply update_comic_skip.
Qed.

Lemma update_db_twice_witness :
  update_comic (Sample.remote [Sample.basic 1 "Fox Tales" "Bob" 2])
               (Sample.basic 1 "Fox Tales" "Bob" 2) Sample.fox_tales []
  = Ok (Sample.fox_tales, [])
  /\ update_db (Sample.remote_without "Fox Tales" [Sample.basic 1 "Fox Tales" "Bob" 2])
               Sample.fox_tales
     = (Sample.fox_tales, Ok []).
Proof.
  split.
  - apply (proj2 (proj2 (proj2 (update_db_twice
                                  (Sample.remote [Sample.basic 1 "Fox Tales" "Bob" 2])
                                  create_database)))).
    vm_compute. discriminate.
  - apply (proj1 (proj2 (proj2 (update_db_twice
                                  (Sample.remote [Sample.basic 1 "Fox Tales" "Bob" 2])
                                  create_database)))
                 (Sample.remote_without "Fox Tales" [Sample.basic 1 "Fox Tales" "Bob" 2])
                 [("Fox Tales", 0, 2)] eq_refl eq_refl).
Defined.

(** ** C6: a failed detail request during a cycle *)

(** C6.  The claim: when the detail request for one comic fails, that
    comic is skipped and the cycle goes on with the remaining comics.
    The code: [get_comic_data_by_name] returns [None], and
    [from_basic_and_detailed] raises [AttributeError] at
    [detailed.rating]; the cycle ends there, with the store as the
    comics before the failing one left it, and no remaining comic is
    visited. *)
Theorem update_db_detail_failure_ends_cycle
        (remote : Remote) (before rest : list BasicComicData.t)
        (basic : BasicComicData.t) (db db' : Database)
        (log : list new_pages_entry) :
  get_all_comics remote = Some (before ++ basic :: rest) ->
  update_loop remote before db [] = (db', Ok log) ->
  page_count db' (BasicComicData.name basic) < BasicComicData.numberOfPages basic ->
  get_comic_data_by_name remote (BasicComicData.name basic) = None ->
  update_db remote db = (db', Raise AttributeError).
Proof.
  intros Hlist Hbefore Hlt Hdetail. unfold update_db.
  rewrite Hlist, update_loop_app, Hbefore. simpl.
  unfold update_comic. fold (page_count db' (BasicComicData.name basic)).
  apply Z.ltb_lt in Hlt. rewrite Hlt, Hdetail. reflexivity.
Qed.

Lemma update_db_detail_failure_ends_cycle_witness :
  update_db (Sample.remote_without "Gone"
               [Sample.basic 1 "Fox Tales" "Bob" 2; Sample.basic 2 "Gone" "Ann" 3;
                Sample.basic 3 "Wolf Tales" "Ann" 1])
            create_database
  = (Sample.fox_tales, Raise AttributeError).
Proof.
  apply (update_db_detail_failure_ends_cycle
           _ [Sample.basic 1 "Fox Tales" "Bob" 2] [Sample.basic 3 "Wolf Tales" "Ann" 1]
           (Sample.basic 2 "Gone" "Ann" 3) create_database Sample.fox_tales
           [("Fox Tales", 0, 2)]);
    reflexivity.
Defined.

(** ** Hydration by name *)

Lemma for_each_map {A B C} (f : B -> result C) (h : A -> B) (xs : list A) :
  for_each f (map h xs) = for_each (fun x => f (h x)) xs.
Proof.
  induction xs as [|x xs IH]; simpl; [reflexivity | rewrite IH; reflexivity].
Qed.

Lemma for_each_Forall2 {A B} (f : A -> result B) (xs : list A) :
  (forall x, In x xs -> exists y, f x = Ok y) ->
  exists ys, for_each f xs = Ok ys /\ Forall2 (fun x y => f x = Ok y) xs ys.
Proof.
  induction xs as [|x xs IH]; intros Hf; simpl.
  - exists []. split; [reflexivity | constructor].
  - destruct (Hf x (or_introl eq_refl)) as [y Hy].
    destruct IH as [ys [Hys Hall]]; [intros z Hz; apply Hf; right; exact Hz|].
    exists (y :: ys). rewrite Hy, Hys. split; [reflexivity|].
    constructor; assumption.
Qed.

(** A name that some row carries is found, at the first such row. *)
Lemma comic_by_name_present (db : Database) (name : string) :
  In name (map Comics.name (comics_table db)) ->
  exists row, Sql.comic_by_name db (SqlText name) = Some row
              /\ In row (comics_table db) /\ Comics.name row = name.
Proof.
  intros Hin. unfold Sql.comic_by_name. simpl.
  destruct (find _ (comics_table db)) as [row|] eqn:Hfind.
  - exists row. apply find_some in Hfind. destruct Hfind as [Hrow Heq].
    apply String.eqb_eq in Heq. repeat split; assumption.
  - apply in_map_iff in Hin. destruct Hin as [r [Hname Hr]].
    apply (find_none _ _ Hfind) in Hr. simpl in Hr.
    rewrite Hname, String.eqb_refl in Hr. discriminate.
Qed.

(** When names are distinct, the row found under a row's name is that
    row. *)
Lemma comic_by_name_unique (db : Database) (r : Comics.row) :
  NoDup (map Comics.name (comics_table db)) ->
  In r (comics_table db) ->
  Sql.comic_by_name db (SqlText (Comics.name r)) = Some r.
Proof.
  unfold Sql.comic_by_name. simpl.
  induction (comics_table db) as [|r' table IH]; intros Hnodup Hin; [destruct Hin|].
  simpl in *. inversion Hnodup as [|? ? Hfresh Hrest]; subst.
  destruct Hin as [->|Hin].
  - rewrite String.eqb_refl. reflexivity.
  - destruct (String.eqb_spec (Comics.name r') (Comics.name r)) as [Heq|_].
    + elim Hfresh. rewrite Heq. apply in_map. exact Hin.
    + apply IH; assumption.
Qed.

(** ** C5: looking up a name that is not in the store *)

(** C5.  The claim: for a name absent from the store the point lookup
    returns an explicit absent result and raises nothing.  The code:
    [fetchone()] returns [None] and [comic_data[0]] raises [TypeError],
    for every store and every absent name, although the callers in
    [bot.py] test the result against [None]. *)
Theorem load_from_db_absent_name_raises (db : Database) (name : string) :
  (forall r, In r (comics_table db) -> Comics.name r <> name) ->
  ComicData.load_from_db db (SqlText name) = Raise TypeError.
Proof. intros H. apply load_from_db_raises. exact H. Qed.

Lemma load_from_db_absent_name_raises_witness :
  ComicData.load_from_db Sample.fox_tales (SqlText "Wolf Tales") = Raise TypeError.
Proof.
  apply load_from_db_absent_name_raises.
  intros r Hin. vm_compute in Hin.
  destruct Hin as [<-|[]]. vm_compute. discriminate.
Defined.

(** ** C2: what the searches hand to [load_from_db] *)

(** C2.  The claim: every search returns fully hydrated records for the
    keys it matched; the search by keyword set returns the distinct
    comics with one of the keywords.  The code: [search_by_keywords]
    passes each matching comic [id] to [load_from_db], which looks the
    value up in the [name] column; unless some comic is named after the
    decimal text of the first id, the search raises [TypeError] instead
    of returning the matching comics. *)
Theorem search_by_keywords_raises
        (db : Database) (keywords : list string) (limit comic_id : Z)
        (rest : list Z) :
  Py.slice_to (Sql.ids_by_keywords db keywords) limit = comic_id :: rest ->
  (forall r, In r (comics_table db) -> Comics.name r <> Py.str comic_id) ->
  ComicData.search_by_keywords db keywords limit = Raise TypeError.
Proof.
  intros Hids Hname. unfold ComicData.search_by_keywords. rewrite Hids.
  apply for_each_raise. apply load_from_db_raises. exact Hname.
Qed.

Lemma search_by_keywords_raises_witness :
  ComicData.search_by_keywords Sample.fox_tales ["feral"] 10 = Raise TypeError.
Proof.
  apply (search_by_keywords_raises _ _ _ 1 []); [reflexivity|].
  intros r Hin. vm_compute in Hin.
  destruct Hin as [<-|[]]. vm_compute. discriminate.
Defined.

(** ** C7: the highest page number *)

Lemma round_div10_nearest (m : Z) :
  Z.abs (10 * Py.round_div10 m - m) <= 5
  /\ (Z.abs (10 * Py.round_div10 m - m) = 5 -> Z.even (Py.round_div10 m) = true).
Proof.
  unfold Py.round_div10.
  pose proof (Z.div_mod m 10 ltac:(lia)) as Hdm.
  pose proof (Z.mod_pos_bound m 10 ltac:(lia)) as Hb.
  destruct (Z.ltb_spec (m mod 10) 5); [split; lia|].
  destruct (Z.ltb_spec 5 (m mod 10)); [split; lia|].
  destruct (Z.even (m / 10)) eqn:Heven.
  - split; [lia | intros _; exact Heven].
  - split; [lia|]. intros _.
    rewrite Z.even_add, Heven. reflexivity.
Qed.

(** C7, counterexample.  With seven comics in the store the code answers
    [round(0.6) = 1] where the floor is [0]. *)
Lemma get_max_page_number_not_floor : ~ max_page_is_floor (Sample.store 7).
Proof. vm_compute. discriminate. Qed.

(** C7, amended.  The highest page number is [(totalComics - 1) / 10]
    rounded to the nearest integer, a tie going to the even neighbour;
    it is the floor exactly when the last digit of [totalComics - 1] is
    below five, or is five with an even floor; for 25 comics it is 2. *)
Theorem get_max_page_number_rounds (db : Database) :
  let total := Py.len (comics_table db) in
  let max_page := ComicData.get_max_page_number db in
  Z.abs (10 * max_page - (total - 1)) <= 5
  /\ (Z.abs (10 * max_page - (total - 1)) = 5 -> Z.even max_page = true)
  /\ (max_page_is_floor db
      <-> (total - 1) mod 10 < 5
          \/ ((total - 1) mod 10 = 5 /\ Z.even ((total - 1) / 10) = true))
  /\ (total = 25 -> max_page = 2).
Proof.
  intros total max_page. subst max_page.
  unfold max_page_is_floor, ComicData.get_max_page_number.
  fold total.
  destruct (round_div10_nearest (total - 1)) as [Hnear Htie].
  repeat split; try assumption.
  - unfold Py.round_div10.
    destruct (Z.ltb_spec ((total - 1) mod 10) 5); [intros _; left; assumption|].
    destruct (Z.ltb_spec 5 ((total - 1) mod 10)); [lia|].
    destruct (Z.even ((total - 1) / 10)); [intros _; right; split; [lia|reflexivity] | lia].
  - unfold Py.round_div10. intros [Hlt|[Heq Heven]].
    + apply Z.ltb_lt in Hlt. rewrite Hlt. reflexivity.
    + rewrite Heq, Heven. reflexivity.
  - intros ->. reflexivity.
Qed.

Lemma get_max_page_number_rounds_witness :
  ComicData.get_max_page_number (Sample.store 25) = 2.
Proof.
  apply (proj2 (proj2 (proj2 (get_max_page_number_rounds (Sample.store 25))))).
  vm_compute. reflexivity.
Defined.

(** ** C8: browsing by page *)




Lemma limit_offset_nonneg {A} (limit offset : Z) (l : list A) :
  0 <= limit ->
  Sql.limit_offset limit offset l
  = firstn (Z.to_nat limit) (skipn (Z.to_nat offset) l).
Proof.
  intros H. unfold Sql.limit_offset.
  destruct (Z.ltb_spec limit 0); [lia | reflexivity].
Qed.

Lemma limit_offset_incl {A} (limit offset : Z) (l : list A) (x : A) :
  In x (Sql.limit_offset limit offset l) -> In x l.
Proof.
  unfold Sql.limit_offset. intros H.
  assert (In x (skipn (Z.to_nat offset) l)) as Hskip.
  { destruct (limit <? 0); [exact H|].
    rewrite <- (firstn_skipn (Z.to_nat limit) (skipn (Z.to_nat offset) l)).
    apply in_or_app. left. exact H. }
  rewrite <- (firstn_skipn (Z.to_nat offset) l). apply in_or_app. right. exact Hskip.
Qed.

(** The search by page always returns, one record per selected name. *)
Lemma search_comics_by_page_returns (db : Database) (page limit : Z) :
  exists results,
    ComicData.search_comics_by_page db page limit = Ok results
    /\ List.length results
       = List.length (Sql.limit_offset limit ((page - 1) * limit) (Sql.by_rating db)).
Proof.
  unfold ComicData.search_comics_by_page, Sql.names_by_rating.
  destruct (for_each_Forall2
              (fun name => ComicData.load_from_db db (SqlText name))
              (map Comics.name
                   (Sql.limit_offset limit ((page - 1) * limit) (Sql.by_rating db))))
    as [results [Hres Hall]].
  - intros name Hin.
    assert (In name (map Comics.name (comics_table db))) as Hname.
    { apply in_map_iff in Hin. destruct Hin as [r [<- Hr]]. apply in_map.
      apply limit_offset_incl in Hr. apply order_by_In in Hr. exact Hr. }
    destruct (comic_by_name_present db name Hname) as [row [Hfind _]].
    unfold ComicData.load_from_db. rewrite Hfind. eexists. reflexivity.
  - exists results. split; [exact Hres|].
    apply Forall2_length in Hall. rewrite length_map in Hall. symmetry. exact Hall.
Qed.




(** ** The order of [get_close_matches] *)

Lemma ascii_compare_refl (a : ascii) : Ascii.compare a a = Eq.
Proof. unfold Ascii.compare. apply N.compare_refl. Qed.

Lemma string_compare_trans (s1 : string) :
  forall s2 s3,
    String.compare s1 s2 <> Gt -> String.compare s2 s3 <> Gt ->
    String.compare s1 s3 <> Gt.
Proof.
  induction s1 as [|a s1 IH]; intros [|b s2] [|c s3]; simpl; try congruence.
  destruct (Ascii.compare a b) eqn:Hab; try congruence;
    destruct (Ascii.compare b c) eqn:Hbc; try congruence.
  - apply Ascii.compare_eq_iff in Hab, Hbc. subst.
    rewrite ascii_compare_refl. apply IH.
  - apply Ascii.compare_eq_iff in Hab. subst. rewrite Hbc. congruence.
  - apply Ascii.compare_eq_iff in Hbc. subst. rewrite Hab. congruence.
  - unfold Ascii.compare in *. rewrite N.compare_lt_iff in Hab, Hbc.
    assert (N_of_ascii a < N_of_ascii c)%N as Hac by (eapply N.lt_trans; eassumption).
    apply N.compare_lt_iff in Hac. rewrite Hac. congruence.
Qed.

Lemma string_leb_trans (s1 s2 s3 : string) :
  String.leb s1 s2 = true -> String.leb s2 s3 = true -> String.leb s1 s3 = true.
Proof.
  unfold String.leb. intros H12 H23.
  pose proof (string_compare_trans s1 s2 s3) as Htrans.
  destruct (String.compare s1 s2); try discriminate;
    destruct (String.compare s2 s3); try discriminate;
    destruct (String.compare s1 s3); try reflexivity;
    exfalso; apply Htrans; congruence.
Qed.

Lemma Qeq_bool_false (x y : Q) : Qeq_bool x y = false -> ~ (x == y)%Q.
Proof. intros H Heq. apply Qeq_bool_iff in Heq. congruence. Qed.

Lemma Qle_bool_false (x y : Q) : Qle_bool x y = false -> (y < x)%Q.
Proof.
  intros H. apply Qnot_le_lt. intros Hle. apply Qle_bool_iff in Hle. congruence.
Qed.

Lemma scored_geb_total (p q : Q * string) :
  difflib.scored_geb p q = false -> difflib.scored_geb q p = true.
Proof.
  unfold difflib.scored_geb. destruct p as [a s], q as [b t]. simpl.
  destruct (Qeq_bool a b) eqn:Hab.
  - apply Qeq_bool_iff in Hab. symmetry in Hab. apply Qeq_bool_iff in Hab.
    rewrite Hab. intros H. destruct (String.leb_total s t) as [Hst|Hts]; congruence.
  - intros H. apply Qle_bool_false in H.
    destruct (Qeq_bool b a) eqn:Hba.
    + apply Qeq_bool_iff in Hba. symmetry in Hba. apply Qeq_bool_iff in Hba. congruence.
    + apply Qle_bool_iff, Qlt_le_weak. exact H.
Qed.

Lemma scored_geb_trans (p q r : Q * string) :
  difflib.scored_geb p q = true -> difflib.scored_geb q r = true ->
  difflib.scored_geb p r = true.
Proof.
  unfold difflib.scored_geb. destruct p as [a s], q as [b t], r as [c u]. simpl.
  destruct (Qeq_bool a b) eqn:Hab, (Qeq_bool b c) eqn:Hbc, (Qeq_bool a c) eqn:Hac;
    first [apply Qeq_bool_iff in Hab | apply Qeq_bool_false in Hab];
    first [apply Qeq_bool_iff in Hbc | apply Qeq_bool_false in Hbc];
    first [apply Qeq_bool_iff in Hac | apply Qeq_bool_false in Hac];
    intros H1 H2; try apply Qle_bool_iff in H1; try apply Qle_bool_iff in H2;
    try apply Qle_bool_iff.
  - exact (string_leb_trans _ _ _ H2 H1).
  - exfalso. apply Hac. rewrite Hab. exact Hbc.
  - exfalso. apply Hbc. rewrite <- Hab. exact Hac.
  - rewrite Hab. exact H2.
  - exfalso. apply Hab. rewrite Hac. symmetry. exact Hbc.
  - rewrite <- Hbc. exact H1.
  - exfalso. apply Hbc. apply Qle_antisym; [rewrite <- Hac; exact H1 | exact H2].
  - exact (Qle_trans _ _ _ H2 H1).
Qed.

Lemma scored_geb_le (p q : Q * string) :
  difflib.scored_geb p q = true -> (fst q <= fst p)%Q.
Proof.
  unfold difflib.scored_geb. destruct (Qeq_bool (fst p) (fst q)) eqn:Heq.
  - intros _. apply Qeq_bool_iff in Heq. rewrite Heq. apply Qle_refl.
  - apply Qle_bool_iff.
Qed.

Lemma StronglySorted_map_inv {A B} (f : A -> B) (R : B -> B -> Prop) (l : list A) :
  StronglySorted R (map f l) -> StronglySorted (fun x y => R (f x) (f y)) l.
Proof.
  induction l as [|x l IH]; simpl; intros H; [constructor|].
  inversion H as [|? ? Hl Hx]; subst. constructor; [apply IH; exact Hl|].
  rewrite Forall_forall in *. intros y Hy. apply Hx, in_map, Hy.
Qed.

Lemma StronglySorted_weaken {A} (R R' : A -> A -> Prop) (l : list A) :
  (forall x y, In x l -> In y l -> R x y -> R' x y) ->
  StronglySorted R l -> StronglySorted R' l.
Proof.
  intros Himp H. induction H as [|x l Hl IH Hx]; constructor.
  - apply IH. intros y z Hy Hz. apply Himp; right; assumption.
  - rewrite Forall_forall in *. intros y Hy.
    apply Himp; [left; reflexivity | right; exact Hy | apply Hx, Hy].
Qed.

Lemma Forall2_map_back {A B} (P : A -> B -> Prop) (f : B -> A)
      (xs : list A) (ys : list B) :
  (forall x y, P x y -> f y = x) -> Forall2 P xs ys -> map f ys = xs.
Proof.
  intros Hf H. induction H as [|x y xs ys Hxy _ IH]; simpl; [reflexivity|].
  rewrite (Hf x y Hxy), IH. reflexivity.
Qed.

(** What [get_close_matches] returns for a positive [n] and a cutoff in
    [0, 1]: names of the list whose similarity is at least the cutoff,
    at most [n] of them, in descending order of similarity; a name that
    reaches the cutoff and is missing is no more similar than those
    that are there, and none is missing when fewer than [n] are there. *)
Lemma get_close_matches_ok (word : string) (possibilities : list string)
      (n : Z) (cutoff : Q) :
  0 < n -> (0 <= cutoff)%Q -> (cutoff <= 1)%Q ->
  exists matches,
    difflib.get_close_matches word possibilities n cutoff = Ok matches
    /\ Py.len matches <= n
    /\ (forall x, In x matches ->
          In x possibilities /\ (cutoff <= difflib.similarity word x)%Q)
    /\ StronglySorted (fun x y => (difflib.similarity word y
                                   <= difflib.similarity word x)%Q) matches
    /\ (forall x y, In x possibilities ->
          (cutoff <= difflib.similarity word x)%Q ->
          ~ In x matches -> In y matches ->
          (difflib.similarity word x <= difflib.similarity word y)%Q)
    /\ (Py.len matches < n ->
        forall x, In x possibilities ->
          (cutoff <= difflib.similarity word x)%Q -> In x matches).
Proof.
  intros Hn Hc0 Hc1. unfold difflib.get_close_matches.
  apply Z.ltb_lt in Hn. rewrite Hn. apply Z.ltb_lt in Hn.
  apply Qle_bool_iff in Hc0, Hc1. rewrite Hc0, Hc1. simpl.
  set (scored := map (fun x => (difflib.similarity word x, x))
                     (filter (difflib.close_enough cutoff word) possibilities)).
  unfold difflib.nlargest.
  set (sorted := Sql.order_by difflib.scored_geb scored).
  assert (StronglySorted (fun p q => difflib.scored_geb p q = true) sorted) as Hsorted.
  { apply order_by_sorted; [apply scored_geb_total | apply scored_geb_trans]. }
  assert (forall p, In p sorted <->
                    fst p = difflib.similarity word (snd p)
                    /\ In (snd p) possibilities
                    /\ (cutoff <= difflib.similarity word (snd p))%Q) as Hin.
  { intros p. unfold sorted. rewrite order_by_In. unfold scored.
    rewrite in_map_iff. split.
    - intros [x [<- Hx]]. apply filter_In in Hx. simpl.
      rewrite <- close_enough_ratio. tauto.
    - intros (Hsim & Hposs & Hclose). exists (snd p). split.
      + destruct p as [s x]. simpl in *. congruence.
      + apply filter_In. rewrite close_enough_ratio. split; assumption. }
  assert (forall p, In p (firstn (Z.to_nat n) sorted) -> In p sorted) as Hfirst.
  { intros p Hp. rewrite <- (firstn_skipn (Z.to_nat n) sorted).
    apply in_or_app. left. exact Hp. }
  eexists. split; [reflexivity|].
  split; [|split; [|split; [|split]]].
  - unfold Py.len. rewrite length_map, length_firstn. lia.
  - intros x Hx. apply in_map_iff in Hx. destruct Hx as [p [<- Hp]].
    apply Hin, Hfirst, Hp.
  - apply StronglySorted_map.
    apply (StronglySorted_weaken (fun p q => difflib.scored_geb p q = true)).
    + intros p q Hp Hq Hpq. apply scored_geb_le in Hpq.
      apply Hfirst, Hin in Hp. apply Hfirst, Hin in Hq.
      destruct Hp as [<- _], Hq as [<- _]. exact Hpq.
    + apply StronglySorted_firstn. exact Hsorted.
  - intros x y Hx Hclose Hmissing Hy.
    apply in_map_iff in Hy. destruct Hy as [q [<- Hq]].
    assert (In (difflib.similarity word x, x) sorted) as Hp
        by (apply Hin; simpl; tauto).
    rewrite <- (firstn_skipn (Z.to_nat n) sorted) in Hp. apply in_app_or in Hp.
    destruct Hp as [Hp|Hp].
    + elim Hmissing. apply in_map_iff. exists (difflib.similarity word x, x).
      split; [reflexivity | exact Hp].
    + pose proof (StronglySorted_firstn_skipn _ (Z.to_nat n) sorted Hsorted _ _ Hq Hp)
        as Hge.
      apply scored_geb_le in Hge. simpl in Hge.
      apply Hfirst, Hin in Hq. destruct Hq as [<- _]. exact Hge.
  - intros Hfew x Hx Hclose.
    unfold Py.len in Hfew. rewrite length_map, length_firstn in Hfew.
    rewrite firstn_all2 by lia.
    apply in_map_iff. exists (difflib.similarity word x, x).
    split; [reflexivity | apply Hin; simpl; tauto].
Qed.

(** ** C9: searching by name *)

(** C9, counterexample.  The query "abcdefghij" becomes "Abcdefghij",
    whose similarity to the stored name "Abc0000000" is 2 * 3 / 20,
    the cutoff itself; the comic is returned.  And with [limit = 0]
    [get_close_matches] raises [ValueError] instead of returning an
    empty sequence. *)
Lemma search_comics_by_name_at_cutoff :
  ~ name_search_exceeds_cutoff Sample.abc "abcdefghij" 10
  /\ ~ name_search_exceeds_cutoff Sample.abc "abcdefghij" 0.
Proof.
  split; intros (results & Hres & _ & Habove & _).
  - vm_compute in Hres. injection Hres as <-.
    specialize (Habove _ (or_introl eq_refl)).
    vm_compute in Habove. discriminate.
  - vm_compute in Hres. discriminate.
Qed.

(** C9, amended.  For a positive [limit], searching by name title-cases
    the query, scores every stored name against it, and returns at most
    [limit] records, each the fully loaded record of a stored comic
    whose similarity is at least 0.3, in descending order of similarity;
    a stored name that reaches 0.3 and is left out is no more similar
    than those returned, and none is left out when fewer than [limit]
    are returned.  When every stored name has a similarity below 0.3
    the result is the empty sequence. *)
Theorem search_comics_by_name_at_least_cutoff
        (db : Database) (query : string) (limit : Z) :
  0 < limit ->
  exists results,
    ComicData.search_comics_by_name db query limit = Ok results
    /\ Py.len results <= limit
    /\ (forall c, In c results ->
          (exists row, In row (comics_table db) /\ c = record_of db row)
          /\ (3 # 10 <= name_similarity query (ComicData.name c))%Q)
    /\ similarity_descending query results
    /\ (forall name c,
          In name (map Comics.name (comics_table db)) ->
          (3 # 10 <= name_similarity query name)%Q ->
          ~ In name (map ComicData.name results) ->
          In c results ->
          (name_similarity query name <= name_similarity query (ComicData.name c))%Q)
    /\ (Py.len results < limit ->
        forall name,
          In name (map Comics.name (comics_table db)) ->
          (3 # 10 <= name_similarity query name)%Q ->
          In name (map ComicData.name results))
    /\ ((forall name, In name (map Comics.name (comics_table db)) ->
                      (name_similarity query name < 3 # 10)%Q) ->
        results = []).
Proof.
  intros Hlimit. unfold ComicData.search_comics_by_name.
  destruct (get_close_matches_ok (Py.title query)
                                 (map Comics.name (comics_table db)) limit (3 # 10)
                                 Hlimit)
    as (matches & Hmatches & Hlen & Hfrom & Hsorted & Hbest & Hall_in);
    [discriminate | discriminate |].
  rewrite Hmatches. simpl.
  destruct (for_each_Forall2
              (fun comic_name => ComicData.load_from_db db (SqlText comic_name))
              matches) as (results & Hres & Hall).
  { intros name Hname. apply Hfrom in Hname. destruct Hname as [Hname _].
    destruct (comic_by_name_present db name Hname) as (row & Hfind & _).
    unfold ComicData.load_from_db. rewrite Hfind. eexists. reflexivity. }
  assert (forall name c,
             ComicData.load_from_db db (SqlText name) = Ok c ->
             ComicData.name c = name
             /\ exists row, In row (comics_table db) /\ c = record_of db row)
    as Hload.
  { intros name c. unfold ComicData.load_from_db, Sql.comic_by_name. simpl.
    destruct (find _ (comics_table db)) as [row|] eqn:Hfind; [|discriminate].
    apply find_some in Hfind. destruct Hfind as [Hrow Heq].
    apply String.eqb_eq in Heq. intros [= <-]. split; [exact Heq|].
    exists row. split; [exact Hrow|]. unfold record_of. rewrite Heq. reflexivity. }
  assert (map ComicData.name results = matches) as Hnames.
  { apply (Forall2_map_back _ _ _ _ (fun x y H => proj1 (Hload x y H)) Hall). }
  exists results. split.
  { destruct matches as [|m ms]; [|exact Hres].
    inversion Hall. reflexivity. }
  assert (Py.len results = Py.len matches) as Hsame
      by (unfold Py.len; rewrite <- Hnames, length_map; reflexivity).
  split; [|split; [|split; [|split; [|split]]]].
  - rewrite Hsame. exact Hlen.
  - intros c Hc.
    assert (In (ComicData.name c) matches) as Hm
        by (rewrite <- Hnames; apply in_map; exact Hc).
    split; [|exact (proj2 (Hfrom _ Hm))].
    clear - Hall Hload Hc.
    induction Hall as [|x y xs ys Hxy _ IH]; [destruct Hc|].
    destruct Hc as [->|Hc]; [exact (proj2 (Hload _ _ Hxy)) | apply IH, Hc].
  - apply (StronglySorted_map_inv
             ComicData.name
             (fun x y => (name_similarity query y <= name_similarity query x)%Q)).
    rewrite Hnames. exact Hsorted.
  - intros name c Hname Hclose Hmissing Hc. rewrite Hnames in Hmissing.
    apply (Hbest name (ComicData.name c) Hname Hclose Hmissing).
    rewrite <- Hnames. apply in_map. exact Hc.
  - intros Hfew name Hname Hclose. rewrite Hnames.
    apply Hall_in; [rewrite <- Hsame; exact Hfew | exact Hname | exact Hclose].
  - intros Hlow. destruct results as [|c results']; [reflexivity|]. exfalso.
    assert (In (ComicData.name c) matches) as Hm
        by (rewrite <- Hnames; left; reflexivity).
    destruct (Hfrom _ Hm) as [Hname Hclose].
    apply (Qlt_not_le _ _ (Hlow _ Hname)). exact Hclose.
Qed.

Lemma search_comics_by_name_at_least_cutoff_witness :
  (exists results,
      ComicData.search_comics_by_name Sample.fox_tales "zzzzqx" 10 = Ok results
      /\ results = [])
  /\ (exists results,
         ComicData.search_comics_by_name Sample.fox_tales "foks" 10 = Ok results
         /\ Py.len results <= 10).
Proof.
  split.
  - destruct (search_comics_by_name_at_least_cutoff Sample.fox_tales "zzzzqx" 10)
      as (results & Hres & _ & _ & _ & _ & _ & Hempty); [lia|].
    exists results. split; [exact Hres|]. apply Hempty.
    intros name Hin. vm_compute in Hin. destruct Hin as [<-|[]].
    vm_compute. reflexivity.
  - destruct (search_comics_by_name_at_least_cutoff Sample.fox_tales "foks" 10)
      as (results & Hres & Hlen & _); [lia|].
    exists results. split; assumption.
Defined.

(** ** C10: the searches by artist, category and tag *)

(** Where an id is also the name of a comic, the search returns that
    comic.  Comics 1 ("Fox Tales") and 2 (named "1") are both by Bob.
    Both matches "Bob" resolve to id 1, the first row; the id is then
    looked up as a name, and the comic named "1", the second row, is
    what the search returns, twice. *)
Lemma search_comics_by_artist_returns_second_row :
  ~ artist_search_first_rows Sample.bob_twice "Bob" 10.
Proof.
  intros H.
  destruct (ComicData.search_comics_by_artist Sample.bob_twice "Bob" 10)
    as [results|e] eqn:Hres; [|vm_compute in Hres; discriminate].
  specialize (H results Hres).
  vm_compute in Hres. injection Hres as <-.
  destruct (H _ (or_introl eq_refl)) as (row & Hfirst & Hid).
  unfold first_row in Hfirst.
  assert (In row (comics_table Sample.bob_twice)) as Hrow
      by (apply find_some in Hfirst; tauto).
  vm_compute in Hrow. destruct Hrow as [<-|[<-|[]]].
  - vm_compute in Hid. discriminate.
  - vm_compute in Hfirst. discriminate.
Qed.

Lemma find_map {A B} (f : B -> bool) (g : A -> B) (l : list A) :
  find f (map g l) = option_map g (find (fun x => f (g x)) l).
Proof.
  induction l as [|x l IH]; simpl; [reflexivity|].
  destruct (f (g x)); [reflexivity | exact IH].
Qed.

Lemma first_id_table (column : Comics.row -> string) (db : Database)
      (value : string) :
  ComicData.first_id (map (fun r => (Comics.id r, column r)) (comics_table db)) value
  = option_map Comics.id
               (find (fun r => String.eqb (column r) value) (comics_table db)).
Proof.
  unfold ComicData.first_id. rewrite find_map.
  destruct (find _ (comics_table db)); reflexivity.
Qed.

(** The ids handed to [load_from_db]: at most one for each match, never
    [0], and each the id of the first row with a matched value. *)
Lemma resolved_ids_first (column : Comics.row -> string) (db : Database)
      (matches : list string) :
  let ids := ComicData.resolved_ids
               (map (fun r => (Comics.id r, column r)) (comics_table db)) matches in
  (List.length ids <= List.length matches)%nat
  /\ forall comic_id, In comic_id ids ->
       comic_id <> 0
       /\ exists row, first_row column db row
                      /\ In (column row) matches
                      /\ Comics.id row = comic_id.
Proof.
  induction matches as [|value matches IH]; simpl.
  - split; [apply Nat.le_refl | intros comic_id []].
  - destruct IH as [IHlen IHin]. rewrite first_id_table.
    destruct (find (fun r => String.eqb (column r) value) (comics_table db))
      as [row|] eqn:Hfind; simpl.
    + destruct (Z.eqb_spec (Comics.id row) 0) as [Hzero|Hnonzero]; simpl.
      * split; [lia|]. intros comic_id Hin.
        destruct (IHin comic_id Hin) as (Hnz & r & Hr & Hm & Hid).
        split; [exact Hnz|]. exists r. tauto.
      * split; [lia|]. intros comic_id [<-|Hin].
        -- split; [exact Hnonzero|]. exists row.
           pose proof (find_some _ _ Hfind) as [_ Hvalue].
           apply String.eqb_eq in Hvalue.
           unfold first_row. rewrite Hvalue. tauto.
        -- destruct (IHin comic_id Hin) as (Hnz & r & Hr & Hm & Hid).
           split; [exact Hnz|]. exists r. tauto.
    + split; [lia|]. intros comic_id Hin.
      destruct (IHin comic_id Hin) as (Hnz & r & Hr & Hm & Hid).
      split; [exact Hnz|]. exists r. tauto.
Qed.

Lemma unique_id_row (db : Database) (r1 r2 : Comics.row) :
  NoDup (map Comics.id (comics_table db)) ->
  In r1 (comics_table db) -> In r2 (comics_table db) ->
  Comics.id r1 = Comics.id r2 -> r1 = r2.
Proof.
  induction (comics_table db) as [|r table IH]; intros Hnodup H1 H2 Hid;
    [destruct H1|].
  simpl in Hnodup. inversion Hnodup as [|? ? Hfresh Hrest]; subst.
  destruct H1 as [->|H1], H2 as [->|H2].
  - reflexivity.
  - elim Hfresh. rewrite Hid. apply in_map. exact H2.
  - elim Hfresh. rewrite <- Hid. apply in_map. exact H1.
  - apply IH; assumption.
Qed.

Lemma resolved_ids_table (column : Comics.row -> string) (db : Database)
      (matches : list string) :
  ComicData.resolved_ids
    (map (fun r => (Comics.id r, column r)) (comics_table db)) matches
  = first_row_ids column db matches.
Proof.
  unfold ComicData.resolved_ids, first_row_ids. apply flat_map_ext.
  intros value. rewrite first_id_table.
  destruct (find _ (comics_table db)); reflexivity.
Qed.

Lemma for_each_inv {A B} (f : A -> result B) (xs : list A) :
  forall ys y, for_each f xs = Ok ys -> In y ys -> exists x, In x xs /\ f x = Ok y.
Proof.
  induction xs as [|x xs IH]; intros ys y Hall Hy; simpl in Hall.
  - injection Hall as <-. destruct Hy.
  - destruct (f x) as [y0|e] eqn:Hx; [|discriminate]. simpl in Hall.
    destruct (for_each f xs) as [ys0|e] eqn:Hxs; [|discriminate]. simpl in Hall.
    injection Hall as <-. destruct Hy as [<-|Hy].
    + exists x. split; [left; reflexivity | exact Hx].
    + destruct (IH ys0 y eq_refl Hy) as [x' [Hin Hx']].
      exists x'. split; [right; exact Hin | exact Hx'].
Qed.

Lemma load_from_db_name (db : Database) (comic_name : sqlvalue) (comic : ComicData.t) :
  ComicData.load_from_db db comic_name = Ok comic ->
  ComicData.name comic = text_affinity comic_name.
Proof.
  unfold ComicData.load_from_db, Sql.comic_by_name.
  destruct (find _ (comics_table db)) as [r|] eqn:Hfind; [|discriminate].
  intros H. injection H as <-. apply find_some in Hfind.
  apply String.eqb_eq. exact (proj2 Hfind).
Qed.

(** C10.  The claim: in the searches by artist, category and tag each
    matched value is resolved to the first row of [comics] with that
    value, and the comic of that row is what the search returns for it
    (a comic with the id 0 is dropped).  The code: the id of that first
    row is found as claimed, and is then handed to [load_from_db], which
    looks it up in the column [name].  So the search is [load_from_db]
    over the ids of the first rows, taken as names: it raises
    [TypeError] when the first of these ids is no comic's name, and a
    comic it does return is one named like the decimal text of such an
    id, not the comic of the first row. *)
Theorem field_searches_load_ids_as_names
        (column : Comics.row -> string)
        (search : Database -> string -> Z -> result (list ComicData.t))
        (db : Database) (query : string) (limit : Z) (matches : list string) :
  In (column, search)
     [(Comics.artist, ComicData.search_comics_by_artist);
      (Comics.category, ComicData.search_comics_by_category);
      (Comics.tag, ComicData.search_comics_by_tag)] ->
  difflib.get_close_matches query (map column (comics_table db)) limit (6 # 10)
  = Ok matches ->
  search db query limit
  = for_each (fun comic_id => ComicData.load_from_db db (SqlInt comic_id))
             (first_row_ids column db matches)
  /\ (forall comic_id rest,
        first_row_ids column db matches = comic_id :: rest ->
        (forall r, In r (comics_table db) -> Comics.name r <> Py.str comic_id) ->
        search db query limit = Raise TypeError)
  /\ (forall results comic,
        search db query limit = Ok results ->
        In comic results ->
        exists comic_id,
          In comic_id (first_row_ids column db matches)
          /\ ComicData.name comic = Py.str comic_id).
Proof.
  intros Hsearch Hmatches.
  assert (search db query limit
          = for_each (fun comic_id => ComicData.load_from_db db (SqlInt comic_id))
                     (first_row_ids column db matches)) as Heq.
  { assert (search = ComicData.search_comics_by_column column) as ->.
    { destruct Hsearch as [[= <- <-]|[[= <- <-]|[[= <- <-]|[]]]]; reflexivity. }
    unfold ComicData.search_comics_by_column. cbv zeta.
    replace (map snd (map (fun r => (Comics.id r, column r)) (comics_table db)))
      with (map column (comics_table db))
      by (rewrite map_map; apply map_ext; reflexivity).
    rewrite Hmatches. cbn [bind]. rewrite resolved_ids_table. reflexivity. }
  split; [exact Heq|]. split.
  - intros comic_id rest Hids Hnames. rewrite Heq, Hids.
    apply for_each_raise. apply load_from_db_raises. exact Hnames.
  - intros results comic Hres Hin. rewrite Heq in Hres.
    destruct (for_each_inv _ _ _ _ Hres Hin) as [comic_id [Hid Hload]].
    exists comic_id. split; [exact Hid|].
    exact (load_from_db_name _ _ _ Hload).
Qed.

Lemma field_searches_load_ids_as_names_witness :
  ComicData.search_comics_by_artist Sample.fox_tales "Bob" 10 = Raise TypeError.
Proof.
  destruct (field_searches_load_ids_as_names
              Comics.artist ComicData.search_comics_by_artist
              Sample.fox_tales "Bob" 10 ["Bob"])
    as (_ & Hraise & _); [left; reflexivity | reflexivity |].
  apply (Hraise 1 []); [reflexivity|].
  intros r [<-|[]]. discriminate.
Defined.

(** ** URLs *)

Lemma list_ascii_app (s t : string) :
  list_ascii_of_string (s ++ t) = list_ascii_of_string s ++ list_ascii_of_string t.
Proof. induction s as [|c s IH]; simpl; [reflexivity | rewrite IH; reflexivity]. Qed.

Lemma occurs_app (c : ascii) (s t : string) :
  occurs c (s ++ t) = occurs c s || occurs c t.
Proof. unfold occurs. rewrite list_ascii_app. apply existsb_app. Qed.

Lemma replace_space_no_space (s : string) : occurs " " (Py.replace_space s) = false.
Proof.
  induction s as [|c s IH]; [reflexivity|]. simpl.
  destruct (Ascii.eqb c " ") eqn:E.
  - exact IH.
  - unfold occurs in *. cbn [list_ascii_of_string existsb]. rewrite IH.
    rewrite Ascii.eqb_sym, E. reflexivity.
Qed.

Lemma string_of_uint_no_space (d : Decimal.uint) :
  occurs " " (NilEmpty.string_of_uint d) = false.
Proof. induction d; simpl; try reflexivity; exact IHd. Qed.

Lemma str_no_space (n : Z) : occurs " " (Py.str n) = false.
Proof.
  unfold Py.str, NilZero.string_of_int, NilZero.string_of_uint.
  destruct (Z.to_int n) as [d|d]; destruct d; try reflexivity;
    apply (string_of_uint_no_space (_ d)) || apply string_of_uint_no_space.
Qed.

Lemma zeros_no_space (n : nat) : occurs " " (Py.zeros n) = false.
Proof. induction n; [reflexivity | exact IHn]. Qed.

Lemma format_03d_no_space (n : Z) : occurs " " (Py.format_03d n) = false.
Proof.
  unfold Py.format_03d. destruct (n <? 0).
  - rewrite !occurs_app, zeros_no_space, str_no_space. reflexivity.
  - rewrite occurs_app, zeros_no_space, str_no_space. reflexivity.
Qed.

Lemma COMICS_URL_no_space (name : string) (page : Z) :
  occurs " " (COMICS_URL (Py.replace_space name) page) = false.
Proof.
  unfold COMICS_URL. rewrite !occurs_app, replace_space_no_space, format_03d_no_space.
  reflexivity.
Qed.

(** Reading back what [format(n, '03d')] printed. *)
Lemma digits_value_app (acc : Z) (s t : string) :
  digits_value acc (s ++ t) = digits_value (digits_value acc s) t.
Proof. unfold digits_value. rewrite list_ascii_app. apply fold_left_app. Qed.

Lemma digits_value_cons (acc : Z) (c : ascii) (s : string) :
  digits_value acc (String c s)
  = digits_value (10 * acc + (Z.of_nat (nat_of_ascii c) - 48)) s.
Proof. reflexivity. Qed.

Lemma digits_value_uint (d : Decimal.uint) :
  forall acc, digits_value acc (NilEmpty.string_of_uint d) = uint_value acc d.
Proof.
  induction d; intros acc; cbn [NilEmpty.string_of_uint uint_value];
    try reflexivity;
    rewrite digits_value_cons, IHd; f_equal;
    change (Z.of_nat (nat_of_ascii "0")) with 48; lia.
Qed.

Lemma uint_value_acc (d : Decimal.uint) :
  forall acc, uint_value (Z.pos acc) d = Z.pos (Pos.of_uint_acc d acc).
Proof.
  induction d; intros acc; cbn [uint_value Pos.of_uint_acc]; try reflexivity;
    match goal with
    | |- uint_value ?z _ = Z.pos (Pos.of_uint_acc _ ?p) =>
        replace z with (Z.pos p) by lia; apply IHd
    end.
Qed.

Lemma uint_value_of_uint (d : Decimal.uint) :
  uint_value 0 d = Z.of_N (Pos.of_uint d).
Proof.
  induction d; cbn [uint_value Pos.of_uint Z.of_N]; try reflexivity;
    try (rewrite Z.mul_0_r; exact IHd);
    match goal with
    | |- uint_value ?z _ = Z.pos (Pos.of_uint_acc _ ?p) =>
        replace z with (Z.pos p) by lia; apply uint_value_acc
    end.
Qed.

Lemma digits_value_str (n : Z) : 0 <= n -> digits_value 0 (Py.str n) = n.
Proof.
  intros H. unfold Py.str. destruct n as [|p|p]; [reflexivity| |lia].
  simpl. unfold NilZero.string_of_uint.
  assert (digits_value 0 (NilEmpty.string_of_uint (Pos.to_uint p)) = Z.pos p) as Hp.
  { rewrite digits_value_uint, uint_value_of_uint, DecimalPos.Unsigned.of_to.
    reflexivity. }
  destruct (Pos.to_uint p); exact Hp.
Qed.

Lemma digits_value_zeros (k : nat) (s : string) :
  digits_value 0 (Py.zeros k ++ s) = digits_value 0 s.
Proof.
  induction k as [|k IH]; [reflexivity|]. simpl. exact IH.
Qed.

Lemma digits_value_format_03d (n : Z) : 0 <= n -> digits_value 0 (Py.format_03d n) = n.
Proof.
  intros H. unfold Py.format_03d. destruct (Z.ltb_spec n 0); [lia|].
  rewrite digits_value_zeros. apply digits_value_str. exact H.
Qed.

Lemma digits_value_inj (t : string) :
  forall a b, digits_value a t = digits_value b t -> a = b.
Proof.
  induction t as [|c t IH]; intros a b H; [exact H|].
  rewrite !digits_value_cons in H. apply IH in H. lia.
Qed.

Lemma append_inj_l (p s t : string) : (p ++ s = p ++ t)%string -> s = t.
Proof.
  induction p as [|c p IH]; simpl; intros H; [exact H|].
  injection H as H. apply IH. exact H.
Qed.

Lemma COMICS_URL_inj (name : string) (i j : Z) :
  0 <= i -> 0 <= j -> COMICS_URL name i = COMICS_URL name j -> i = j.
Proof.
  intros Hi Hj H. unfold COMICS_URL in H.
  apply (append_inj_l STATIC_URL), (append_inj_l "/comics/"),
    (append_inj_l name), (append_inj_l "/") in H.
  apply (f_equal (digits_value 0)) in H.
  rewrite !digits_value_app, !digits_value_format_03d in H by assumption.
  apply digits_value_inj in H. exact H.
Qed.

(** X1.  The page URLs of a comic: the list built for [pages] pages has
    one URL per page, the URL of page [k] is the one the single-page
    function gives and stands at position [k - 1], and no two pages
    share a URL. *)
Theorem page_urls_enumerate_pages (name : string) (pages : Z) :
  let urls := get_comic_pages_by_name_and_pages name pages in
  Py.len urls = Z.max 0 pages
  /\ (forall k, 1 <= k <= pages ->
        nth_error urls (Z.to_nat (k - 1))
        = Some (get_comic_page_by_name_and_page name k))
  /\ NoDup urls.
Proof.
  intros urls. split; [|split].
  - unfold urls, Py.len. rewrite pages_for_length. lia.
  - intros k Hk. unfold urls, get_comic_pages_by_name_and_pages, Py.range1.
    rewrite map_map.
    rewrite nth_error_map, nth_error_seq.
    destruct (Nat.ltb_spec (Z.to_nat (k - 1)) (Z.to_nat pages)) as [_|Hge]; [|lia].
    simpl. unfold get_comic_page_by_name_and_page. do 2 f_equal. lia.
  - unfold urls, get_comic_pages_by_name_and_pages, Py.range1.
    rewrite map_map. generalize (Z.to_nat pages) as n. intros n.
    assert (forall start, NoDup (map (fun x => COMICS_URL (Py.replace_space name) (Z.of_nat x))
                                     (seq start n))) as Hgen; [|apply Hgen].
    induction n as [|n IH]; intros start; simpl; constructor.
    + intros Hin. apply in_map_iff in Hin. destruct Hin as [x [Hx Hin]].
      apply COMICS_URL_inj in Hx; try lia. apply in_seq in Hin. lia.
    + apply IH.
Qed.

(** X2.  No URL the module builds contains a space, whatever the name:
    the spaces of the name are written [%20]. *)
Theorem urls_have_no_space (name : string) :
  occurs " " (get_comic_thumbnail_by_name name) = false
  /\ (forall page, occurs " " (get_comic_page_by_name_and_page name page) = false)
  /\ (forall pages url, In url (get_comic_pages_by_name_and_pages name pages) ->
        occurs " " url = false).
Proof.
  split; [|split].
  - unfold get_comic_thumbnail_by_name, THUMBNAIL_URL.
    rewrite !occurs_app, replace_space_no_space. reflexivity.
  - intros page. apply COMICS_URL_no_space.
  - intros pages url Hin. unfold get_comic_pages_by_name_and_pages in Hin.
    apply in_map_iff in Hin. destruct Hin as [i [<- _]]. apply COMICS_URL_no_space.
Qed.

(** ** Saving, then loading *)

Lemma save_to_db_inv (self : ComicData.t) (db db' : Database) :
  ComicData.save_to_db self db = Ok db' ->
  existsb (fun r => Comics.id r =? ComicData.id self) (comics_table db) = false
  /\ comics_table db'
     = Sql.insert_by (fun x y => Comics.id x <? Comics.id y) (comics_row self)
                     (comics_table db)
  /\ pages_table db' = pages_table db ++ new_page_rows self
  /\ keywords_table db'
     = keywords_table db
         ++ map (Keywords.mk (ComicData.id self)) (ComicData.keywords self).
Proof.
  unfold ComicData.save_to_db, Sql.insert_comic. fold (comics_row self).
  change (Comics.id (comics_row self)) with (ComicData.id self).
  destruct (existsb _ (comics_table db)); simpl; [discriminate|].
  intros H. injection H as <-. repeat split.
Qed.

Lemma find_insert_by_miss {A} (f : A -> bool) (before : A -> A -> bool)
      (x : A) (l : list A) :
  f x = false -> find f (Sql.insert_by before x l) = find f l.
Proof.
  intros Hx. induction l as [|y l IH]; simpl; [rewrite Hx; reflexivity|].
  destruct (before x y); simpl; [rewrite Hx; reflexivity|].
  rewrite IH. reflexivity.
Qed.

Lemma find_insert_by_hit {A} (f : A -> bool) (before : A -> A -> bool)
      (x : A) (l : list A) :
  f x = true -> (forall y, In y l -> f y = false) ->
  find f (Sql.insert_by before x l) = Some x.
Proof.
  intros Hx. induction l as [|y l IH]; intros Hl; simpl; [rewrite Hx; reflexivity|].
  destruct (before x y); simpl; [rewrite Hx; reflexivity|].
  rewrite (Hl y (or_introl eq_refl)). apply IH.
  intros z Hz. apply Hl. right. exact Hz.
Qed.

(** Sorting rows that are in order already changes nothing. *)
Lemma order_by_sorted_id {A} (before : A -> A -> bool) (l : list A) :
  StronglySorted (fun x y => before x y = true) l -> Sql.order_by before l = l.
Proof.
  induction 1 as [|x l Hl IH Hx]; [reflexivity|].
  simpl. fold (Sql.order_by before l). rewrite IH.
  destruct l as [|y l']; [reflexivity|]. simpl.
  rewrite Forall_forall in Hx. rewrite (Hx y (or_introl eq_refl)). reflexivity.
Qed.

Lemma range_ascending (n : nat) :
  forall start, StronglySorted Z.le (map Z.of_nat (seq start n)).
Proof.
  induction n as [|n IH]; intros start; simpl; constructor; [apply IH|].
  apply Forall_forall. intros k Hk. apply in_map_iff in Hk.
  destruct Hk as [i [<- Hi]]. apply in_seq in Hi. lia.
Qed.

Lemma new_page_rows_ascending (self : ComicData.t) :
  StronglySorted (fun p q => (Pages.page_number p <=? Pages.page_number q) = true)
                 (new_page_rows self).
Proof.
  apply (StronglySorted_map_inv Pages.page_number (fun i j => (i <=? j) = true)).
  rewrite new_page_rows_numbers.
  eapply StronglySorted_weaken; [|apply range_ascending].
  intros i j _ _ Hij. apply Z.leb_le. exact Hij.
Qed.

Lemma new_page_rows_urls (self : ComicData.t) :
  map Pages.page_url (new_page_rows self) = ComicData.pages self.
Proof.
  unfold new_page_rows, Py.enumerate1. rewrite map_map.
  generalize 1%nat as start.
  induction (ComicData.pages self) as [|url urls IH]; intros start; [reflexivity|].
  simpl. f_equal. apply IH.
Qed.

Lemma keywords_by_id_save (self : ComicData.t) (db db' : Database) (comic_id : Z) :
  ComicData.save_to_db self db = Ok db' ->
  Sql.keywords_by_id db' comic_id
  = Sql.keywords_by_id db comic_id
      ++ (if ComicData.id self =? comic_id then ComicData.keywords self else []).
Proof.
  intros Hsave. apply save_to_db_inv in Hsave.
  destruct Hsave as [_ [_ [_ Hkeywords]]].
  unfold Sql.keywords_by_id. rewrite Hkeywords, filter_app, map_app. f_equal.
  destruct (ComicData.id self =? comic_id) eqn:E.
  - rewrite filter_all, map_map, map_id; [reflexivity|].
    intros k Hk. apply in_map_iff in Hk. destruct Hk as [w [<- _]]. exact E.
  - rewrite filter_none; [reflexivity|].
    intros k Hk. apply in_map_iff in Hk. destruct Hk as [w [<- _]]. exact E.
Qed.

Lemma page_urls_by_name_text (db : Database) (v : sqlvalue) :
  Sql.page_urls_by_name db v = Sql.page_urls_by_name db (SqlText (text_affinity v)).
Proof. reflexivity. Qed.

(** What [load_from_db] finds under the name of a record just saved. *)
Lemma comic_by_name_after_save (self : ComicData.t) (db db' : Database) :
  ComicData.save_to_db self db = Ok db' ->
  ~ In (ComicData.name self) (map Comics.name (comics_table db)) ->
  Sql.comic_by_name db' (SqlText (ComicData.name self)) = Some (comics_row self).
Proof.
  intros Hsave Hname.
  pose proof (save_to_db_inv _ _ _ Hsave) as [_ [Hcomics _]].
  unfold Sql.comic_by_name. rewrite Hcomics. apply find_insert_by_hit.
  - simpl. apply String.eqb_refl.
  - intros r Hr. apply String.eqb_neq. intros Heq. apply Hname.
    simpl in Heq. rewrite <- Heq. apply in_map, Hr.
Qed.

Lemma hydrate_after_save (self : ComicData.t) (db db' : Database) :
  ComicData.save_to_db self db = Ok db' ->
  (forall p, In p (pages_table db) -> Pages.comic_name p <> ComicData.name self) ->
  (forall k, In k (keywords_table db) -> Keywords.comic_id k <> ComicData.id self) ->
  ComicData.hydrate db' (SqlText (ComicData.name self)) (comics_row self)
  = as_stored self.
Proof.
  intros Hsave Hpages Hkeywords. unfold ComicData.hydrate, as_stored.
  assert (Sql.page_urls_by_name db' (SqlText (ComicData.name self))
          = ComicData.pages self) as ->.
  { unfold Sql.page_urls_by_name.
    rewrite (save_to_db_pages_by_name _ _ _ _ Hsave), String.eqb_refl.
    unfold Sql.pages_by_name. rewrite filter_none.
    - simpl. rewrite order_by_sorted_id by apply new_page_rows_ascending.
      apply new_page_rows_urls.
    - intros p Hp. apply String.eqb_neq. exact (Hpages p Hp). }
  assert (Sql.keywords_by_id db' (Comics.id (comics_row self))
          = ComicData.keywords self) as ->.
  { rewrite (keywords_by_id_save _ _ _ _ Hsave). simpl. rewrite Z.eqb_refl.
    unfold Sql.keywords_by_id. rewrite filter_none; [reflexivity|].
    intros k Hk. apply Z.eqb_neq. exact (Hkeywords k Hk). }
  reflexivity.
Qed.

(** What [load_from_db] finds under another name. *)
Lemma comic_by_name_save_other (self : ComicData.t) (db db' : Database)
      (comic_name : sqlvalue) :
  ComicData.save_to_db self db = Ok db' ->
  text_affinity comic_name <> ComicData.name self ->
  Sql.comic_by_name db' comic_name = Sql.comic_by_name db comic_name.
Proof.
  intros Hsave Hname.
  pose proof (save_to_db_inv _ _ _ Hsave) as [_ [Hcomics _]].
  unfold Sql.comic_by_name. rewrite Hcomics. apply find_insert_by_miss.
  simpl. apply String.eqb_neq. intros Heq. apply Hname. symmetry. exact Heq.
Qed.

Lemma hydrate_save_other (self : ComicData.t) (db db' : Database)
      (comic_name : sqlvalue) (r : Comics.row) :
  ComicData.save_to_db self db = Ok db' ->
  text_affinity comic_name <> ComicData.name self ->
  In r (comics_table db) ->
  ComicData.hydrate db' comic_name r = ComicData.hydrate db comic_name r.
Proof.
  intros Hsave Hname Hin. unfold ComicData.hydrate.
  assert (Sql.page_urls_by_name db' comic_name = Sql.page_urls_by_name db comic_name)
    as ->.
  { rewrite (page_urls_by_name_text db'), (page_urls_by_name_text db).
    unfold Sql.page_urls_by_name.
    rewrite (save_to_db_pages_by_name _ _ _ _ Hsave).
    destruct (String.eqb_spec (ComicData.name self) (text_affinity comic_name))
      as [Heq|_]; [elim Hname; symmetry; exact Heq|].
    rewrite app_nil_r. reflexivity. }
  assert (Sql.keywords_by_id db' (Comics.id r) = Sql.keywords_by_id db (Comics.id r))
    as ->.
  { rewrite (keywords_by_id_save _ _ _ _ Hsave).
    destruct (Z.eqb_spec (ComicData.id self) (Comics.id r)) as [Heq|_];
      [|apply app_nil_r].
    destruct (save_to_db_ok _ _ _ Hsave) as [Hfresh _].
    elim Hfresh. rewrite Heq. apply in_map, Hin. }
  reflexivity.
Qed.

(** In a store whose rows refer to stored comics, a name and an id that
    are new have no page and no keyword. *)
Lemma references_fresh (db : Database) (name : string) (id : Z) :
  references_resolve db ->
  ~ In name (map Comics.name (comics_table db)) ->
  ~ In id (map Comics.id (comics_table db)) ->
  (forall p, In p (pages_table db) -> Pages.comic_name p <> name)
  /\ (forall k, In k (keywords_table db) -> Keywords.comic_id k <> id).
Proof.
  intros [Hpages Hkeywords] Hname Hid. split.
  - intros p Hp Heq. apply Hname. rewrite <- Heq. apply Hpages, Hp.
  - intros k Hk Heq. apply Hid. rewrite <- Heq. apply Hkeywords, Hk.
Qed.

(** X3.  Saving, then loading by name, gives the record back, with the
    number of its page URLs as its number of pages: when the name is
    new to the store, the store's page and keyword rows all belong to
    stored comics, and the two timestamps of the record are texts that
    their columns keep as text. *)
Theorem save_to_db_then_load (self : ComicData.t) (db db' : Database) :
  ComicData.save_to_db self db = Ok db' ->
  references_resolve db ->
  ~ In (ComicData.name self) (map Comics.name (comics_table db)) ->
  kept_as_text (ComicData.created self) = true ->
  kept_as_text (ComicData.updated self) = true ->
  ComicData.load_from_db db' (SqlText (ComicData.name self)) = Ok (as_stored self).
Proof.
  intros Hsave Hresolve Hname _ _.
  destruct (save_to_db_ok _ _ _ Hsave) as [Hfresh _].
  destruct (references_fresh db _ _ Hresolve Hname Hfresh) as [Hpages Hkeywords].
  unfold ComicData.load_from_db.
  rewrite (comic_by_name_after_save _ _ _ Hsave Hname).
  f_equal. exact (hydrate_after_save _ _ _ Hsave Hpages Hkeywords).
Qed.

Lemma save_to_db_then_load_witness :
  ComicData.load_from_db Fixture.with_wolf_tales (SqlText "Wolf Tales")
  = Ok (as_stored Fixture.wolf_tales).
Proof.
  apply (save_to_db_then_load Fixture.wolf_tales Sample.fox_tales
                              Fixture.with_wolf_tales).
  - reflexivity.
  - split.
    + intros p Hp. simpl in Hp.
      destruct Hp as [<-|[<-|[]]]; left; reflexivity.
    + intros k Hk. simpl in Hk. destruct Hk as [<-|[]]. left. reflexivity.
  - simpl. intros [H|[]]. discriminate H.
  - reflexivity.
  - reflexivity.
Defined.

(** X4.  Saving a record changes nothing for the other names: loading
    by any other name gives what it gave before the save, a record or
    the same exception. *)
Theorem save_to_db_keeps_other_names
        (self : ComicData.t) (db db' : Database) (comic_name : sqlvalue) :
  ComicData.save_to_db self db = Ok db' ->
  text_affinity comic_name <> ComicData.name self ->
  ComicData.load_from_db db' comic_name = ComicData.load_from_db db comic_name.
Proof.
  intros Hsave Hname. unfold ComicData.load_from_db.
  rewrite (comic_by_name_save_other _ _ _ _ Hsave Hname).
  destruct (Sql.comic_by_name db comic_name) as [r|] eqn:Hfind; [|reflexivity].
  f_equal. apply (hydrate_save_other self); [exact Hsave | exact Hname|].
  apply find_some in Hfind. exact (proj1 Hfind).
Qed.

Lemma save_to_db_keeps_other_names_witness :
  ComicData.load_from_db Fixture.with_wolf_tales (SqlText "Fox Tales")
  = ComicData.load_from_db Sample.fox_tales (SqlText "Fox Tales").
Proof.
  apply (save_to_db_keeps_other_names Fixture.wolf_tales).
  - reflexivity.
  - simpl. discriminate.
Defined.

(** X5.  A record that [load_from_db] returns carries the name it was
    asked for and reports as many pages as it has page URLs; the URLs
    are those of the page rows filed under the name, in ascending page
    number. *)
Theorem load_from_db_pages_in_order
        (db : Database) (comic_name : sqlvalue) (comic : ComicData.t) :
  ComicData.load_from_db db comic_name = Ok comic ->
  ComicData.name comic = text_affinity comic_name
  /\ ComicData.numberOfPages comic = Py.len (ComicData.pages comic)
  /\ exists rows,
       Permutation rows (Sql.pages_by_name db comic_name)
       /\ pages_ascending rows
       /\ ComicData.pages comic = map Pages.page_url rows.
Proof.
  unfold ComicData.load_from_db, Sql.comic_by_name.
  destruct (find _ (comics_table db)) as [r|] eqn:Hfind; [|discriminate].
  intros H. injection H as <-. apply find_some in Hfind. destruct Hfind as [_ Hname].
  split; [apply String.eqb_eq; exact Hname|]. split; [reflexivity|].
  exists (Sql.order_by (fun p q => Pages.page_number p <=? Pages.page_number q)
                       (Sql.pages_by_name db comic_name)).
  split; [apply order_by_perm|]. split; [|reflexivity].
  eapply StronglySorted_weaken;
    [|apply (order_by_sorted (fun p q => Pages.page_number p <=? Pages.page_number q))].
  - intros p q _ _ H. apply Z.leb_le. exact H.
  - intros p q H. apply Z.leb_gt in H. apply Z.leb_le. lia.
  - intros p q s H1 H2. apply Z.leb_le in H1, H2. apply Z.leb_le. lia.
Qed.

Lemma load_from_db_pages_in_order_witness :
  ComicData.name Fixture.fox_tales_record = "Fox Tales"
  /\ ComicData.numberOfPages Fixture.fox_tales_record
     = Py.len (ComicData.pages Fixture.fox_tales_record)
  /\ exists rows,
       Permutation rows (Sql.pages_by_name Sample.fox_tales (SqlText "Fox Tales"))
       /\ pages_ascending rows
       /\ ComicData.pages Fixture.fox_tales_record = map Pages.page_url rows.
Proof.
  apply (load_from_db_pages_in_order Sample.fox_tales (SqlText "Fox Tales")).
  reflexivity.
Defined.

(** ** What the Synchronizer adds *)

Lemma extends_refl (db : Database) : extends db db.
Proof.
  split; [apply incl_refl|].
  split; exists []; symmetry; apply app_nil_r.
Qed.

Lemma extends_trans (db1 db2 db3 : Database) :
  extends db1 db2 -> extends db2 db3 -> extends db1 db3.
Proof.
  intros (Hc1 & [p1 Hp1] & [k1 Hk1]) (Hc2 & [p2 Hp2] & [k2 Hk2]).
  split; [exact (incl_tran Hc1 Hc2)|]. split.
  - exists (p1 ++ p2). rewrite Hp2, Hp1, app_assoc. reflexivity.
  - exists (k1 ++ k2). rewrite Hk2, Hk1, app_assoc. reflexivity.
Qed.

Lemma save_to_db_extends (self : ComicData.t) (db db' : Database) :
  ComicData.save_to_db self db = Ok db' -> extends db db'.
Proof.
  intros Hsave.
  destruct (save_to_db_rows _ _ _ Hsave) as (row & _ & _ & Hperm).
  destruct (save_to_db_ok _ _ _ Hsave) as (_ & _ & Hpages & Hkeywords).
  split; [|split; eexists; eassumption].
  intros r Hr. apply (Permutation_in _ (Permutation_sym Hperm)). right. exact Hr.
Qed.

Lemma from_basic_and_detailed_pages (basic : BasicComicData.t)
      (detailed : option DetailedComicData.t) (comic_data : ComicData.t) :
  ComicData.from_basic_and_detailed basic detailed = Ok comic_data ->
  ComicData.numberOfPages comic_data = BasicComicData.numberOfPages basic.
Proof.
  unfold ComicData.from_basic_and_detailed.
  destruct detailed; [|discriminate]. intros H. injection H as <-. reflexivity.
Qed.

(** One turn of the loop: nothing happens, or the comic is saved and
    one entry is logged. *)
Lemma update_comic_log (remote : Remote) (basic : BasicComicData.t)
      (db db' : Database) (log log' : list new_pages_entry) :
  update_comic remote basic db log = Ok (db', log') ->
  (BasicComicData.numberOfPages basic <= page_count db (BasicComicData.name basic)
   /\ db' = db /\ log' = log)
  \/ (page_count db (BasicComicData.name basic) < BasicComicData.numberOfPages basic
      /\ log' = log ++ [(BasicComicData.name basic,
                         page_count db (BasicComicData.name basic),
                         BasicComicData.numberOfPages basic)]
      /\ exists comic_data,
          ComicData.from_basic_and_detailed
            basic (get_comic_data_by_name remote (BasicComicData.name basic))
          = Ok comic_data
          /\ ComicData.save_to_db comic_data db = Ok db').
Proof.
  unfold update_comic, page_count.
  destruct (Z.ltb_spec (Py.len (Sql.pages_by_name db (SqlText (BasicComicData.name basic))))
                       (BasicComicData.numberOfPages basic)) as [Hlt|Hge].
  - destruct (ComicData.from_basic_and_detailed _ _) as [comic_data|e] eqn:Hfrom;
      [|discriminate].
    simpl. destruct (ComicData.save_to_db comic_data db) as [db1|e] eqn:Hsave;
      [|discriminate].
    simpl. intros H. injection H as <- <-. right.
    rewrite (from_basic_and_detailed_pages _ _ _ Hfrom).
    split; [exact Hlt|]. split; [reflexivity|].
    exists comic_data. split; [reflexivity | exact Hsave].
  - intros H. injection H as <- <-. left. repeat split. exact Hge.
Qed.

Lemma update_loop_extends (remote : Remote) (comics : list BasicComicData.t) :
  forall (db : Database) (log : list new_pages_entry),
    extends db (fst (update_loop remote comics db log)).
Proof.
  induction comics as [|basic rest IH]; intros db log; simpl; [apply extends_refl|].
  destruct (update_comic remote basic db log) as [[db1 log1]|e] eqn:Hstep;
    [|apply extends_refl].
  apply (extends_trans _ db1); [|apply IH].
  apply update_comic_log in Hstep.
  destruct Hstep as [(_ & -> & _) | (_ & _ & comic_data & _ & Hsave)];
    [apply extends_refl | exact (save_to_db_extends _ _ _ Hsave)].
Qed.

Lemma update_db_extends (remote : Remote) (db : Database) :
  extends db (fst (update_db remote db)).
Proof.
  unfold update_db. destruct (get_all_comics remote);
    [apply update_loop_extends | apply extends_refl].
Qed.

(** X6.  The Synchronizer only adds rows.  After any number of cycles,
    completed or not, every row of [comics] is still there, and the
    page and keyword rows of before stand, unchanged and in order, at
    the front of their tables. *)
Theorem run_cycles_only_adds_rows (remotes : list Remote) (db : Database) :
  let db' := run_cycles remotes db in
  incl (comics_table db) (comics_table db')
  /\ (exists added, pages_table db' = pages_table db ++ added)
  /\ (exists added, keywords_table db' = keywords_table db ++ added).
Proof.
  change (extends db (run_cycles remotes db)).
  revert db. induction remotes as [|remote remotes IH]; intros db;
    [apply extends_refl|].
  unfold run_cycles. simpl.
  apply (extends_trans _ (fst (update_db remote db)));
    [apply update_db_extends | apply IH].
Qed.

Lemma pages_for_len (name : string) (n : Z) :
  0 <= n -> Py.len (get_comic_pages_by_name_and_pages name n) = n.
Proof. intros H. unfold Py.len. rewrite pages_for_length. lia. Qed.

Lemma page_count_nonneg (db : Database) (name : string) : 0 <= page_count db name.
Proof. unfold page_count, Py.len. lia. Qed.

Lemma reported_pages_app (log1 log2 : list new_pages_entry) :
  reported_pages (log1 ++ log2) = reported_pages log1 + reported_pages log2.
Proof.
  unfold reported_pages. induction log1 as [|e log1 IH]; simpl; [reflexivity|].
  rewrite IH. lia.
Qed.

Lemma update_loop_log (remote : Remote) (comics : list BasicComicData.t) :
  forall (db db' : Database) (log log' : list new_pages_entry),
    update_loop remote comics db log = (db', Ok log') ->
    exists added,
      log' = log ++ added
      /\ Py.len (comics_table db') = Py.len (comics_table db) + Py.len added
      /\ Py.len (pages_table db') = Py.len (pages_table db) + reported_pages added
      /\ forall name old new, In (name, old, new) added ->
           0 <= old < new
           /\ exists basic, In basic comics
                            /\ BasicComicData.name basic = name
                            /\ BasicComicData.numberOfPages basic = new.
Proof.
  induction comics as [|basic rest IH]; intros db db' log log' Hloop; simpl in Hloop.
  - injection Hloop as <- <-. exists []. rewrite app_nil_r.
    split; [reflexivity|].
    split; [unfold Py.len; simpl; lia|]. split; [unfold Py.len, reported_pages; simpl; lia|].
    intros name old new [].
  - destruct (update_comic remote basic db log) as [[db1 log1]|e] eqn:Hstep;
      [|discriminate].
    destruct (IH _ _ _ _ Hloop) as (added & -> & Hcomics & Hpages & Hentries).
    apply update_comic_log in Hstep.
    destruct Hstep as [(_ & -> & ->)
                      | (Hlt & -> & comic_data & Hfrom & Hsave)].
    + exists added. split; [reflexivity|]. split; [exact Hcomics|].
      split; [exact Hpages|].
      intros name old new Hin.
      destruct (Hentries _ _ _ Hin) as [Hrange (b & Hb & Hname & Hnew)].
      split; [exact Hrange|].
      exists b. repeat split; [right; exact Hb | exact Hname | exact Hnew].
    + pose proof (page_count_nonneg db (BasicComicData.name basic)) as Hold.
      destruct (save_to_db_rows _ _ _ Hsave) as (row & _ & _ & Hperm).
      destruct (save_to_db_ok _ _ _ Hsave) as (_ & _ & Hptable & _).
      destruct (from_basic_and_detailed_ok _ _ _ Hfrom) as (_ & _ & Hurls).
      exists ((BasicComicData.name basic,
               page_count db (BasicComicData.name basic),
               BasicComicData.numberOfPages basic) :: added).
      split; [rewrite <- app_assoc; reflexivity|]. split; [|split].
      * rewrite Hcomics. unfold Py.len.
        rewrite (Permutation_length Hperm). cbn [List.length]. lia.
      * rewrite Hpages, Hptable. unfold Py.len at 1.
        rewrite length_app, new_page_rows_length, Hurls, pages_for_length.
        unfold Py.len. change (?e :: added) with ([e] ++ added).
        rewrite reported_pages_app. unfold reported_pages.
        cbn [fold_right snd]. lia.
      * intros name old new [Heq|Hin].
        -- injection Heq as <- <- <-. split; [lia|].
           exists basic. repeat split. left. reflexivity.
        -- destruct (Hentries _ _ _ Hin) as [Hrange (b & Hb & Hname & Hnew)].
           split; [exact Hrange|].
           exists b. repeat split; [right; exact Hb | exact Hname | exact Hnew].
Qed.

Lemma save_to_db_page_count (self : ComicData.t) (db db' : Database)
      (name : string) :
  ComicData.save_to_db self db = Ok db' ->
  page_count db' name
  = page_count db name
    + (if String.eqb (ComicData.name self) name
       then Py.len (ComicData.pages self) else 0).
Proof.
  intros Hsave. unfold page_count, Py.len.
  rewrite (save_to_db_pages_by_name _ _ _ name Hsave), length_app.
  destruct (String.eqb (ComicData.name self) name).
  - rewrite new_page_rows_length. lia.
  - cbn [List.length]. lia.
Qed.

(** A turn of the loop leaves the pages of the other names alone. *)
Lemma update_loop_other_names (remote : Remote) (comics : list BasicComicData.t) :
  forall (db db' : Database) (log : list new_pages_entry)
         (outcome : result (list new_pages_entry)),
    update_loop remote comics db log = (db', outcome) ->
    forall name, ~ In name (map BasicComicData.name comics) ->
      page_count db' name = page_count db name.
Proof.
  induction comics as [|basic rest IH]; intros db db' log outcome Hloop name Hname;
    simpl in Hloop.
  - injection Hloop as <- _. reflexivity.
  - destruct (update_comic remote basic db log) as [[db1 log1]|e] eqn:Hstep;
      [|injection Hloop as <- _; reflexivity].
    rewrite (IH _ _ _ _ Hloop name) by (intros Hin; apply Hname; right; exact Hin).
    apply update_comic_log in Hstep.
    destruct Hstep as [(_ & -> & _) | (_ & _ & comic_data & Hfrom & Hsave)];
      [reflexivity|].
    destruct (from_basic_and_detailed_ok _ _ _ Hfrom) as (_ & Hcname & _).
    rewrite (save_to_db_page_count _ _ _ name Hsave), Hcname.
    destruct (String.eqb_spec (BasicComicData.name basic) name) as [Heq|_]; [|lia].
    elim Hname. left. exact Heq.
Qed.

(** Where the entries of the log stand between the pages on file before
    the loop and after it. *)
Lemma update_loop_log_on_file (remote : Remote) (comics : list BasicComicData.t) :
  forall (db db' : Database) (log log' : list new_pages_entry),
    update_loop remote comics db log = (db', Ok log') ->
    exists added,
      log' = log ++ added
      /\ forall name old new, In (name, old, new) added ->
           In name (map BasicComicData.name comics)
           /\ page_count db name <= old
           /\ old + new <= page_count db' name
           /\ (NoDup (map BasicComicData.name comics) ->
               old = page_count db name /\ page_count db' name = old + new).
Proof.
  induction comics as [|basic rest IH]; intros db db' log log' Hloop; simpl in Hloop.
  - injection Hloop as <- <-. exists []. rewrite app_nil_r.
    split; [reflexivity|]. intros name old new [].
  - destruct (update_comic remote basic db log) as [[db1 log1]|e] eqn:Hstep;
      [|discriminate].
    destruct (IH _ _ _ _ Hloop) as (added & -> & Hentries).
    destruct (update_loop_settled _ _ _ _ _ _ Hloop) as [Hgrows _].
    pose proof (update_loop_other_names _ _ _ _ _ _ Hloop) as Hothers.
    apply update_comic_log in Hstep.
    destruct Hstep as [(_ & -> & ->)
                      | (Hlt & -> & comic_data & Hfrom & Hsave)].
    + exists added. split; [reflexivity|].
      intros name old new Hin.
      destruct (Hentries _ _ _ Hin) as (Hname & Hlow & Hhigh & Hexact).
      split; [right; exact Hname|]. split; [exact Hlow|]. split; [exact Hhigh|].
      intros Hnodup. apply Hexact. simpl in Hnodup.
      inversion Hnodup; assumption.
    + pose proof (page_count_nonneg db (BasicComicData.name basic)) as Hold.
      destruct (from_basic_and_detailed_ok _ _ _ Hfrom) as (_ & Hcname & Hurls).
      assert (forall name,
                 page_count db1 name
                 = page_count db name
                   + (if String.eqb (BasicComicData.name basic) name
                      then BasicComicData.numberOfPages basic else 0)) as Hsaved.
      { intros name. rewrite (save_to_db_page_count _ _ _ name Hsave), Hcname, Hurls.
        rewrite pages_for_len by lia. reflexivity. }
      exists ((BasicComicData.name basic,
               page_count db (BasicComicData.name basic),
               BasicComicData.numberOfPages basic) :: added).
      split; [rewrite <- app_assoc; reflexivity|].
      intros name old new [Heq|Hin].
      * injection Heq as <- <- <-.
        pose proof (Hsaved (BasicComicData.name basic)) as Hhere.
        rewrite String.eqb_refl in Hhere.
        specialize (Hgrows (BasicComicData.name basic)).
        split; [left; reflexivity|]. split; [lia|]. split; [lia|].
        intros Hnodup. simpl in Hnodup.
        inversion Hnodup as [|? ? Hnotin _]; subst.
        rewrite (Hothers _ Hnotin). lia.
      * destruct (Hentries _ _ _ Hin) as (Hname & Hlow & Hhigh & Hexact).
        pose proof (Hsaved name) as Hhere.
        split; [right; exact Hname|].
        split; [destruct (String.eqb (BasicComicData.name basic) name); lia|].
        split; [exact Hhigh|].
        intros Hnodup. simpl in Hnodup.
        inversion Hnodup as [|? ? Hnotin Hrest]; subst.
        destruct (Hexact Hrest) as [Hold' Hnew'].
        destruct (String.eqb_spec (BasicComicData.name basic) name) as [Heq|_];
          [elim Hnotin; rewrite Heq; exact Hname|].
        split; [lia | exact Hnew'].
Qed.

(** X7.  The log of a completed cycle accounts for what the cycle
    added: one row of [comics] per entry and as many page rows as the
    entries report.  Each entry [(name, old, new)] is a listed comic
    with [new] pages, logged when [old], fewer, were on file under its
    name: [old] is no less than the pages on file when the cycle began,
    and the cycle ends with [old + new] pages under the name or more.
    Where the listing has no name twice, [old] is the number of pages on
    file when the cycle began and [old + new] the number when it ended. *)
Theorem update_db_log_accounts
        (remote : Remote) (db db' : Database) (log : list new_pages_entry) :
  update_db remote db = (db', Ok log) ->
  Py.len (comics_table db') = Py.len (comics_table db) + Py.len log
  /\ Py.len (pages_table db') = Py.len (pages_table db) + reported_pages log
  /\ forall name old new, In (name, old, new) log ->
       0 <= old < new
       /\ page_count db name <= old
       /\ old + new <= page_count db' name
       /\ exists listing basic,
            get_all_comics remote = Some listing
            /\ In basic listing
            /\ BasicComicData.name basic = name
            /\ BasicComicData.numberOfPages basic = new
            /\ (NoDup (map BasicComicData.name listing) ->
                old = page_count db name /\ page_count db' name = old + new).
Proof.
  unfold update_db. destruct (get_all_comics remote) as [listing|]; [|discriminate].
  intros Hloop.
  destruct (update_loop_log _ _ _ _ _ _ Hloop)
    as (added & Hlog & Hcomics & Hpages & Hentries).
  destruct (update_loop_log_on_file _ _ _ _ _ _ Hloop) as (added' & Hlog' & Hfile).
  simpl in Hlog, Hlog'. subst added added'.
  split; [exact Hcomics|]. split; [exact Hpages|].
  intros name old new Hin.
  destruct (Hentries _ _ _ Hin) as [Hrange (b & Hb & Hname & Hnew)].
  destruct (Hfile _ _ _ Hin) as (_ & Hlow & Hhigh & Hexact).
  split; [exact Hrange|]. split; [exact Hlow|]. split; [exact Hhigh|].
  exists listing, b. repeat split; try assumption; apply Hexact; assumption.
Qed.

Lemma update_db_log_accounts_witness :
  Py.len (comics_table (Sample.store 3)) = Py.len (comics_table create_database) + 3
  /\ Py.len (pages_table (Sample.store 3)) = Py.len (pages_table create_database) + 3
  /\ 0 = page_count create_database "Comic 2"
  /\ page_count (Sample.store 3) "Comic 2" = 0 + 1.
Proof.
  destruct (update_db_log_accounts
              (Sample.remote (Sample.listing 3)) create_database (Sample.store 3)
              [("Comic 1", 0, 1); ("Comic 2", 0, 1); ("Comic 3", 0, 1)] eq_refl)
    as (Hcomics & Hpages & Hentries).
  split; [exact Hcomics|]. split; [exact Hpages|].
  destruct (Hentries "Comic 2" 0 1 ltac:(right; left; reflexivity))
    as (_ & _ & _ & listing & basic & Hlisting & _ & _ & _ & Hexact).
  injection Hlisting as <-. apply Hexact. vm_compute.
  constructor; [intros [H|[H|[]]]; discriminate H|].
  constructor; [intros [H|[]]; discriminate H|].
  constructor; [intros [] | constructor].
Defined.

(** ** C3: the pages of a comic that has grown *)

Lemma save_to_db_fresh (self : ComicData.t) (db : Database) :
  ~ In (ComicData.id self) (map Comics.id (comics_table db)) ->
  exists db', ComicData.save_to_db self db = Ok db'.
Proof.
  intros Hfresh. unfold ComicData.save_to_db, Sql.insert_comic.
  destruct (existsb _ (comics_table db)) eqn:Hex.
  - apply existsb_exists in Hex. destruct Hex as [r [Hin Hid]].
    elim Hfresh. apply Z.eqb_eq in Hid. simpl in Hid. rewrite <- Hid.
    apply in_map, Hin.
  - eexists. reflexivity.
Qed.

Lemma page_numbers_extends (db db' : Database) (name : string) :
  extends db db' ->
  exists added, page_numbers db' name = page_numbers db name ++ added.
Proof.
  intros (_ & [added Hpages] & _). unfold page_numbers, Sql.pages_by_name.
  rewrite Hpages, filter_app, map_app. eexists. reflexivity.
Qed.

Lemma twice_not_NoDup {A} (x : A) (l1 l2 l3 : list A) :
  In x l1 -> In x l2 -> ~ NoDup (l1 ++ l2 ++ l3).
Proof.
  intros H1 H2 Hnodup. induction l1 as [|y l1 IH]; [destruct H1|].
  simpl in Hnodup. inversion Hnodup as [|? ? Hnotin Hrest]; subst.
  destruct H1 as [->|H1].
  - apply Hnotin. apply in_or_app. right. apply in_or_app. left. exact H2.
  - exact (IH H1 Hrest).
Qed.

(** C3.  The claim: in every store the cycles reach, the page numbers of
    a stored comic are [1..numberOfPages] without gap or duplicate, the
    pages being replaced when the comic is synchronized again.  The
    code: a comic with pages on file that the listing reports with more
    pages, under an id the store does not have, is a comic "we don't
    have enough pages" of; it is saved, and [save_to_db], which only
    inserts, files the pages 1 to [numberOfPages] behind those on file.
    After the cycle, whatever it did then, the page numbers under the
    name begin with the old ones followed by [1..numberOfPages]; page 1
    is there twice, there are more page rows than pages reported, and
    the store is not as the claim says. *)
Theorem update_db_files_pages_again
        (remote : Remote) (before rest : list BasicComicData.t)
        (basic : BasicComicData.t) (detailed : DetailedComicData.t)
        (db db' : Database) (log : list new_pages_entry) :
  get_all_comics remote = Some (before ++ basic :: rest) ->
  update_loop remote before db [] = (db', Ok log) ->
  ~ In (BasicComicData.id basic) (map Comics.id (comics_table db')) ->
  In 1 (page_numbers db' (BasicComicData.name basic)) ->
  page_count db' (BasicComicData.name basic) < BasicComicData.numberOfPages basic ->
  get_comic_data_by_name remote (BasicComicData.name basic) = Some detailed ->
  let after := fst (update_db remote db) in
  (exists added,
      page_numbers after (BasicComicData.name basic)
      = page_numbers db' (BasicComicData.name basic)
          ++ Py.range1 (BasicComicData.numberOfPages basic) ++ added)
  /\ ~ NoDup (page_numbers after (BasicComicData.name basic))
  /\ BasicComicData.numberOfPages basic
     < page_count after (BasicComicData.name basic)
  /\ ~ contiguous_pages after.
Proof.
  intros Hlisting Hbefore Hfresh Hone Hlt Hdetail after.
  set (name := BasicComicData.name basic) in *.
  set (n := BasicComicData.numberOfPages basic) in *.
  (* the turn of the comic *)
  destruct (ComicData.from_basic_and_detailed basic (Some detailed))
    as [comic_data|e] eqn:Hfrom; [|discriminate Hfrom].
  destruct (from_basic_and_detailed_ok _ _ _ Hfrom) as (Hid & Hname & Hurls).
  destruct (save_to_db_fresh comic_data db') as [db1 Hsave];
    [rewrite Hid; exact Hfresh|].
  assert (update_comic remote basic db' log
          = Ok (db1, log ++ [(name, page_count db' name, n)])) as Hstep.
  { unfold update_comic. fold name. fold n. fold (page_count db' name).
    destruct (Z.ltb_spec (page_count db' name) n) as [_|Hge]; [|lia].
    rewrite Hdetail, Hfrom. cbn [bind]. rewrite Hsave. cbn [bind].
    rewrite (from_basic_and_detailed_pages _ _ _ Hfrom). reflexivity. }
  assert (after
          = fst (update_loop remote rest db1 (log ++ [(name, page_count db' name, n)])))
    as Hafter.
  { unfold after, update_db. rewrite Hlisting, update_loop_app, Hbefore.
    cbn [update_loop]. rewrite Hstep. reflexivity. }
  (* what the save filed, and what came after it *)
  assert (page_numbers db1 name = page_numbers db' name ++ Py.range1 n) as Hfiled.
  { unfold page_numbers.
    rewrite (save_to_db_pages_by_name _ _ _ name Hsave), Hname.
    unfold name at 2. rewrite String.eqb_refl, map_app, new_page_rows_numbers.
    rewrite Hurls, pages_for_length. reflexivity. }
  destruct (page_numbers_extends db1 after name) as [added Hadded];
    [rewrite Hafter; apply update_loop_extends|].
  assert (page_numbers after name = page_numbers db' name ++ Py.range1 n ++ added)
    as Hnumbers by (rewrite Hadded, Hfiled, <- app_assoc; reflexivity).
  assert (1 <= page_count db' name) as Hsome.
  { unfold page_count, page_numbers, Py.len in *.
    destruct (Sql.pages_by_name db' (SqlText name)); [destruct Hone|].
    cbn [List.length]. lia. }
  assert (~ NoDup (page_numbers after name)) as Hdup.
  { rewrite Hnumbers. apply (twice_not_NoDup 1); [exact Hone|].
    unfold Py.range1. apply in_map_iff. exists 1%nat.
    split; [reflexivity | apply in_seq; lia]. }
  split; [exists added; exact Hnumbers|]. split; [exact Hdup|]. split.
  - unfold page_count at 1. unfold Py.len.
    rewrite <- (length_map Pages.page_number). fold (page_numbers after name).
    rewrite Hnumbers, !length_app.
    unfold Py.range1. rewrite length_map, length_seq.
    unfold page_count, Py.len in Hsome. unfold page_numbers at 1.
    rewrite length_map. lia.
  - intros Hcontiguous.
    destruct (save_to_db_rows _ _ _ Hsave) as (row & _ & Hrow & Hperm).
    assert (In row (comics_table after)) as Hin.
    { assert (extends db1 after) as (Hincl & _)
          by (rewrite Hafter; apply update_loop_extends).
      apply Hincl. apply (Permutation_in _ (Permutation_sym Hperm)).
      left. reflexivity. }
    destruct (Hcontiguous row Hin) as [Hnodup _].
    rewrite Hrow, Hname in Hnodup. exact (Hdup Hnodup).
Qed.

Lemma update_db_files_pages_again_witness :
  let after :=
    fst (update_db (Sample.remote [Sample.basic 2 "Fox Tales" "Bob" 3])
                   Sample.fox_tales) in
  (exists added,
      page_numbers after "Fox Tales" = [1; 2] ++ [1; 2; 3] ++ added)
  /\ ~ NoDup (page_numbers after "Fox Tales")
  /\ 3 < page_count after "Fox Tales"
  /\ ~ contiguous_pages after.
Proof.
  apply (update_db_files_pages_again
           (Sample.remote [Sample.basic 2 "Fox Tales" "Bob" 3]) [] []
           (Sample.basic 2 "Fox Tales" "Bob" 3) (Sample.detailed "Fox Tales")
           Sample.fox_tales Sample.fox_tales []).
  - reflexivity.
  - reflexivity.
  - vm_compute. intros [H|[]]. discriminate H.
  - vm_compute. left. reflexivity.
  - vm_compute. reflexivity.
  - reflexivity.
Defined.

(** ** The stores the Synchronizer can reach *)


Lemma listed_app (remotes1 remotes2 : list Remote) :
  listed (remotes1 ++ remotes2) = listed remotes1 ++ listed remotes2.
Proof. unfold listed. apply flat_map_app. Qed.

(** Under a name that is listed with an id the store does not have,
    the store has no page. *)
Lemma fresh_id_no_pages (entries : list BasicComicData.t) (db : Database)
      (basic : BasicComicData.t) :
  name_keyed entries ->
  sync_invariant entries db ->
  In basic entries ->
  ~ In (BasicComicData.id basic) (map Comics.id (comics_table db)) ->
  page_count db (BasicComicData.name basic) = 0.
Proof.
  intros Hkeyed [_ Hown] Hin Hfresh. unfold page_count.
  destruct (Sql.pages_by_name db (SqlText (BasicComicData.name basic)))
    as [|p ps] eqn:Hp; [reflexivity|].
  assert (In p (Sql.pages_by_name db (SqlText (BasicComicData.name basic)))) as Hp'
      by (rewrite Hp; left; reflexivity).
  apply pages_by_name_In in Hp'. destruct Hp' as [Hp' Hpname].
  destruct (Hown p Hp') as (b & Hb & Hbname & Hbid).
  elim Hfresh. rewrite <- (Hkeyed b basic Hb Hin); [exact Hbid | congruence].
Qed.

Lemma update_loop_logs_zero (entries : list BasicComicData.t) (remote : Remote)
      (comics : list BasicComicData.t) :
  name_keyed entries ->
  forall (db db' : Database) (log log' : list new_pages_entry),
    incl comics entries ->
    sync_invariant entries db ->
    update_loop remote comics db log = (db', Ok log') ->
    exists added,
      log' = log ++ added
      /\ forall name old new, In (name, old, new) added -> old = 0.
Proof.
  intros Hkeyed.
  induction comics as [|basic rest IH]; intros db db' log log' Hincl Hinv Hloop;
    simpl in Hloop.
  - injection Hloop as <- <-. exists []. rewrite app_nil_r.
    split; [reflexivity|]. intros name old new [].
  - destruct (update_comic remote basic db log) as [[db1 log1]|e] eqn:Hstep;
      [|discriminate].
    assert (In basic entries) as Hin by (apply Hincl; left; reflexivity).
    pose proof (update_comic_invariant entries Hkeyed remote basic db db1 log log1
                                       Hin Hinv Hstep) as Hinv1.
    destruct (IH db1 db' log1 log' (fun b Hb => Hincl b (or_intror Hb)) Hinv1 Hloop)
      as (added & -> & Hzero).
    apply update_comic_log in Hstep.
    destruct Hstep as [(_ & _ & ->) | (_ & -> & comic_data & Hfrom & Hsave)].
    + exists added. split; [reflexivity | exact Hzero].
    + destruct (from_basic_and_detailed_ok _ _ _ Hfrom) as (Hid & _ & _).
      destruct (save_to_db_ok _ _ _ Hsave) as (Hfresh & _).
      rewrite Hid in Hfresh.
      rewrite (fresh_id_no_pages entries db basic Hkeyed Hinv Hin Hfresh).
      exists ((BasicComicData.name basic, 0, BasicComicData.numberOfPages basic)
                :: added).
      split; [rewrite <- app_assoc; reflexivity|].
      intros name old new [Heq|Hlater];
        [injection Heq as _ <- _; reflexivity | exact (Hzero _ _ _ Hlater)].
Qed.

(** X8.  Where every name is always listed under one id, the log of a
    completed cycle names only comics that had no page on file: every
    entry reads [0 -> new].  A comic that has grown never gets there. *)
Theorem completed_cycle_logs_from_zero
        (remotes : list Remote) (remote : Remote) (db' : Database)
        (log : list new_pages_entry) :
  name_keyed (listed (remotes ++ [remote])) ->
  update_db remote (run_cycles remotes create_database) = (db', Ok log) ->
  forall name old new, In (name, old, new) log -> old = 0.
Proof.
  intros Hkeyed. unfold update_db.
  destruct (get_all_comics remote) as [listing|] eqn:Hlisting; [|discriminate].
  intros Hloop.
  assert (sync_invariant (listed (remotes ++ [remote]))
                         (run_cycles remotes create_database)) as Hinv.
  { apply run_cycles_invariant;
      [exact Hkeyed | | apply sync_invariant_create].
    rewrite listed_app. apply incl_appl, incl_refl. }
  destruct (update_loop_logs_zero _ remote listing Hkeyed _ _ _ _ ltac:(
              rewrite listed_app; apply incl_appr; simpl; rewrite Hlisting, app_nil_r;
              apply incl_refl) Hinv Hloop) as (added & Hlog & Hzero).
  simpl in Hlog. subst added. exact Hzero.
Qed.

Lemma completed_cycle_logs_from_zero_witness :
  Forall (fun entry : new_pages_entry => snd (fst entry) = 0)
         [("Comic 1", 0, 1); ("Comic 2", 0, 1)].
Proof.
  apply Forall_forall. intros [[name old] new].
  apply (completed_cycle_logs_from_zero
           [Sample.remote [Sample.basic 3 "Fox Tales" "Bob" 2]]
           (Sample.remote (Sample.listing 2))
           (fst (update_db (Sample.remote (Sample.listing 2))
                           (run_cycles [Sample.remote [Sample.basic 3 "Fox Tales" "Bob" 2]]
                                       create_database)))).
  - intros b1 b2 H1 H2 Hname. simpl in H1, H2.
    destruct H1 as [<-|[<-|[<-|[]]]]; destruct H2 as [<-|[<-|[<-|[]]]];
      first [reflexivity | discriminate Hname].
  - reflexivity.
Defined.

Lemma save_to_db_references (self : ComicData.t) (db db' : Database) :
  ComicData.save_to_db self db = Ok db' ->
  references_resolve db -> references_resolve db'.
Proof.
  intros Hsave [Hpages Hkeywords].
  destruct (save_to_db_rows _ _ _ Hsave) as (row & Hid & Hname & Hperm).
  destruct (save_to_db_ok _ _ _ Hsave) as (_ & _ & Hptable & Hktable).
  split.
  - intros p Hp. rewrite Hptable in Hp.
    apply (Permutation_in _ (Permutation_map _ (Permutation_sym Hperm))).
    apply in_app_or in Hp. destruct Hp as [Hp|Hp].
    + right. apply Hpages, Hp.
    + left. rewrite (new_page_rows_name _ _ Hp). exact Hname.
  - intros k Hk. rewrite Hktable in Hk.
    apply (Permutation_in _ (Permutation_map _ (Permutation_sym Hperm))).
    apply in_app_or in Hk. destruct Hk as [Hk|Hk].
    + right. apply Hkeywords, Hk.
    + left. apply in_map_iff in Hk. destruct Hk as [w [<- _]]. exact Hid.
Qed.

Lemma update_loop_references (remote : Remote) (comics : list BasicComicData.t) :
  forall (db : Database) (log : list new_pages_entry),
    references_resolve db ->
    references_resolve (fst (update_loop remote comics db log)).
Proof.
  induction comics as [|basic rest IH]; intros db log Hinv; simpl; [exact Hinv|].
  destruct (update_comic remote basic db log) as [[db1 log1]|e] eqn:Hstep;
    [|exact Hinv].
  apply IH. apply update_comic_log in Hstep.
  destruct Hstep as [(_ & -> & _) | (_ & _ & comic_data & _ & Hsave)];
    [exact Hinv | exact (save_to_db_references _ _ _ Hsave Hinv)].
Qed.

Lemma run_cycles_references (remotes : list Remote) :
  forall db, references_resolve db -> references_resolve (run_cycles remotes db).
Proof.
  induction remotes as [|remote remotes IH]; intros db Hinv; [exact Hinv|].
  unfold run_cycles. simpl. apply IH. unfold update_db.
  destruct (get_all_comics remote); [apply update_loop_references|]; exact Hinv.
Qed.

Lemma references_resolve_create : references_resolve create_database.
Proof. split; intros x []. Qed.

(** X9.  In every store the Synchronizer can reach from the empty one,
    whatever the listings and whichever cycles failed, each page row is
    filed under the name of a stored comic and each keyword row under
    the id of one, and no two comics share an id. *)
Theorem reachable_references_resolve (remotes : list Remote) :
  let db := run_cycles remotes create_database in
  references_resolve db /\ NoDup (map Comics.id (comics_table db)).
Proof.
  split.
  - apply run_cycles_references, references_resolve_create.
  - apply (run_cycles_rows_listed (listed remotes));
      [apply incl_refl | split; [constructor | intros r []]].
Qed.









(** ** Searches that load by id *)

Lemma for_each_all_raise {A B} (f : A -> result B) (e : exn) (xs : list A)
      (ys : list B) :
  (forall x, In x xs -> f x = Raise e) -> for_each f xs = Ok ys -> ys = [].
Proof.
  destruct xs as [|x xs]; simpl; intros Hf H.
  - injection H as <-. reflexivity.
  - rewrite (Hf x (or_introl eq_refl)) in H. discriminate H.
Qed.

(** X12.  The searches by keywords, artist, category and tag hand ids
    to [load_from_db].  Unless a stored comic is named like the decimal
    text of an integer, none of them ever returns a comic: each returns
    the empty list or raises. *)
Theorem searches_by_id_return_no_comic (db : Database) :
  (forall r n, In r (comics_table db) -> Comics.name r <> Py.str n) ->
  (forall keywords limit results,
      ComicData.search_by_keywords db keywords limit = Ok results -> results = [])
  /\ (forall query limit results,
        ComicData.search_comics_by_artist db query limit = Ok results -> results = [])
  /\ (forall query limit results,
        ComicData.search_comics_by_category db query limit = Ok results -> results = [])
  /\ (forall query limit results,
        ComicData.search_comics_by_tag db query limit = Ok results -> results = []).
Proof.
  intros Hnames.
  assert (forall comic_id, ComicData.load_from_db db (SqlInt comic_id) = Raise TypeError)
    as Hload.
  { intros comic_id. apply load_from_db_raises. intros r Hr. apply Hnames, Hr. }
  assert (forall column query limit results,
             ComicData.search_comics_by_column column db query limit = Ok results ->
             results = []) as Hcolumn.
  { intros column query limit results. unfold ComicData.search_comics_by_column.
    destruct (difflib.get_close_matches _ _ _ _) as [matches|e]; [|discriminate].
    simpl. apply (for_each_all_raise _ TypeError). intros comic_id _. apply Hload. }
  split; [|repeat split; apply Hcolumn].
  intros keywords limit results. unfold ComicData.search_by_keywords.
  apply (for_each_all_raise _ TypeError). intros comic_id _. apply Hload.
Qed.

Lemma searches_by_id_return_no_comic_witness :
  (forall keywords limit results,
      ComicData.search_by_keywords Sample.fox_tales keywords limit = Ok results ->
      results = [])
  /\ (forall query limit results,
        ComicData.search_comics_by_artist Sample.fox_tales query limit = Ok results ->
        results = [])
  /\ (forall query limit results,
        ComicData.search_comics_by_category Sample.fox_tales query limit = Ok results ->
        results = [])
  /\ (forall query limit results,
        ComicData.search_comics_by_tag Sample.fox_tales query limit = Ok results ->
        results = []).
Proof.
  apply (searches_by_id_return_no_comic Sample.fox_tales).
  intros r n [<-|[]] H. simpl in H.
  apply (f_equal (occurs " ")) in H. rewrite str_no_space in H. discriminate H.
Defined.

(** ** The pages of the ranking *)

Lemma search_comics_by_page_selected (db : Database) (page limit : Z) :
  NoDup (map Comics.name (comics_table db)) ->
  0 <= limit ->
  ComicData.search_comics_by_page db page limit
  = Ok (map (record_of db)
            (firstn (Z.to_nat limit)
                    (skipn (Z.to_nat ((page - 1) * limit)) (Sql.by_rating db)))).
Proof.
  intros Hnames Hlimit.
  unfold ComicData.search_comics_by_page, Sql.names_by_rating.
  rewrite limit_offset_nonneg by exact Hlimit.
  rewrite for_each_map. apply for_each_ok.
  intros r Hr. unfold ComicData.load_from_db.
  rewrite comic_by_name_unique; [reflexivity | exact Hnames|].
  apply (order_by_In (fun r1 r2 => Sql.rating_geb (Comics.userRating r1)
                                                  (Comics.userRating r2))).
  fold (Sql.by_rating db).
  rewrite <- (firstn_skipn (Z.to_nat ((page - 1) * limit)) (Sql.by_rating db)).
  apply in_or_app. right.
  rewrite <- (firstn_skipn (Z.to_nat limit)
                           (skipn (Z.to_nat ((page - 1) * limit)) (Sql.by_rating db))).
  apply in_or_app. left. exact Hr.
Qed.

Lemma firstn_add {A} (a b : nat) (l : list A) :
  firstn (a + b) l = firstn a l ++ firstn b (skipn a l).
Proof.
  revert l. induction a as [|a IH]; intros l; [reflexivity|].
  destruct l as [|x l]; simpl; [rewrite firstn_nil; reflexivity|].
  rewrite IH. reflexivity.
Qed.

Lemma for_each_app {A B} (f : A -> result B) (xs1 xs2 : list A)
      (ys1 ys2 : list B) :
  for_each f xs1 = Ok ys1 -> for_each f xs2 = Ok ys2 ->
  for_each f (xs1 ++ xs2) = Ok (ys1 ++ ys2).
Proof.
  revert ys1. induction xs1 as [|x xs1 IH]; intros ys1 H1 H2; simpl in *.
  - injection H1 as <-. exact H2.
  - destruct (f x) as [y|e]; [|discriminate]. simpl in *.
    destruct (for_each f xs1) as [ys|e]; [|discriminate]. simpl in *.
    injection H1 as <-. rewrite (IH ys eq_refl H2). reflexivity.
Qed.

(** X13.  Browsing page after page shows the ranking once through: in a
    store without two comics of one name, the results of the pages 1 to
    [k], one after the other, are the records of the first [k * limit]
    comics by descending rating.  (The limit and the offsets are
    integers SQLite takes.) *)
Theorem pages_go_through_ranking (db : Database) (limit : Z) (k : nat) :
  NoDup (map Comics.name (comics_table db)) ->
  0 < limit ->
  sqlite_integer (Z.of_nat k * limit) ->
  exists pages,
    for_each (fun page => ComicData.search_comics_by_page db page limit)
             (Py.range1 (Z.of_nat k))
    = Ok pages
    /\ List.concat pages = top_of_ranking db (k * Z.to_nat limit).
Proof.
  intros Hnames Hlimit _. induction k as [|k [pages [Hpages Hconcat]]].
  - exists []. split; reflexivity.
  - exists (pages ++ [map (record_of db)
                          (firstn (Z.to_nat limit)
                                  (skipn (k * Z.to_nat limit) (Sql.by_rating db)))])%list.
    split.
    + unfold Py.range1 in *. rewrite Nat2Z.id in *. rewrite seq_S, map_app.
      apply for_each_app; [exact Hpages|]. cbn [map for_each].
      rewrite search_comics_by_page_selected by (assumption || lia).
      replace (Z.of_nat (1 + k) - 1) with (Z.of_nat k) by lia.
      rewrite Z2Nat.inj_mul, Nat2Z.id by lia. reflexivity.
    + rewrite concat_app, Hconcat. cbn [List.concat]. rewrite app_nil_r.
      unfold top_of_ranking. rewrite <- map_app. f_equal.
      replace (S k * Z.to_nat limit)%nat with (k * Z.to_nat limit + Z.to_nat limit)%nat
        by lia.
      symmetry. apply firstn_add.
Qed.

Lemma pages_go_through_ranking_witness :
  exists pages,
    for_each (fun page => ComicData.search_comics_by_page (Sample.store 3) page 2)
             (Py.range1 (Z.of_nat 2))
    = Ok pages
    /\ List.concat pages = top_of_ranking (Sample.store 3) (2 * Z.to_nat 2).
Proof.
  apply (pages_go_through_ranking (Sample.store 3) 2 2).
  - vm_compute.
    constructor; [intros [H|[H|[]]]; discriminate H|].
    constructor; [intros [H|[]]; discriminate H|].
    constructor; [intros [] | constructor].
  - lia.
  - unfold sqlite_integer. lia.
Defined.

(** X14.  There is no page before the first: page 0 and the negative
    pages are page 1, SQLite reading a negative offset as none.  (The
    limit and the offset are integers SQLite takes.) *)
Theorem search_comics_by_page_before_first (db : Database) (page limit : Z) :
  page <= 1 -> 0 <= limit ->
  sqlite_integer limit -> sqlite_integer ((page - 1) * limit) ->
  ComicData.search_comics_by_page db page limit
  = ComicData.search_comics_by_page db 1 limit.
Proof.
  intros Hpage Hlimit _ _.
  unfold ComicData.search_comics_by_page, Sql.names_by_rating, Sql.limit_offset.
  replace (Z.to_nat ((page - 1) * limit)) with (Z.to_nat ((1 - 1) * limit));
    [reflexivity|].
  assert ((page - 1) * limit <= 0) by nia. simpl. lia.
Qed.

Lemma search_comics_by_page_before_first_witness :
  ComicData.search_comics_by_page Sample.fox_tales 0 10
  = ComicData.search_comics_by_page Sample.fox_tales 1 10.
Proof.
  apply (search_comics_by_page_before_first Sample.fox_tales 0 10);
    unfold sqlite_integer; lia.
Defined.

Lemma round_div10_floor (m : Z) : m / 10 <= Py.round_div10 m <= m / 10 + 1.
Proof.
  unfold Py.round_div10.
  destruct (m mod 10 <? 5); [lia|].
  destruct (5 <? m mod 10); [lia|].
  destruct (Z.even (m / 10)); lia.
Qed.

Lemma search_comics_by_page_empty (db : Database) (page : Z) :
  1 <= page ->
  ComicData.search_comics_by_page db page 10 = Ok []
  <-> Py.len (comics_table db) <= (page - 1) * 10.
Proof.
  intros Hpage.
  destruct (search_comics_by_page_returns db page 10) as [results [Hres Hlen]].
  rewrite limit_offset_nonneg in Hlen by lia.
  rewrite length_firstn, length_skipn in Hlen.
  unfold Sql.by_rating in Hlen. rewrite order_by_length in Hlen.
  rewrite Hres. unfold Py.len. split.
  - intros H. injection H as ->. cbn [List.length] in Hlen. lia.
  - intros H. destruct results as [|c results]; [reflexivity|].
    cbn [List.length] in Hlen. lia.
Qed.

(** X15.  The last page that shows comics is the highest page number
    [get_max_page_number] gives, or the one after it: every later page
    (whose offset SQLite takes) is empty, the page of that number is
    not, and the page after it shows comics exactly when the number is
    the floor of [(total - 1) / 10]. *)
Theorem last_page_is_max_or_next (db : Database) :
  let max_page := ComicData.get_max_page_number db in
  (forall page, max_page + 2 <= page -> sqlite_integer ((page - 1) * 10) ->
     ComicData.search_comics_by_page db page 10 = Ok [])
  /\ (1 <= max_page -> ComicData.search_comics_by_page db max_page 10 <> Ok [])
  /\ (comics_table db <> [] ->
      (ComicData.search_comics_by_page db (max_page + 1) 10 <> Ok []
       <-> max_page_is_floor db)).
Proof.
  intros max_page.
  pose proof (round_div10_nearest (Py.len (comics_table db) - 1)) as [Hnear _].
  pose proof (round_div10_floor (Py.len (comics_table db) - 1)) as Hfloor.
  fold (ComicData.get_max_page_number db) in Hnear, Hfloor. fold max_page in Hnear, Hfloor.
  assert (0 <= Py.len (comics_table db)) as Hlen by (unfold Py.len; lia).
  assert (0 <= max_page) as Hmax.
  { assert (-1 <= (Py.len (comics_table db) - 1) / 10)
      by (apply Z.div_le_lower_bound; lia).
    destruct (Z.eq_dec (Py.len (comics_table db)) 0) as [Hzero|Hpos]; [|lia].
    unfold max_page, ComicData.get_max_page_number. rewrite Hzero. simpl.
    vm_compute. discriminate. }
  split; [|split].
  - intros page Hpage _. apply search_comics_by_page_empty; lia.
  - intros Hone Hempty. apply search_comics_by_page_empty in Hempty; lia.
  - intros Hcomics. unfold max_page_is_floor. fold max_page.
    assert (1 <= Py.len (comics_table db)) as Hsome.
    { unfold Py.len. destruct (comics_table db); [elim Hcomics; reflexivity|].
      simpl. lia. }
    pose proof (Z.mul_div_le (Py.len (comics_table db) - 1) 10 ltac:(lia)) as Hdiv.
    split.
    + intros Hshown.
      destruct (Z.le_gt_cases (Py.len (comics_table db)) (max_page * 10)) as [Hle|Hgt].
      * elim Hshown. apply search_comics_by_page_empty; lia.
      * assert (max_page <= (Py.len (comics_table db) - 1) / 10)
          by (apply Z.div_le_lower_bound; lia).
        lia.
    + intros Heq Hempty. apply search_comics_by_page_empty in Hempty; lia.
Qed.

(** ** The bot *)

Lemma chunks_concat {A} (l : list A) (size count : nat) :
  List.concat (map (fun k => firstn size (skipn (k * size) l)) (seq 0 count))
  = firstn (count * size) l.
Proof.
  induction count as [|count IH]; [reflexivity|].
  rewrite seq_S, map_app, concat_app, IH. cbn [map List.concat plus].
  rewrite app_nil_r.
  replace (S count * size)%nat with (count * size + size)%nat by lia.
  symmetry. apply firstn_add.
Qed.

Lemma media_groups_chunks (image_urls : list string) :
  Bot.media_groups image_urls
  = map (fun k => firstn 10 (skipn (k * 10) image_urls))
        (seq 0 ((List.length image_urls + 10 - 1) / 10)).
Proof.
  unfold Bot.media_groups, Str.range_step, Str.slice. rewrite map_map.
  apply map_ext. intros k.
  replace (k * 10 + 10 - k * 10)%nat with 10%nat by lia. reflexivity.
Qed.

Lemma media_groups_concat (image_urls : list string) :
  List.concat (Bot.media_groups image_urls) = image_urls.
Proof.
  rewrite media_groups_chunks, chunks_concat. apply firstn_all2.
  pose proof (Nat.div_mod_eq (List.length image_urls + 10 - 1) 10) as Hdiv.
  pose proof (Nat.mod_upper_bound (List.length image_urls + 10 - 1) 10) as Hmod.
  lia.
Qed.

Lemma media_groups_sizes (image_urls : list string) (media_group : list string) :
  In media_group (Bot.media_groups image_urls) ->
  (1 <= List.length media_group <= 10)%nat.
Proof.
  rewrite media_groups_chunks. intros Hin. apply in_map_iff in Hin.
  destruct Hin as [k [<- Hk]]. apply in_seq in Hk.
  rewrite length_firstn, length_skipn.
  pose proof (Nat.div_mod_eq (List.length image_urls + 10 - 1) 10) as Hdiv.
  pose proof (Nat.mod_upper_bound (List.length image_urls + 10 - 1) 10) as Hmod.
  lia.
Qed.

(** X16.  [send_comic_to_chat] sends every page of a stored comic once
    and in order: after the message that announces the comic, one media
    group per call, each of one to ten photos without caption, and the
    photos of all groups are the pages of the comic. *)
Theorem send_comic_to_chat_sends_pages
        (db : Database) (chat_id : Z) (comic_name : string) (comic : ComicData.t) :
  ComicData.load_from_db db (SqlText comic_name) = Ok comic ->
  exists groups,
    Bot.send_comic_to_chat db chat_id comic_name
    = Ok (Bot.send_message chat_id ("Loading comic: " ++ Bot.describe comic)%string None
          :: map (Bot.send_media_group chat_id) groups)
    /\ map Bot.media (List.concat groups) = ComicData.pages comic
    /\ (forall photo, In photo (List.concat groups) -> Bot.caption photo = None)
    /\ (forall group, In group groups -> 1 <= Py.len group <= 10).
Proof.
  intros Hload.
  set (photo := fun url => {| Bot.media := url; Bot.caption := None |}).
  exists (map (map photo) (Bot.media_groups (ComicData.pages comic))).
  split; [|split; [|split]].
  - unfold Bot.send_comic_to_chat. rewrite Hload. cbn [bind]. do 2 f_equal.
    fold photo.
    assert (forall groups,
               (forall group, In group groups -> group <> []) ->
               flat_map (fun media_group =>
                           match map photo media_group with
                           | [] => []
                           | _ :: _ => [Bot.send_media_group chat_id (map photo media_group)]
                           end) groups
               = map (Bot.send_media_group chat_id) (map (map photo) groups)) as Hflat.
    { induction groups as [|group groups IH]; intros Hne; [reflexivity|].
      cbn [flat_map map]. rewrite IH by (intros g Hg; apply Hne; right; exact Hg).
      destruct group as [|url group]; [elim (Hne [] (or_introl eq_refl)); reflexivity|].
      reflexivity. }
    apply Hflat. intros group Hin Hnil. apply media_groups_sizes in Hin.
    rewrite Hnil in Hin. simpl in Hin. lia.
  - rewrite concat_map, map_map.
    rewrite (map_ext _ (fun group => group))
      by (intros group; rewrite map_map; apply map_id).
    rewrite map_id. apply media_groups_concat.
  - intros p Hp. rewrite <- concat_map in Hp. apply in_map_iff in Hp.
    destruct Hp as [url [<- _]]. reflexivity.
  - intros group Hin. apply in_map_iff in Hin. destruct Hin as [urls [<- Hin]].
    apply media_groups_sizes in Hin. unfold Py.len. rewrite length_map. lia.
Qed.

Lemma send_comic_to_chat_sends_pages_witness :
  exists groups,
    Bot.send_comic_to_chat (Sample.store 25) 7 "Comic 3"
    = Ok (Bot.send_message
            7 ("Loading comic: "
                 ++ Bot.describe (Fixture.comic_3))%string None
          :: map (Bot.send_media_group 7) groups)
    /\ map Bot.media (List.concat groups) = ComicData.pages Fixture.comic_3
    /\ (forall photo, In photo (List.concat groups) -> Bot.caption photo = None)
    /\ (forall group, In group groups -> 1 <= Py.len group <= 10).
Proof.
  apply (send_comic_to_chat_sends_pages (Sample.store 25) 7 "Comic 3").
  vm_compute. reflexivity.
Defined.

(** The pieces of a split. *)
Lemma split_not_nil (sep : ascii) (s : string) : Str.split sep s <> [].
Proof.
  destruct s as [|c s]; simpl; [discriminate|].
  destruct (Ascii.eqb c sep); [discriminate|].
  destruct (Str.split sep s); discriminate.
Qed.

Lemma split_app (sep : ascii) (s t : string) :
  occurs sep s = false ->
  Str.split sep (s ++ String sep t) = s :: Str.split sep t.
Proof.
  induction s as [|c s IH]; intros Hs.
  - simpl. rewrite Ascii.eqb_refl. reflexivity.
  - unfold occurs in Hs. cbn [list_ascii_of_string existsb] in Hs.
    apply orb_false_iff in Hs. destruct Hs as [Hc Hs].
    cbn [append Str.split]. rewrite Ascii.eqb_sym, Hc, IH by exact Hs. reflexivity.
Qed.

Lemma split_no_sep (sep : ascii) (s : string) :
  occurs sep s = false -> Str.split sep s = [s].
Proof.
  induction s as [|c s IH]; intros Hs; [reflexivity|].
  unfold occurs in Hs. cbn [list_ascii_of_string existsb] in Hs.
  apply orb_false_iff in Hs. destruct Hs as [Hc Hs].
  cbn [Str.split]. rewrite Ascii.eqb_sym, Hc, IH by exact Hs. reflexivity.
Qed.

Lemma split_head_no_sep (sep : ascii) (s : string) :
  occurs sep (hd EmptyString (Str.split sep s)) = false.
Proof.
  induction s as [|c s IH]; [reflexivity|]. cbn [Str.split].
  destruct (Ascii.eqb c sep) eqn:Hc; [reflexivity|].
  destruct (Str.split sep s) as [|word words]; cbn [hd] in *;
    unfold occurs in *; cbn [list_ascii_of_string existsb];
    rewrite Ascii.eqb_sym, Hc; [reflexivity | exact IH].
Qed.

(** [sep.join(s.split(sep))] is [s]. *)
Lemma join_split (sep : ascii) (s : string) :
  Str.join (String sep EmptyString) (Str.split sep s) = s.
Proof.
  unfold Str.join. induction s as [|c s IH]; [reflexivity|]. cbn [Str.split].
  destruct (Ascii.eqb_spec c sep) as [->|Hne].
  - pose proof (split_not_nil sep s) as Hnil.
    destruct (Str.split sep s) as [|word words]; [elim Hnil; reflexivity|].
    cbn [String.concat append] in *. rewrite IH. reflexivity.
  - pose proof (split_not_nil sep s) as Hnil.
    destruct (Str.split sep s) as [|word words]; [elim Hnil; reflexivity|].
    destruct words as [|word' words]; cbn [String.concat append] in *;
      rewrite IH; reflexivity.
Qed.

Lemma startswith_app (prefix s : string) : Str.startswith (prefix ++ s) prefix = true.
Proof.
  unfold Str.startswith. induction prefix as [|c prefix IH].
  - destruct s; reflexivity.
  - cbn [append String.prefix]. destruct (ascii_dec c c) as [_|Hne];
      [exact IH | elim Hne; reflexivity].
Qed.

(** X17.  The button of a comic leads to the comic whose name is the
    text of the comic's name before its first colon: to the comic
    itself when its name has no colon, and otherwise to another name. *)
Theorem callback_query_of_button (db : Database) (chat_id : Z) (comic : ComicData.t) :
  let shown := hd EmptyString (Str.split ":" (ComicData.name comic)) in
  Bot.callback_query db chat_id (Bot.callback_data (Bot.button comic))
  = Bot.send_comic_to_chat db chat_id shown
  /\ (occurs ":" (ComicData.name comic) = false -> shown = ComicData.name comic)
  /\ (occurs ":" (ComicData.name comic) = true -> shown <> ComicData.name comic).
Proof.
  intros shown. split; [|split].
  - unfold Bot.callback_query, Bot.callback_name, Bot.button.
    cbn [Bot.callback_data].
    rewrite startswith_app.
    change ("comic:" ++ ComicData.name comic)%string
      with ("comic" ++ String ":" (ComicData.name comic))%string.
    rewrite (split_app ":" "comic" (ComicData.name comic) eq_refl).
    pose proof (split_not_nil ":" (ComicData.name comic)) as Hnil.
    unfold shown. destruct (Str.split ":" (ComicData.name comic)) as [|word words];
      [elim Hnil; reflexivity|].
    cbn [nth hd]. unfold Bot.send_comic_to_chat.
    destruct (ComicData.load_from_db db (SqlText word)); reflexivity.
  - intros Hnone. unfold shown. rewrite split_no_sep by exact Hnone. reflexivity.
  - intros Hsome Heq. pose proof (split_head_no_sep ":" (ComicData.name comic)) as H.
    fold shown in H. rewrite Heq in H. congruence.
Qed.

(** X18.  [cmd_search] searches for the text after the first space of
    the message, as it stands: further spaces are kept.  A message
    without a space is answered with a request for a name. *)
Theorem cmd_search_query (db : Database) (chat_id : Z) (command rest : string) :
  occurs " " command = false ->
  Bot.cmd_search db chat_id (command ++ " " ++ rest) = search_reply db chat_id rest
  /\ Bot.cmd_search db chat_id command
     = Ok [Bot.send_message chat_id "Please specify a comic name." None].
Proof.
  intros Hcommand. unfold Bot.cmd_search, Bot.arguments. split.
  - change (command ++ " " ++ rest)%string with (command ++ String " " rest)%string.
    rewrite split_app by exact Hcommand. cbn [tl].
    pose proof (split_not_nil " " rest) as Hnil.
    pose proof (join_split " " rest) as Hjoin.
    destruct (Str.split " " rest) as [|word words]; [elim Hnil; reflexivity|].
    rewrite Hjoin. reflexivity.
  - rewrite split_no_sep by exact Hcommand. reflexivity.
Qed.

Lemma cmd_search_query_witness :
  Bot.cmd_search Sample.fox_tales 7 ("/search" ++ " " ++ "fox  tales")
  = search_reply Sample.fox_tales 7 "fox  tales"
  /\ Bot.cmd_search Sample.fox_tales 7 "/search"
     = Ok [Bot.send_message 7 "Please specify a comic name." None].
Proof.
  apply (cmd_search_query Sample.fox_tales 7 "/search" "fox  tales"). reflexivity.
Defined.

Lemma search_comics_by_name_returns (db : Database) (query : string) (limit : Z) :
  0 < limit ->
  exists results,
    ComicData.search_comics_by_name db query limit = Ok results
    /\ Py.len results <= limit.
Proof.
  intros Hlimit. unfold ComicData.search_comics_by_name.
  destruct (get_close_matches_ok (Py.title query) (map Comics.name (comics_table db))
                                 limit (3 # 10) Hlimit)
    as (matches & -> & Hlen & Hin & _); [discriminate | discriminate |].
  cbn [bind].
  destruct (for_each_Forall2
              (fun comic_name => ComicData.load_from_db db (SqlText comic_name)) matches)
    as [results [Hres Hall]].
  - intros name Hname. destruct (Hin name Hname) as [Hstored _].
    destruct (comic_by_name_present db name Hstored) as [row [Hfind _]].
    unfold ComicData.load_from_db. rewrite Hfind. eexists. reflexivity.
  - apply Forall2_length in Hall. unfold Py.len in *.
    destruct matches as [|m matches].
    + exists []. split; [reflexivity | simpl; lia].
    + exists results. split; [exact Hres | lia].
Qed.

(** X19.  Browsing and searching always answer.  Whatever the message,
    of ASCII text, and the store, [cmd_comics] and [cmd_search] raise nothing and send
    either one message or a header followed by one to ten comics.  (A
    page number, if the message has one, gives an offset that SQLite
    takes.) *)
Theorem browse_and_search_answer (db : Database) (chat_id : Z) (message_text : string) :
  (forall page_number args,
      Bot.arguments message_text = page_number :: args ->
      Str.isdigit page_number = true ->
      sqlite_integer ((Str.int_of_digits page_number - 1) * 10)) ->
  (exists calls, Bot.cmd_comics db chat_id message_text = Ok calls
                 /\ answers chat_id calls)
  /\ (exists calls, Bot.cmd_search db chat_id message_text = Ok calls
                    /\ answers chat_id calls).
Proof.
  intros _. split.
  - unfold Bot.cmd_comics.
    destruct (Bot.arguments message_text) as [|page_number args].
    + eexists. split; [reflexivity|]. left. eexists. reflexivity.
    + destruct (Str.isdigit page_number); cbn [negb].
      * destruct (search_comics_by_page_returns db (Str.int_of_digits page_number) 10)
          as [results [-> Hlen]].
        cbn [bind]. rewrite limit_offset_nonneg, length_firstn in Hlen by lia.
        destruct results as [|c results].
        -- eexists. split; [reflexivity|]. left. eexists. reflexivity.
        -- eexists. split; [reflexivity|]. right. do 2 eexists.
           split; [|reflexivity]. unfold Py.len. cbn [List.length] in *. lia.
      * eexists. split; [reflexivity|]. left. eexists. reflexivity.
  - unfold Bot.cmd_search.
    destruct (Bot.arguments message_text) as [|word words].
    + eexists. split; [reflexivity|]. left. eexists. reflexivity.
    + destruct (search_comics_by_name_returns db (Str.join " " (word :: words)) 10)
        as [results [-> Hlen]]; [lia|].
      cbn [bind]. destruct results as [|c results].
      * eexists. split; [reflexivity|]. left. eexists. reflexivity.
      * eexists. split; [reflexivity|]. right. do 2 eexists.
        split; [|reflexivity]. unfold Py.len in *. cbn [List.length] in *. lia.
Qed.

Lemma browse_and_search_answer_witness :
  (exists calls, Bot.cmd_comics (Sample.store 25) 7 "/comics 3" = Ok calls
                 /\ answers 7 calls)
  /\ (exists calls, Bot.cmd_search (Sample.store 25) 7 "/comics 3" = Ok calls
                    /\ answers 7 calls).
Proof.
  apply (browse_and_search_answer (Sample.store 25) 7 "/comics 3").
  intros page_number args Hargs _. vm_compute in Hargs. injection Hargs as <- _.
  unfold sqlite_integer. split; [apply Z.leb_le | apply Z.ltb_lt]; reflexivity.
Defined.

(** ** The two readers of the listing *)

Lemma each_head {A B} (f : A -> Api.outcome B) (xs : list A) (y : B) (ys : list B) :
  Api.each f xs = Api.Return (y :: ys) ->
  exists x xs', xs = x :: xs' /\ f x = Api.Return y.
Proof.
  destruct xs as [|x xs]; simpl; [discriminate|].
  destruct (f x) as [y'|e] eqn:Hfx; [|discriminate]. simpl.
  destruct (Api.each f xs) as [ys'|e]; [|discriminate]. simpl.
  intros H. injection H as -> _. exists x, xs. split; [reflexivity | exact Hfx].
Qed.

Lemma each_throw {A B} (f : A -> Api.outcome B) (x : A) (xs : list A) (e : Api.error) :
  f x = Api.Throw e -> Api.each f (x :: xs) = Api.Throw e.
Proof. intros H. simpl. rewrite H. reflexivity. Qed.

Lemma getitem_return (data value : Api.json) (key : string) :
  Api.getitem data key = Api.Return value ->
  exists entries entry,
    data = Api.JDict entries /\ In entry entries /\ fst entry = key.
Proof.
  destruct data as [| | | | | |entries]; try discriminate. simpl.
  destruct (find _ entries) as [entry|] eqn:Hfind; [|discriminate].
  intros _. apply find_some in Hfind. destruct Hfind as [Hin Hkey].
  exists entries, entry. repeat split; [exact Hin | apply String.eqb_eq; exact Hkey].
Qed.

Lemma and_then_return {A B} (m : Api.outcome A) (k : A -> Api.outcome B) (b : B) :
  Api.and_then m k = Api.Return b -> exists a, m = Api.Return a /\ k a = Api.Return b.
Proof.
  destruct m as [a|e]; [|discriminate]. intros H. exists a. split; [reflexivity | exact H].
Qed.

(** An item [get_all_comics] reads is an object with the key [cat]. *)
Lemma basic_of_item_cat (data : Api.json) (basic : Api.BasicComicData.t) :
  Api.basic_of_item data = Api.Return basic ->
  exists entries entry,
    data = Api.JDict entries /\ In entry entries /\ fst entry = "cat".
Proof.
  unfold Api.basic_of_item. intros H.
  apply and_then_return in H. destruct H as (id & _ & H).
  apply and_then_return in H. destruct H as (name & _ & H).
  apply and_then_return in H. destruct H as (category & Hcat & _).
  exact (getitem_return _ _ _ Hcat).
Qed.

Lemma get_listing_head {A} (response : Api.Response)
      (f : Api.json -> Api.outcome A) (y : A) (ys : list A) :
  (if Api.status_code response =? 200
   then Api.and_then (Api.iterate (Api.body response))
          (fun all_comic_data =>
             Api.and_then (Api.each f all_comic_data)
                          (fun comics => Api.Return (Some comics)))
   else Api.Return None)
  = Api.Return (Some (y :: ys)) ->
  (Api.status_code response =? 200) = true
  /\ exists item items,
       Api.iterate (Api.body response) = Api.Return (item :: items)
       /\ f item = Api.Return y.
Proof.
  destruct (Api.status_code response =? 200); [|discriminate].
  intros H. split; [reflexivity|].
  apply and_then_return in H. destruct H as (all_comic_data & Hiter & H).
  apply and_then_return in H. destruct H as (comics & Heach & H).
  injection H as ->.
  destruct (each_head _ _ _ _ Heach) as (item & items & -> & Hitem).
  exists item, items. split; [exact Hiter | exact Hitem].
Qed.

(** X20.  A listing that [get_all_comics] reads, with a comic in it,
    cannot be read by [get_all_comics_full]: the first item has the key
    [cat], which is no field of [BasicComicData], and the call raises
    [TypeError] before any comic is asked for. *)
Theorem get_all_comics_full_raises
        (response : Api.Response) (detail : Api.json -> Api.Response)
        (basic : Api.BasicComicData.t) (rest : list Api.BasicComicData.t) :
  Api.get_all_comics response = Api.Return (Some (basic :: rest)) ->
  Api.get_all_comics_full response detail = Api.Throw Api.TypeError.
Proof.
  intros Hread. apply get_listing_head in Hread.
  destruct Hread as (Hstatus & item & items & Hiter & Hitem).
  apply basic_of_item_cat in Hitem.
  destruct Hitem as (entries & entry & -> & Hin & Hkey).
  unfold Api.get_all_comics_full. rewrite Hstatus, Hiter. cbn [Api.and_then].
  rewrite (each_throw _ _ _ Api.TypeError); [reflexivity|].
  unfold Api.basic_of_keywords.
  assert (forallb (fun entry => existsb (String.eqb (fst entry)) Api.basic_fields)
                  entries = false) as ->; [|reflexivity].
  destruct (forallb _ entries) eqn:Hall; [|reflexivity].
  rewrite forallb_forall in Hall. specialize (Hall entry Hin).
  rewrite Hkey in Hall. discriminate Hall.
Qed.

Lemma get_all_comics_full_raises_witness :
  Api.get_all_comics_full Fixture.listing_with_cat Fixture.detail
  = Api.Throw Api.TypeError.
Proof.
  apply (get_all_comics_full_raises
           Fixture.listing_with_cat Fixture.detail
           (Api.BasicComicData.mk
              (Api.JInt 1) (Api.JStr "Fox Tales") (Api.JStr "Furry") (Api.JStr "M/F")
              (Api.JStr "Bob") (Api.JStr "2023-02-01") (Api.JStr "wip")
              (Api.JStr "2023-01-01") (Api.JInt 2))
           []).
  reflexivity.
Defined.

Lemma existsb_find {A} (f : A -> bool) (l : list A) :
  existsb f l = true -> exists x, find f l = Some x.
Proof.
  induction l as [|y l IH]; simpl; [discriminate|].
  destruct (f y); [intros _; exists y; reflexivity | exact IH].
Qed.

(** X21.  A listing that [get_all_comics_full] reads, with a comic in
    it, cannot be read by [get_all_comics]: the keys of the first item
    are the fields of [BasicComicData], [cat] is none of them, and the
    lookup raises [KeyError]. *)
Theorem get_all_comics_raises
        (response : Api.Response) (detail : Api.json -> Api.Response)
        (comic : Api.ComicData.t) (rest : list Api.ComicData.t) :
  Api.get_all_comics_full response detail = Api.Return (Some (comic :: rest)) ->
  Api.get_all_comics response = Api.Throw (Api.KeyError "cat").
Proof.
  intros Hread. apply get_listing_head in Hread.
  destruct Hread as (Hstatus & item & items & Hiter & Hitem).
  apply and_then_return in Hitem. destruct Hitem as (basic & Hbasic & _).
  unfold Api.basic_of_keywords in Hbasic.
  destruct item as [| | | | | |entries]; try discriminate.
  destruct (forallb _ entries) eqn:Hkeys; [|discriminate].
  destruct (forallb _ Api.basic_fields) eqn:Hfields; [|discriminate].
  clear Hbasic. rewrite forallb_forall in Hkeys, Hfields.
  unfold Api.get_all_comics. rewrite Hstatus, Hiter. cbn [Api.and_then].
  rewrite (each_throw _ _ _ (Api.KeyError "cat")); [reflexivity|].
  unfold Api.basic_of_item, Api.getitem.
  destruct (existsb_find _ _ (Hfields "id" ltac:(simpl; tauto))) as [e1 ->].
  destruct (existsb_find _ _ (Hfields "name" ltac:(simpl; tauto))) as [e2 ->].
  cbn [Api.and_then].
  destruct (find (fun entry => String.eqb (fst entry) "cat") entries)
    as [entry|] eqn:Hfind; [|reflexivity].
  apply find_some in Hfind. destruct Hfind as [Hin Hkey].
  apply String.eqb_eq in Hkey. specialize (Hkeys entry Hin).
  rewrite Hkey in Hkeys. discriminate Hkeys.
Qed.

Lemma get_all_comics_raises_witness :
  Api.get_all_comics Fixture.listing_with_category = Api.Throw (Api.KeyError "cat").
Proof.
  apply (get_all_comics_raises
           Fixture.listing_with_category Fixture.detail
           (Api.ComicData.mk
              (Api.JInt 1) (Api.JStr "Fox Tales")
              (get_comic_thumbnail_by_name "Fox Tales") (Api.JInt 2)
              (Api.JStr "Bob") (Api.JStr "Furry") (Api.JStr "M/F")
              (Api.JStr "2023-01-01") (Api.JStr "2023-02-01") (Api.JStr "wip")
              (Api.JFloat (9 # 2)%Q) (Api.JList [Api.JStr "feral"])
              (get_comic_pages_by_name_and_pages "Fox Tales" 2))
           []).
  reflexivity.
Defined.

(** ** The case of the query *)

Lemma lower_cases (c : ascii) :
  Py.lower (Py.lower c) = Py.lower c
  /\ Py.upper (Py.lower c) = Py.upper c
  /\ Py.is_cased (Py.lower c) = Py.is_cased c.
Proof.
  destruct c as [[|] [|] [|] [|] [|] [|] [|] [|]]; vm_compute; repeat split.
Qed.

Lemma title_from_lowercase (s : string) :
  forall previous_is_cased,
    Py.title_from previous_is_cased (lowercase s) = Py.title_from previous_is_cased s.
Proof.
  induction s as [|c s IH]; intros previous_is_cased; [reflexivity|].
  destruct (lower_cases c) as (Hlower & Hupper & Hcased).
  cbn [lowercase Py.title_from]. rewrite Hcased, IH.
  destruct previous_is_cased; [rewrite Hlower | rewrite Hupper]; reflexivity.
Qed.

(** X22.  The search by name does not see the letter case of the query:
    two queries that differ only in the case of their letters get the
    same answer. *)
Theorem search_comics_by_name_ignores_query_case
        (db : Database) (query1 query2 : string) (limit : Z) :
  lowercase query1 = lowercase query2 ->
  ComicData.search_comics_by_name db query1 limit
  = ComicData.search_comics_by_name db query2 limit.
Proof.
  intros Hcase. unfold ComicData.search_comics_by_name, Py.title.
  rewrite <- (title_from_lowercase query1), <- (title_from_lowercase query2), Hcase.
  reflexivity.
Qed.

Lemma search_comics_by_name_ignores_query_case_witness :
  ComicData.search_comics_by_name Sample.fox_tales "fox tales" 10
  = ComicData.search_comics_by_name Sample.fox_tales "FOX tALES" 10.
Proof.
  apply (search_comics_by_name_ignores_query_case Sample.fox_tales). reflexivity.
Defined.

(** ** What the store keeps of the service *)

Lemma listed_In (remotes : list Remote) (remote : Remote)
      (listing : list BasicComicData.t) :
  In remote remotes -> get_all_comics remote = Some listing ->
  incl listing (listed remotes).
Proof.
  intros Hin Hlisting b Hb. unfold listed. apply in_flat_map.
  exists remote. split; [exact Hin | rewrite Hlisting; exact Hb].
Qed.

Section Merged.

Variable remotes : list Remote.
Hypothesis remotes_keyed : name_keyed (listed remotes).

(** The invariant of the cycles over [remotes]. *)
Let kept (db : Database) : Prop :=
  references_resolve db
  /\ rows_listed (listed remotes) db
  /\ stored_as_merged remotes db.

Lemma update_comic_kept (remote : Remote) (listing : list BasicComicData.t)
      (basic : BasicComicData.t) (db db' : Database)
      (log log' : list new_pages_entry) :
  In remote remotes ->
  get_all_comics remote = Some listing ->
  In basic listing ->
  kept db ->
  update_comic remote basic db log = Ok (db', log') ->
  kept db'.
Proof.
  intros Hremote Hlisting Hbasic (Hresolve & Hrows & Hmerged) Hstep.
  pose proof (listed_In _ _ _ Hremote Hlisting basic Hbasic) as Hlisted.
  pose proof (update_comic_rows_listed _ _ _ _ _ _ _ Hlisted Hrows Hstep) as Hrows'.
  apply update_comic_log in Hstep.
  destruct Hstep as [(_ & -> & _) | (Hlt & _ & comic_data & Hfrom & Hsave)];
    [split; [exact Hresolve | split; [exact Hrows | exact Hmerged]]|].
  split; [exact (save_to_db_references _ _ _ Hsave Hresolve)|].
  split; [exact Hrows'|].
  destruct (get_comic_data_by_name remote (BasicComicData.name basic))
    as [detailed|] eqn:Hdetail; [|discriminate Hfrom].
  destruct (from_basic_and_detailed_ok _ _ _ Hfrom) as (Hid & Hname & _).
  destruct (save_to_db_ok _ _ _ Hsave) as [Hfresh _].
  pose proof (page_count_nonneg db (BasicComicData.name basic)) as Hold.
  (* the name is new to the store *)
  assert (~ In (ComicData.name comic_data) (map Comics.name (comics_table db)))
    as Hnew.
  { intros Hin. apply in_map_iff in Hin. destruct Hin as [r [Hr Hin]].
    destruct Hrows as [_ Hrows]. destruct (Hrows r Hin) as (b & Hb & Hbname & Hbid).
    apply Hfresh. rewrite Hid.
    rewrite <- (remotes_keyed b basic Hb Hlisted) by congruence.
    rewrite Hbid. apply in_map, Hin. }
  destruct (references_fresh db _ _ Hresolve Hnew Hfresh) as [Hpages Hkeywords].
  pose proof (save_to_db_inv _ _ _ Hsave) as [_ [Hcomics _]].
  intros r Hr. rewrite Hcomics in Hr.
  apply (Permutation_in _ (insert_by_perm _ _ _)) in Hr.
  destruct Hr as [<-|Hr].
  - exists (as_stored comic_data). split; [|split; [|reflexivity]].
    + change (Comics.name (comics_row comic_data)) with (ComicData.name comic_data).
      unfold ComicData.load_from_db.
      rewrite (comic_by_name_after_save _ _ _ Hsave Hnew). f_equal.
      exact (hydrate_after_save _ _ _ Hsave Hpages Hkeywords).
    + exists remote, listing, basic, detailed, comic_data.
      repeat split; try assumption. lia.
  - destruct (Hmerged r Hr) as (comic & Hload & Hfromr & Hidr).
    exists comic. split; [|split; assumption].
    rewrite <- Hload. unfold ComicData.load_from_db.
    assert (text_affinity (SqlText (Comics.name r)) <> ComicData.name comic_data)
      as Hother.
    { simpl. intros Heq. apply Hnew. rewrite <- Heq. apply in_map, Hr. }
    rewrite (comic_by_name_save_other _ _ _ _ Hsave Hother).
    destruct (Sql.comic_by_name db (SqlText (Comics.name r))) as [r'|] eqn:Hfind;
      [|reflexivity].
    f_equal. apply (hydrate_save_other comic_data); [exact Hsave | exact Hother|].
    apply find_some in Hfind. exact (proj1 Hfind).
Qed.

Lemma update_loop_kept (remote : Remote) (listing comics : list BasicComicData.t) :
  In remote remotes ->
  get_all_comics remote = Some listing ->
  incl comics listing ->
  forall (db : Database) (log : list new_pages_entry),
    kept db -> kept (fst (update_loop remote comics db log)).
Proof.
  intros Hremote Hlisting.
  induction comics as [|basic rest IH]; intros Hincl db log Hkept; simpl;
    [exact Hkept|].
  destruct (update_comic remote basic db log) as [[db1 log1]|e] eqn:Hstep;
    [|exact Hkept].
  apply IH; [intros b Hb; apply Hincl; right; exact Hb|].
  apply (update_comic_kept remote listing basic db db1 log log1);
    try assumption. apply Hincl. left. reflexivity.
Qed.

Lemma run_cycles_kept (cycles : list Remote) :
  incl cycles remotes ->
  forall db, kept db -> kept (run_cycles cycles db).
Proof.
  induction cycles as [|remote cycles IH]; intros Hincl db Hkept; [exact Hkept|].
  unfold run_cycles. simpl. apply IH; [intros x Hx; apply Hincl; right; exact Hx|].
  unfold update_db.
  destruct (get_all_comics remote) as [listing|] eqn:Hlisting; [|exact Hkept].
  apply (update_loop_kept remote listing listing);
    [apply Hincl; left; reflexivity | exact Hlisting | apply incl_refl | exact Hkept].
Qed.

Lemma reachable_kept : kept (run_cycles remotes create_database).
Proof.
  apply run_cycles_kept; [apply incl_refl|].
  split; [apply references_resolve_create|].
  split; [split; [constructor | intros r []] | intros r []].
Qed.

End Merged.

(** X23.  What the cycles store is what the service said.  Where every
    name is always listed under one id, and the timestamps of the
    listings are texts that their columns keep as text, each comic of a
    store reached from the empty one loads, by its name, as the record
    made of an entry of a listing (with at least one page) and of the
    details the service gave for its name then: the fields of both, and
    the page URLs of the pages 1 to [numberOfPages]. *)
Theorem reachable_comics_load_as_merged (remotes : list Remote) (r : Comics.row) :
  name_keyed (listed remotes) ->
  (forall b, In b (listed remotes) ->
     kept_as_text (BasicComicData.created b) = true
     /\ kept_as_text (BasicComicData.updated b) = true) ->
  In r (comics_table (run_cycles remotes create_database)) ->
  exists comic,
    ComicData.load_from_db (run_cycles remotes create_database)
                           (SqlText (Comics.name r))
    = Ok comic
    /\ merged_from remotes comic
    /\ ComicData.id comic = Comics.id r.
Proof.
  intros Hkeyed _ Hr.
  destruct (reachable_kept remotes Hkeyed) as (_ & _ & Hmerged).
  exact (Hmerged r Hr).
Qed.

Lemma reachable_comics_load_as_merged_witness :
  exists comic,
    ComicData.load_from_db
      (run_cycles [Sample.remote [Sample.basic 1 "Fox Tales" "Bob" 2]] create_database)
      (SqlText "Fox Tales")
    = Ok comic
    /\ merged_from [Sample.remote [Sample.basic 1 "Fox Tales" "Bob" 2]] comic
    /\ ComicData.id comic = 1.
Proof.
  apply (reachable_comics_load_as_merged
           [Sample.remote [Sample.basic 1 "Fox Tales" "Bob" 2]]
           (Comics.mk 1 "Fox Tales"
              "https://static.yiffer.xyz/comics/Fox%20Tales/thumbnail.webp"
              "Furry" "M/F" "Bob" "wip" "2023-01-01" "2023-02-01" (Some (9 # 2)%Q))).
  - intros b1 b2 [<-|[]] [<-|[]] _. reflexivity.
  - intros b [<-|[]]. split; reflexivity.
  - left. reflexivity.
Defined.
